(** * Load disaggregation, hydro storage sizing and regional capacity
      reconciliation of [scripts/add_electricity.py]

    A shallow embedding of the numerical core of the script.  Python floats
    are idealised as exact rationals ([Q]), so capacities and upper bounds
    are finite and an equality "within floating-point tolerance" is an
    equality of rationals ([==]).  Where the script would divide by zero
    numpy yields NaN or an infinity and [Q] yields 0: every statement that
    depends on such a quotient carries the hypothesis that the denominator
    is not zero, except in the hydro sizer, whose NaN and infinite values
    are modelled explicitly.  In [shapes_to_shapes] the quotient is one of
    Python floats, which raises [ZeroDivisionError] on a zero divisor: the
    error is part of the model there and in the load disaggregation that
    calls it.  A pandas [Series] is the list of its values in
    index order, a [DataFrame] of generators the list of its rows in table
    order; row labels are unique, as PyPSA component names are. *)

From Stdlib Require Import ZArith QArith Qabs Qminmax Qpower List Ascii String
  Bool Lia Lqa.
From stdpp Require Import gmap strings.
Import ListNotations.

Local Open Scope Q_scope.
Local Open Scope string_scope.

(** ** Numerics *)

(** Python's [int(x)] on a float: truncation towards zero. *)
Definition py_int (x : Q) : Z := Z.quot (Qnum x) (Zpos (Qden x)).

(** [a > b] on floats, as a boolean. *)
Definition Qgtb (a b : Q) : bool := negb (Qle_bool a b).

(** [Series.sum()]. *)
Definition Qsum (l : list Q) : Q := fold_right Qplus 0 l.

(** [normed(s)]: [s / s.sum()]. *)
Definition normed (s : list Q) : list Q := List.map (fun x => x / Qsum s) s.

(** ** Regional capacity reconciler *)

Module Reconciler.

(** A row of [n.generators], restricted to the columns the reconciler reads
    and writes.  [name] is the row label (the DataFrame index). *)
Record generator := mkGenerator {
  name : string;
  p_nom : Q;
  p_nom_max : Q
}.

Definition frame := list generator.

(** The warning printed by the fallback of the update rule; the progress
    messages of the script are not modelled. *)
Inductive event :=
| WarnNoInitialCapacity.

(** How the reconciliation of one (region, carrier) pair ends. *)
Inductive outcome :=
| Done (df_updated : frame) (log : list event)
| SysExit
| IndexError
| KeyError
| OutOfFuel.

Definition set_p_nom (g : generator) (v : Q) : generator :=
  mkGenerator (name g) v (p_nom_max g).

(** [df['p_nom'].sum()] and [df['p_nom_max'].sum()]. *)
Definition total_p_nom (df : frame) : Q := Qsum (List.map p_nom df).
Definition total_p_nom_max (df : frame) : Q := Qsum (List.map p_nom_max df).

(** [df.shape[0]] as a float divisor. *)
Definition nrows (df : frame) : Q := inject_Z (Z.of_nat (List.length df)).

(** [df_updated.loc[:, 'p_nom'] += c] and [... *= factor]. *)
Definition add_each (c : Q) (df : frame) : frame :=
  List.map (fun g => set_p_nom g (p_nom g + c)) df.
Definition scale_each (factor : Q) (df : frame) : frame :=
  List.map (fun g => set_p_nom g (p_nom g * factor)) df.

(** [_update_in_network(df, required_capacity, method_increase)]: the four
    inner [if]s and the two outer ones are run one after the other, as in
    the script; the warning printed by the fallback is returned with the
    frame. *)
Definition _update_in_network (df : frame) (required_capacity : Q)
    (method_increase : string) : frame * list event :=
  let initial_capacity := total_p_nom df in
  let df_updated := df in
  let '(df_updated, log) :=
    if (py_int initial_capacity <? py_int required_capacity)%Z then
      let df1 :=
        if String.eqb method_increase "additional" then
          add_each ((required_capacity - initial_capacity) / nrows df) df_updated
        else df_updated in
      let df2 :=
        if String.eqb method_increase "proportional"
           && Qgtb initial_capacity 0 then
          scale_each (required_capacity / initial_capacity) df1
        else df1 in
      if String.eqb method_increase "proportional"
         && Qeq_bool initial_capacity 0 then
        (add_each ((required_capacity - initial_capacity) / nrows df) df2,
         [WarnNoInitialCapacity])
      else (df2, [])
    else (df_updated, []) in
  let df_updated :=
    if (py_int required_capacity <? py_int initial_capacity)%Z then
      scale_each (required_capacity / initial_capacity) df_updated
    else df_updated in
  (df_updated, log).

(** [(df_updated['p_nom'] > df_updated['p_nom_max']).any()]. *)
Definition any_over (df_updated : frame) : bool :=
  existsb (fun g => Qgtb (p_nom g) (p_nom_max g)) df_updated.

(** [df_updated[df_generators_local_cc['p_nom'] > df_updated['p_nom_max']].index[0]]:
    the mask takes [p_nom] from the frame as it was selected and [p_nom_max]
    from [df_updated]; both carry the same index in the same order.  [None]
    is the [IndexError] of [.index[0]] on an empty selection. *)
Fixpoint index_conflictive (df_generators_local_cc df_updated : frame)
  : option string :=
  match df_generators_local_cc, df_updated with
  | g0 :: rest0, g :: rest =>
      if Qgtb (p_nom g0) (p_nom_max g) then Some (name g)
      else index_conflictive rest0 rest
  | _, _ => None
  end.

(** [df.at[label, column]]. *)
Definition at_label (df : frame) (label : string) : option generator :=
  List.find (fun g => String.eqb (name g) label) df.

(** [df_updated.at[label, 'p_nom'] -= overcapacity]. *)
Definition sub_at (label : string) (overcapacity : Q) (df : frame) : frame :=
  List.map (fun g => if String.eqb (name g) label
                     then set_p_nom g (p_nom g - overcapacity) else g) df.

(** [df.drop(label, inplace=True)]: [None] is the [KeyError] raised when the
    label is not in the index. *)
Definition drop (label : string) (df : frame) : option frame :=
  match at_label df label with
  | None => None
  | Some _ => Some (List.filter (fun g => negb (String.eqb (name g) label)) df)
  end.

(** [df_updated.update(other)]: rows of [df_updated] whose label is in
    [other] take the values of [other]. *)
Definition update (df_updated other : frame) : frame :=
  List.map (fun g => match at_label other (name g) with
                     | Some g' => g'
                     | None => g
                     end) df_updated.

(** The overflow-repair [while] loop, one unfolding per iteration. *)
Fixpoint repair_loop (fuel : nat) (df_generators_local_cc : frame)
    (method_increase : string) (df_updated df_to_sanitise : frame)
    (log : list event) : outcome :=
  if any_over df_updated then
    match fuel with
    | O => OutOfFuel
    | S fuel' =>
        match index_conflictive df_generators_local_cc df_updated with
        | None => IndexError
        | Some label =>
            match at_label df_updated label with
            | None => KeyError
            | Some g =>
                let overcapacity := p_nom g - p_nom_max g in
                let df_updated := sub_at label overcapacity df_updated in
                match drop label df_to_sanitise with
                | None => KeyError
                | Some df_to_sanitise =>
                    let required_capacity :=
                      total_p_nom df_to_sanitise + overcapacity in
                    let '(df_to_sanitise, w) :=
                      _update_in_network df_to_sanitise required_capacity
                                         method_increase in
                    let df_updated := update df_updated df_to_sanitise in
                    repair_loop fuel' df_generators_local_cc method_increase
                                df_updated df_to_sanitise (log ++ w)
                end
            end
        end
    end
  else Done df_updated log.

(** The reconciliation of one (region, carrier) pair, from the selected
    candidates on: first update, the up-front space check, the repair
    loop. *)
Definition reconcile_fuel (fuel : nat) (df_generators_local_cc : frame)
    (required_capacity : Q) (method_increase : string) : outcome :=
  let '(df_updated, log) :=
    _update_in_network df_generators_local_cc required_capacity
                       method_increase in
  if Qgtb (total_p_nom df_updated) (total_p_nom_max df_updated) then SysExit
  else
    let df_to_sanitise := df_updated in
    repair_loop fuel df_generators_local_cc method_increase
                df_updated df_to_sanitise log.

(** Every iteration of the loop drops a row of [df_to_sanitise] or raises,
    so the loop makes no more iterations than there are candidates: the
    fuel given here never runs out (see [reconcile_terminates]). *)
Definition reconcile (df_generators_local_cc : frame)
    (required_capacity : Q) (method_increase : string) : outcome :=
  reconcile_fuel (2 + List.length df_generators_local_cc)
                 df_generators_local_cc required_capacity method_increase.

End Reconciler.

(** ** Area-overlap transfer builder *)

(** The geometry that [shapes_to_shapes] works on.  [intersects],
    [intersection] and [area] are the shapely operations the function
    calls; [shape_union] is not called by the script and only serves to state how
    areas add up. *)
Record Geometry := mkGeometry {
  Shape : Type;
  intersects : Shape -> Shape -> bool;
  intersection : Shape -> Shape -> Shape;
  shape_union : Shape -> Shape -> Shape;
  area : Shape -> Q
}.

Arguments intersects {_} _ _.
Arguments intersection {_} _ _.
Arguments shape_union {_} _ _.
Arguments area {_} _.

(** What is assumed of planar area. *)
Record GeometryLaws (G : Geometry) : Prop := mkGeometryLaws {
  area_nonneg : forall a : Shape G, 0 <= area a;
  area_modular : forall a b : Shape G,
    area (shape_union a b) + area (intersection a b) == area a + area b;
  area_intersection_le : forall a b : Shape G,
    area (intersection a b) <= area b;
  inter_comm : forall a b : Shape G,
    intersection a b = intersection b a;
  inter_assoc : forall a b c : Shape G,
    intersection a (intersection b c) = intersection (intersection a b) c;
  inter_union_distr : forall a b c : Shape G,
    intersection (shape_union a b) c = shape_union (intersection a c) (intersection b c)
}.

(** Shapes no two of which overlap on a set of positive area. *)
Fixpoint non_overlapping {G : Geometry} (l : list (Shape G)) : Prop :=
  match l with
  | [] => True
  | s :: rest =>
      Forall (fun t => area (intersection s t) == 0) rest
      /\ non_overlapping rest
  end.

Module Transfer.

Section Builder.

Context {G : Geometry}.

(** The entry written at [transfer[i, j]], for [orig.iloc[j]] and
    [dest.iloc[i]]; a pair that does not intersect keeps the zero the
    matrix was created with.  The two areas are Python floats, so the
    division raises [ZeroDivisionError] when the target has no area:
    [None]. *)
Definition entry (orig_j dest_i : Shape G) : option Q :=
  if intersects orig_j dest_i
  then if Qeq_bool (area dest_i) 0
       then None
       else Some (area (intersection orig_j dest_i) / area dest_i)
  else Some 0.

(** [shapes_to_shapes(orig, dest)]: a [len(dest)] x [len(orig)] matrix, as
    the list of its rows, or [None] when an entry raises; the loop goes
    through the targets and, for each, through the sources. *)
Definition shapes_to_shapes (orig dest : list (Shape G))
  : option (list (list Q)) :=
  mapM (fun dest_i => mapM (fun orig_j => entry orig_j dest_i) orig) dest.

(** [transfer[i, j]] of a matrix given by its rows. *)
Definition at_ij (transfer : list (list Q)) (i j : nat) : Q :=
  List.nth j (List.nth i transfer []) 0.

(** [transfer.T.dot(v)] for a matrix with [ncols] columns: entry [j] is the
    sum over the rows [i] of [transfer[i, j] * v[i]]. *)
Definition transposed_dot (ncols : nat) (transfer : list (list Q))
    (v : list Q) : list Q :=
  List.map (fun j => Qsum (List.map (fun '(row, x) => List.nth j row 0 * x)
                                    (List.combine transfer v)))
           (List.seq 0 ncols).

End Builder.

End Transfer.

(** A geometry to compute with: a shape is a finite set of unit cells of
    the integer grid, its area the number of cells. *)
Definition raster : Geometry :=
  mkGeometry (gset (Z * Z))
             (fun a b => bool_decide (a ∩ b ≠ ∅))
             (fun a b => a ∩ b)
             (fun a b => a ∪ b)
             (fun a => inject_Z (Z.of_nat (size a))).

(** A geometry with shapes that have no area: a shape is a finite set of
    unit cells and a finite set of grid points; two shapes intersect when
    they share a cell or a point, and only the cells count for the area. *)
Definition raster_points : Geometry :=
  mkGeometry (gset (Z * Z) * gset (Z * Z))
             (fun a b => bool_decide (fst a ∩ fst b ≠ ∅)
                         || bool_decide (snd a ∩ snd b ≠ ∅))
             (fun a b => (fst a ∩ fst b, snd a ∩ snd b))
             (fun a b => (fst a ∪ fst b, snd a ∪ snd b))
             (fun a => inject_Z (Z.of_nat (size (fst a)))).

(** ** Spatial load disaggregator *)

Module Load.

(** A table of time series: the snapshots and one column per region. *)
Record load_table := mkLoadTable {
  snapshots : list string;
  series : list (string * list Q)
}.

(** The disaggregated load: one column per bus, one row per snapshot. *)
Record data_frame := mkDataFrame {
  index : list string;
  columns : list string;
  values : list (list Q)
}.

(** A row of the precomputed per-bus table [gdp_pop_non_nuts3]. *)
Record bus_stats := mkBusStats {
  stats_bus : string;
  stats_country : string;
  stats_gdp : Q;
  stats_pop : Q
}.

(** [opsd_load[column]]; [None] is the [KeyError] of a missing column. *)
Fixpoint column (name : string) (cols : list (string * list Q))
  : option (list Q) :=
  match cols with
  | [] => None
  | (c, s) :: rest => if String.eqb c name then Some s else column name rest
  end.

(** [opsd_load *= scaling]. *)
Definition scale_table (scaling : Q) (t : load_table) : load_table :=
  mkLoadTable (snapshots t)
    (List.map (fun '(c, s) => (c, List.map (fun x => x * scaling) s))
              (series t)).

(** [Series.fillna(1.0)] on a cell; [None] is NaN. *)
Definition fillna (d : Q) (x : option Q) : Q :=
  match x with Some v => v | None => d end.

(** [a * x + b * y] on two series with the same index. *)
Definition weighted_sum (a : Q) (x : list Q) (b : Q) (y : list Q) : list Q :=
  List.map (fun '(u, v) => a * u + b * v) (List.combine x y).

(** [factors.values * load.values[:, np.newaxis]]. *)
Definition outer (load factors : list Q) : list (list Q) :=
  List.map (fun l => List.map (fun f => f * l) factors) load.

(** [s.str.contains(pat)] for a pattern without regular-expression
    operators, as the NUTS identifiers are. *)
Fixpoint str_contains (pat s : string) : bool :=
  String.prefix pat s
  || match s with
     | EmptyString => false
     | String _ s' => str_contains pat s'
     end.

(** Entry-wise sum of two frames' values with the same index and
    columns. *)
Definition add_values (a b : list (list Q)) : list (list Q) :=
  List.map (fun '(ra, rb) => List.map (fun '(x, y) => x + y)
                                      (List.combine ra rb))
           (List.combine a b).

Section Disaggregation.

Context {G : Geometry}.

(** A row of the NUTS3 table. *)
Record nuts3_row := mkNuts3 {
  nuts3_index : string;
  nuts3_country : string;
  gdp : option Q;
  pop : option Q;
  nuts3_geometry : Shape G
}.

(** A group of [gdf_regions.geometry]: bus names with their polygons. *)
Definition bus_group := list (string * Shape G).

(** The variables the nested [upsample] functions close over. *)
Variable update_gdp_pop : bool.
Variable substation_lv_i : list string.
Variable opsd_load : load_table.
Variable nuts3 : list nuts3_row.

(** [pd.Series(transfer.dot(rows["gdp"].fillna(1.0).values), index=group.index)]
    with [transfer = shapes_to_shapes(group, rows.geometry).T]; [None]
    where [shapes_to_shapes] raises. *)
Definition gdp_n (group : bus_group) (rows : list nuts3_row)
  : option (list Q) :=
  match Transfer.shapes_to_shapes (List.map snd group)
                                  (List.map nuts3_geometry rows) with
  | Some transfer =>
      Some (Transfer.transposed_dot (List.length group) transfer
              (List.map (fun r => fillna 1 (gdp r)) rows))
  | None => None
  end.

Definition pop_n (group : bus_group) (rows : list nuts3_row)
  : option (list Q) :=
  match Transfer.shapes_to_shapes (List.map snd group)
                                  (List.map nuts3_geometry rows) with
  | Some transfer =>
      Some (Transfer.transposed_dot (List.length group) transfer
              (List.map (fun r => fillna 1 (pop r)) rows))
  | None => None
  end.

(** [normed(w_gdp * normed(g) + w_pop * normed(p))]. *)
Definition combine_factors (w_gdp w_pop : Q) (g p : list Q) : list Q :=
  normed (weighted_sum w_gdp (normed g) w_pop (normed p)).

(** *** National mode: [upsample] of [attach_load] *)

(** The bus names and factors of a group with more than one bus; [None]
    where [shapes_to_shapes] raises, which it is called to do before the
    country is looked at. *)
Definition national_factors (cntry : string) (group : bus_group)
    (gdp_pop_non_nuts3 : list bus_stats) : option (list string * list Q) :=
  let nuts3_cntry :=
    List.filter (fun r => String.eqb (nuts3_country r) cntry) nuts3 in
  match gdp_n group nuts3_cntry, pop_n group nuts3_cntry with
  | Some g, Some p =>
      let factors :=
        if update_gdp_pop && String.eqb cntry "ES"
        then combine_factors (18 # 100) (82 # 100) g p
        else combine_factors (6 # 10) (4 # 10) g p in
      if String.eqb cntry "UA" || String.eqb cntry "MD" then
        let tbl :=
          List.filter (fun r => String.eqb (stats_country r) cntry
                                && existsb (String.eqb (stats_bus r))
                                           substation_lv_i)
                      gdp_pop_non_nuts3 in
        Some (List.map stats_bus tbl,
              combine_factors (6 # 10) (4 # 10)
                              (List.map stats_gdp tbl)
                              (List.map stats_pop tbl))
      else Some (List.map fst group, factors)
  | _, _ => None
  end.

(** [upsample(cntry, group, gdp_pop_non_nuts3)]; [None] is the exception
    the call ends with: the [KeyError] of a country without a column or
    the [ZeroDivisionError] of [shapes_to_shapes]. *)
Definition upsample (cntry : string) (group : bus_group)
    (gdp_pop_non_nuts3 : list bus_stats) : option data_frame :=
  match column cntry (series opsd_load) with
  | None => None
  | Some load =>
      match group with
      | [(bus, _)] =>
          Some (mkDataFrame (snapshots opsd_load) [bus]
                            (List.map (fun l => [l]) load))
      | _ =>
          match national_factors cntry group gdp_pop_non_nuts3 with
          | Some (buses, factors) =>
              Some (mkDataFrame (snapshots opsd_load) buses
                                (outer load factors))
          | None => None
          end
      end
  end.

(** *** Regional mode: [upsample] of [attach_load_vPyPSA_Spain] *)

(** The factors computed for one region code; [None] where
    [shapes_to_shapes] raises. *)
Definition regional_factors (rr_ID : string) (group : bus_group)
  : option (list Q) :=
  let nuts3_rr :=
    List.filter (fun r => str_contains rr_ID (nuts3_index r)) nuts3 in
  match gdp_n group nuts3_rr, pop_n group nuts3_rr with
  | Some g, Some p =>
      Some (if update_gdp_pop
            then combine_factors (18 # 100) (82 # 100) g p
            else combine_factors (6 # 10) (4 # 10) g p)
  | _, _ => None
  end.

(** [return_rr] of one region code. *)
Definition return_rr (rr_ID : string) (load : list Q) (group : bus_group)
  : option (list (list Q)) :=
  match regional_factors rr_ID group with
  | Some factors => Some (outer load factors)
  | None => None
  end.

(** The loop over [opsd_load.columns], accumulating into [return_total]. *)
Fixpoint accumulate (cols : list (string * list Q)) (group : bus_group)
    (return_total : list (list Q)) : option (list (list Q)) :=
  match cols with
  | [] => Some return_total
  | (rr_ID, load) :: rest =>
      match return_rr rr_ID load group with
      | Some rr => accumulate rest group (add_values return_total rr)
      | None => None
      end
  end.

(** [upsample(cntry, group)] of the regional variant; [None] where
    [shapes_to_shapes] raises for a region code. *)
Definition upsample_regional (cntry : string) (group : bus_group)
  : option data_frame :=
  let return_total :=
    List.repeat (List.repeat 0 (List.length group))
                (List.length (snapshots opsd_load)) in
  match accumulate (series opsd_load) group return_total with
  | Some total =>
      Some (mkDataFrame (snapshots opsd_load) (List.map fst group) total)
  | None => None
  end.

End Disaggregation.

(** The sum of the columns of a table, snapshot by snapshot, starting from
    [acc]. *)
Fixpoint sum_series (cols : list (string * list Q)) (acc : list Q) : list Q :=
  match cols with
  | [] => acc
  | (_, load) :: rest =>
      sum_series rest (List.map (fun '(x, y) => x + y) (List.combine acc load))
  end.

(** [filter(items=countries)]: the columns named in [countries]. *)
Definition filter_items (countries : list string) (t : load_table)
  : load_table :=
  mkLoadTable (snapshots t)
    (List.filter (fun '(c, _) => existsb (String.eqb c) countries)
                 (series t)).

(** The frames [attach_load] concatenates, one per country group of
    [gdf_regions]; [load] is the table read from the file. *)
Definition attach_load {G : Geometry} (update_gdp_pop : bool)
    (substation_lv_i : list string) (groups : list (string * bus_group))
    (load : load_table) (nuts3 : list nuts3_row)
    (gdp_pop_non_nuts3 : list bus_stats) (countries : list string)
    (scaling : Q) : list (option data_frame) :=
  let opsd_load := scale_table scaling (filter_items countries load) in
  List.map (fun '(cntry, group) =>
              upsample (G := G) update_gdp_pop substation_lv_i opsd_load nuts3
                       cntry group gdp_pop_non_nuts3)
           groups.

(** The frames [attach_load_vPyPSA_Spain] concatenates. *)
Definition attach_load_vPyPSA_Spain {G : Geometry} (update_gdp_pop : bool)
    (groups : list (string * bus_group))
    (load : load_table) (nuts3 : list nuts3_row)
    (scaling : Q) : list (option data_frame) :=
  let opsd_load := scale_table scaling load in
  List.map (fun '(cntry, group) =>
              upsample_regional (G := G) update_gdp_pop opsd_load nuts3
                                cntry group)
           groups.

End Load.

(** ** Reservoir storage duration in [attach_hydro] *)

Module Hydro.

(** A float64 cell: a number, NaN or an infinity. *)
Inductive cell :=
| NaN
| NegInf
| PosInf
| Fin (q : Q).

(** A reservoir plant of [hydro]; [max_hours = None] is NaN. *)
Record plant := mkPlant {
  plant_name : string;
  country : string;
  p_nom : Q;
  max_hours : option Q
}.

(** A row of [hydro_stats], indexed by country; a cell read from "-" is
    NaN. *)
Record stats_row := mkStats {
  stats_country : string;
  E_store : option Q;
  p_nom_discharge : option Q
}.

Inductive event :=
| WarnAssumingSixHours (missing_countries : list string).

(** A series indexed by country is given by its value at every label, NaN
    at a label that is not in its index: every use below (arithmetic
    aligned on the union of the indexes, [dropna], [map]) treats an absent
    label and a NaN alike.  The index of [hydro_stats] is taken to be
    unique. *)
Definition country_series := string -> cell.

Definition lookup_stats (c : string) (hydro_stats : list stats_row)
  : option stats_row :=
  List.find (fun r => String.eqb (stats_country r) c) hydro_stats.

Definition of_option (x : option Q) : cell :=
  match x with Some v => Fin v | None => NaN end.

(** Float subtraction and division on the cells that occur: the operands
    are numbers or NaN, a zero divisor gives an infinity of the sign of the
    dividend, or NaN for [0/0]. *)
Definition sub (a b : cell) : cell :=
  match a, b with
  | Fin x, Fin y => Fin (x - y)
  | _, _ => NaN
  end.

Definition div (a b : cell) : cell :=
  match a, b with
  | Fin x, Fin y =>
      if Qeq_bool y 0 then
        if Qgtb x 0 then PosInf else if Qgtb 0 x then NegInf else NaN
      else Fin (x / y)
  | _, _ => NaN
  end.

(** [Series.clip(0)]. *)
Definition clip0 (a : cell) : cell :=
  match a with
  | NaN => NaN
  | NegInf => Fin 0
  | PosInf => PosInf
  | Fin x => Fin (Qmax 0 x)
  end.

Definition in_country (c : string) (hydro : list plant) : list plant :=
  List.filter (fun p => String.eqb (country p) c) hydro.

(** [hydro_stats["E_store[TWh]"].clip(lower=0.2) * 1e6]. *)
Definition e_target (hydro_stats : list stats_row) : country_series :=
  fun c => match lookup_stats c hydro_stats with
           | Some r => match E_store r with
                       | Some v => Fin (Qmax (2 # 10) v * 1000000)
                       | None => NaN
                       end
           | None => NaN
           end.

(** [hydro.eval("p_nom * max_hours").groupby(hydro.country).sum()]: the
    sum skips the NaN products. *)
Definition e_installed (hydro : list plant) : country_series :=
  fun c => match in_country c hydro with
           | [] => NaN
           | ps => Fin (Qsum (List.map (fun p => match max_hours p with
                                                 | Some h => p_nom p * h
                                                 | None => 0
                                                 end) ps))
           end.

(** [hydro.loc[missing_mh_i].groupby("country").p_nom.sum()] with
    [missing_mh_i = hydro.query("max_hours.isnull()").index]. *)
Definition missing_p_nom (hydro : list plant) : country_series :=
  fun c => match List.filter (fun p => match max_hours p with
                                       | None => true
                                       | Some _ => false
                                       end) (in_country c hydro) with
           | [] => NaN
           | ps => Fin (Qsum (List.map p_nom ps))
           end.

(** [max_hours_country] before clipping, for the two estimators; [None] is
    the error raised at [max_hours_country.clip] when the configured name
    is neither. *)
Definition max_hours_country_raw (hydro_max_hours : string)
    (hydro_stats : list stats_row) (hydro : list plant)
  : option country_series :=
  if String.eqb hydro_max_hours "energy_capacity_totals_by_country" then
    Some (fun c => div (sub (e_target hydro_stats c) (e_installed hydro c))
                       (missing_p_nom hydro c))
  else if String.eqb hydro_max_hours "estimate_by_large_installations" then
    Some (fun c => match lookup_stats c hydro_stats with
                   | Some r =>
                       div (match E_store r with
                            | Some v => Fin (v * 1000)
                            | None => NaN
                            end)
                           (of_option (p_nom_discharge r))
                   | None => NaN
                   end)
  else None.

(** [max_hours_country] after [max_hours_country.clip(0, inplace=True)]. *)
Definition max_hours_country (hydro_max_hours : string)
    (hydro_stats : list stats_row) (hydro : list plant)
  : option country_series :=
  match max_hours_country_raw hydro_max_hours hydro_stats hydro with
  | Some raw => Some (fun c => clip0 (raw c))
  | None => None
  end.

Definition is_nan (a : cell) : bool :=
  match a with NaN => true | _ => false end.

(** [Series.fillna(d)] on a cell. *)
Definition fillna (d : Q) (a : cell) : cell :=
  match a with NaN => Fin d | _ => a end.

(** [pd.Index(hydro["country"].unique()).difference(max_hours_country.dropna().index)],
    in order of first appearance. *)
Definition missing_countries (mhc : country_series) (hydro : list plant)
  : list string :=
  List.filter (fun c => is_nan (mhc c))
              (List.nodup string_dec (List.map country hydro)).

(** [hydro.max_hours.where(hydro.max_hours > 0, hydro.country.map(max_hours_country)).fillna(6)]
    on one plant. *)
Definition plant_max_hours (mhc : country_series) (p : plant) : cell :=
  let kept :=
    match max_hours p with
    | Some h => if Qgtb h 0 then Fin h else mhc (country p)
    | None => mhc (country p)
    end in
  fillna 6 kept.

(** The [max_hours] passed to [n.madd("StorageUnit", hydro.index, ...)],
    one per plant, and what was logged. *)
Definition reservoir_max_hours (hydro_max_hours : string)
    (hydro_stats : list stats_row) (hydro : list plant)
  : option (list cell * list event) :=
  match max_hours_country hydro_max_hours hydro_stats hydro with
  | None => None
  | Some mhc =>
      let missing := missing_countries mhc hydro in
      let log := match missing with
                 | [] => []
                 | _ => [WarnAssumingSixHours missing]
                 end in
      Some (List.map (plant_max_hours mhc) hydro, log)
  end.

End Hydro.

(** ** Inputs used in the examples below *)

Module Examples.

Import Reconciler.

(** Three solar generators with (p_nom, p_nom_max) = (10,50), (10,20),
    (10,15). *)
Definition spec_solar : frame :=
  [ mkGenerator "bus1 solar" 10 50;
    mkGenerator "bus2 solar" 10 20;
    mkGenerator "bus3 solar" 10 15 ].

(** Two generators, the first of which starts above its upper bound. *)
Definition over_bound_start : frame :=
  [ mkGenerator "bus1 solar" 10 5;
    mkGenerator "bus2 solar" 10 100 ].


(** One generator with 10 MW installed. *)
Definition one_bus : frame :=
  [ mkGenerator "bus1 solar" 10 50 ].

(** Shapes of the raster geometry. *)
Definition cells (l : list (Z * Z)) : Shape raster := list_to_set l.

Definition unit_square : Shape raster := cells [(0, 0)%Z].

(** Two bus regions side by side and two statistical regions across
    them. *)
Definition west : Shape raster := cells [(0, 0)%Z; (0, 1)%Z].
Definition east : Shape raster :=
  cells [(1, 0)%Z; (1, 1)%Z; (2, 0)%Z; (2, 1)%Z].
Definition inland : Shape raster :=
  cells [(0, 0)%Z; (0, 1)%Z; (1, 0)%Z; (1, 1)%Z].
Definition coast : Shape raster := cells [(2, 0)%Z; (2, 1)%Z].

(** A region with a point on its border, and that point alone: a target
    without area that the region intersects. *)
Definition square_with_corner : Shape raster_points :=
  (list_to_set [(0, 0)%Z], list_to_set [(1, 1)%Z]).
Definition corner : Shape raster_points := (∅, list_to_set [(1, 1)%Z]).

Definition two_buses (cc : string) : Load.bus_group (G := raster) :=
  [ (cc ++ "0 0", west); (cc ++ "0 1", east) ].

(** The statistical regions of a country; the second has no GDP figure. *)
Definition two_regions (cc : string) : list (Load.nuts3_row (G := raster)) :=
  [ Load.mkNuts3 (cc ++ "111") cc (Some 30) (Some 10) inland;
    Load.mkNuts3 (cc ++ "120") cc None (Some 20) coast ].

(** A national load table and a regional one, over two snapshots. *)
Definition national_load : Load.load_table :=
  Load.mkLoadTable ["2019-01-01 00:00"; "2019-01-01 01:00"]
                   [ ("ES", [100; 80]); ("UA", [50; 40]) ].

Definition regional_load : Load.load_table :=
  Load.mkLoadTable ["2019-01-01 00:00"; "2019-01-01 01:00"]
                   [ ("ES11", [60; 50]); ("ES12", [40; 30]) ].

(** The precomputed per-bus table for a country without NUTS3 data. *)
Definition ua_table : list Load.bus_stats :=
  [ Load.mkBusStats "UA0 0" "UA" 1 1;
    Load.mkBusStats "UA0 1" "UA" 1 3 ].

(** Reservoir plants in a country with statistics and in one without. *)
Definition reservoirs : list Hydro.plant :=
  [ Hydro.mkPlant "0 hydro" "ES" 100 (Some 10);
    Hydro.mkPlant "1 hydro" "ES" 200 None;
    Hydro.mkPlant "2 hydro" "AL" 50 None;
    Hydro.mkPlant "3 hydro" "AL" 70 (Some 0) ].

Definition reported : list Hydro.stats_row :=
  [ Hydro.mkStats "ES" (Some (18 # 1)) (Some 20) ].

End Examples.

(** * Further parts of the script *)

(** ** One (region, carrier) pair of [fun_update_elec_capacities] *)

Module Capacities.

Import Reconciler.

(** A row of [n.generators] with the two columns the selection reads. *)
Record row := mkRow {
  gen : generator;
  bus : string;
  carrier : string
}.

(** [df_generators['bus'].isin(list_buses_local) & (df_generators['carrier']==cc)]. *)
Definition in_region (list_buses_local : list string) (cc : string)
    (g : row) : bool :=
  existsb (String.eqb (bus g)) list_buses_local && String.eqb (carrier g) cc.

(** [df_generators_local_cc]: the generators of the carrier on the local
    buses with more than 0.01 MW, and all generators of the carrier on the
    local buses if there is none of these. *)
Definition candidates (df_generators : list row)
    (list_buses_local : list string) (cc : string) : frame :=
  let above_floor :=
    List.filter (fun g => in_region list_buses_local cc g
                          && Qgtb (p_nom (gen g)) (1 # 100)) df_generators in
  match above_floor with
  | [] => List.map gen (List.filter (in_region list_buses_local cc)
                                    df_generators)
  | _ => List.map gen above_floor
  end.

(** [Series.mean()]: the mean of the cells that are not NaN ([None]), NaN
    when there is none. *)
Definition mean (column : list (option Q)) : option Q :=
  match List.flat_map (fun x => match x with Some v => [v] | None => [] end)
                      column with
  | [] => None
  | vs => Some (Qsum vs / inject_Z (Z.of_nat (List.length vs)))
  end.

(** [n.generators.update(df_updated)]: the rows whose label is in
    [df_updated] take its values. *)
Definition write_back (generators : list row) (df_updated : frame)
  : list row :=
  List.map (fun g => match at_label df_updated (name (gen g)) with
                     | Some g' => mkRow g' (bus g) (carrier g)
                     | None => g
                     end) generators.

(** How the body of the loop over regions ends for one pair: the warning
    that no bus has a generator of the carrier, the [ValueError] of [int()]
    on a NaN target, a reconciliation that does not complete, or the
    generators written back. *)
Inductive pair_result :=
| NoBus
| ValueError
| Failed (o : outcome)
| Written (generators : list row) (log : list event).

(** The body, from the selection of the candidates to the write-back;
    [list_buses_local] is the result of the spatial join and [column] the
    reported series [df_installed_capacity[rr]]. *)
Definition update_pair (generators : list row)
    (list_buses_local : list string) (cc : string)
    (column : list (option Q)) (method_increase : string) : pair_result :=
  match candidates generators list_buses_local cc with
  | [] => NoBus
  | df_generators_local_cc =>
      match mean column with
      | None => ValueError
      | Some required_capacity =>
          match reconcile df_generators_local_cc required_capacity
                          method_increase with
          | Done df_updated log =>
              Written (write_back generators df_updated) log
          | o => Failed o
          end
      end
  end.

End Capacities.

(** ** What the repair loop leaves alone *)

Module Invariant.

Import Reconciler.

(** The label of a row with its upper bound. *)
Definition key (g : generator) : string * Q := (name g, p_nom_max g).

(** Rows of the two frames that carry the same label carry the same upper
    bound. *)
Definition agree (df_to_sanitise df_updated : frame) : Prop :=
  forall g' g, In g' df_to_sanitise -> In g df_updated ->
               name g' = name g -> p_nom_max g' = p_nom_max g.

End Invariant.

(** ** Inputs used in the further examples *)

Module MoreExamples.

Import Reconciler.

(** Four generators: two solar ones in the region (one of them with a
    negligible capacity), a wind one in the region and a solar one
    outside. *)
Definition network : list Capacities.row :=
  [ Capacities.mkRow (mkGenerator "bus1 solar" 10 50) "bus1" "solar";
    Capacities.mkRow (mkGenerator "bus2 solar" (1 # 1000) 20) "bus2" "solar";
    Capacities.mkRow (mkGenerator "bus1 onwind" 30 40) "bus1" "onwind";
    Capacities.mkRow (mkGenerator "bus9 solar" 5 10) "bus9" "solar" ].

(** A reported series with a gap. *)
Definition reported_solar : list (option Q) := [Some 12; None; Some 14].

End MoreExamples.

(** ** Hydro inflow in [attach_hydro] *)

Module Inflow.

(** A row of [ppl] after [query('carrier == "hydro"')]: its label
    ("0 hydro", "1 hydro", ..., unique by construction), its technology,
    the country of its bus ([ppl["bus"].map(n.buses.country)]) and its
    capacity. *)
Record plant := mkPlant {
  label : string;
  technology : string;
  country : string;
  p_nom : Q
}.

Definition ror (ppl : list plant) : list plant :=
  List.filter (fun p => String.eqb (technology p) "Run-Of-River") ppl.

Definition hydro (ppl : list plant) : list plant :=
  List.filter (fun p => String.eqb (technology p) "Reservoir") ppl.

(** [inflow_idx = ror.index.union(hydro.index)], as the plants it labels;
    the columns of [inflow_t] are read by label, so their order is not
    modelled. *)
Definition inflow_idx (ppl : list plant) : list plant :=
  List.filter (fun p => String.eqb (technology p) "Run-Of-River"
                        || String.eqb (technology p) "Reservoir") ppl.

(** The capacity of the inflow plants of a country. *)
Definition country_p_nom (c : string) (idx : list plant) : Q :=
  Qsum (List.map p_nom
          (List.filter (fun p => String.eqb (country p) c) idx)).

(** [dist_key = ppl.loc[inflow_idx, "p_nom"].groupby(country).transform(normed)]. *)
Definition dist_key (idx : list plant) (p : plant) : Q :=
  p_nom p / country_p_nom (country p) idx.

(** [inflow_countries.unique().difference(inflow.indexes["countries"])]. *)
Definition missing_c (idx : list plant) (inflow : list (string * list Q))
  : list string :=
  List.filter (fun c => negb (existsb (String.eqb c) (List.map fst inflow)))
              (List.nodup string_dec (List.map country idx)).

(** The column of [inflow_t] for a plant: the series of its country times
    its share. *)
Definition plant_inflow (idx : list plant) (inflow : list (string * list Q))
    (p : plant) : list Q :=
  match Load.column (country p) inflow with
  | Some s => List.map (fun v => v * dist_key idx p) s
  | None => []
  end.

(** What the [if not inflow_idx.empty] block leaves: nothing when there is
    no inflow plant, the failed assertion with the missing countries, or
    [inflow_t]. *)
Inductive inflow_result :=
| NotComputed
| AssertionError (missing : list string)
| InflowT (columns : list (string * list Q)).

Definition inflow_t (ppl : list plant) (inflow : list (string * list Q))
  : inflow_result :=
  match inflow_idx ppl with
  | [] => NotComputed
  | idx =>
      match missing_c idx inflow with
      | [] => InflowT (List.map (fun p => (label p, plant_inflow idx inflow p))
                                idx)
      | missing => AssertionError missing
      end
  end.

(** [inflow_t[ror.index].divide(ror["p_nom"], axis=1).where(lambda df: df <= 1.0, other=1.0)]:
    the [p_max_pu] of the run-of-river generators. *)
Definition ror_p_max_pu (ppl : list plant) (inflow : list (string * list Q))
  : list (string * list Q) :=
  List.map (fun p =>
              (label p,
               List.map (fun x => if Qle_bool (x / p_nom p) 1
                                  then x / p_nom p else 1)
                        (plant_inflow (inflow_idx ppl) inflow p)))
           (ror ppl).

End Inflow.

Module InflowExamples.

(** Four hydro plants in two countries and the inflow of both. *)
Definition plants : list Inflow.plant :=
  [ Inflow.mkPlant "0 hydro" "Run-Of-River" "ES" 100;
    Inflow.mkPlant "1 hydro" "Reservoir" "ES" 300;
    Inflow.mkPlant "2 hydro" "Run-Of-River" "PT" 50;
    Inflow.mkPlant "3 hydro" "Pumped Storage" "ES" 200 ].

Definition inflow : list (string * list Q) :=
  [ ("ES", [800; 40]); ("PT", [10; 100]) ].

End InflowExamples.

(** ** Storage energy of the reservoirs *)

Module HydroEnergy.

Import Hydro.

(** The number in a cell, 0 when it holds none. *)
Definition number (a : cell) : Q :=
  match a with Fin q => q | _ => 0 end.

(** [p_nom * max_hours] summed over the plants of a country, with the
    [max_hours] that [attach_hydro] passes on. *)
Definition energy (mhc : country_series) (c : string) (hydro : list plant)
  : Q :=
  Qsum (List.map (fun p => p_nom p * number (plant_max_hours mhc p))
                 (in_country c hydro)).

End HydroEnergy.

(** ** [estimate_renewable_capacities] *)

Module Renewables.

(** A row of [n.generators] with the country of its bus
    ([n.generators.bus.map(n.buses.country)]) and the mean of its column of
    [n.generators_t.p_max_pu], [None] when it has no such column. *)
Record generator := mkGenerator {
  name : string;
  carrier : string;
  country : string;
  p_nom : Q;
  p_nom_min : Q;
  p_nom_max : Q;
  p_max_pu_mean : option Q
}.

(** A row of the IRENASTAT table. *)
Record irena_row := mkIrena {
  Year : Z;
  Technology : string;
  Country : string;
  Capacity : Q
}.

(** [capacities.query("Year == @year and Technology in @tech_map and Country in @countries")]. *)
Definition queried (year : Z) (tech_map : list (string * list string))
    (countries : list string) (r : irena_row) : bool :=
  Z.eqb (Year r) year
  && existsb (String.eqb (Technology r)) (List.map fst tech_map)
  && existsb (String.eqb (Country r)) countries.

(** [stats] at a country of [countries]: the entry of the grouped sum
    [capacities.loc[ppm_technology]] when there is one, 0.0 otherwise (both
    branches of the [if] fill the countries without an entry with 0.0). *)
Definition stats (capacities : list irena_row) (year : Z)
    (tech_map : list (string * list string)) (countries : list string)
    (ppm_technology c : string) : Q :=
  Qsum (List.map Capacity
          (List.filter (fun r => queried year tech_map countries r
                                 && String.eqb (Technology r) ppm_technology
                                 && String.eqb (Country r) c)
                       capacities)).

(** [tech_i]: the generators whose carrier is in [techs]. *)
Definition in_techs (techs : list string) (g : generator) : bool :=
  existsb (String.eqb (carrier g)) techs.

Definition tech_in_country (techs : list string) (c : string)
    (generators : list generator) : list generator :=
  List.filter (fun g => in_techs techs g && String.eqb (country g) c)
              generators.

(** [existent = n.generators.p_nom[tech_i].groupby(country).sum()]. *)
Definition existent (techs : list string) (c : string)
    (generators : list generator) : Q :=
  Qsum (List.map p_nom (tech_in_country techs c generators)).

(** [dist = n.generators_t.p_max_pu.mean() * n.generators.p_nom_max]; NaN
    ([None]) for a generator without a profile. *)
Definition dist (g : generator) : option Q :=
  match p_max_pu_mean g with
  | Some cf => Some (cf * p_nom_max g)
  | None => None
  end.

(** The sum of a group of [dist[tech_i].groupby(country)], which skips
    NaN. *)
Definition dist_total (techs : list string) (c : string)
    (generators : list generator) : Q :=
  Qsum (List.map (fun g => match dist g with Some d => d | None => 0 end)
                 (tech_in_country techs c generators)).

(** What is added to the [p_nom] of a generator of [tech_i]:
    [normed(s) * missing[s.name]] where it exceeds 0.1, and 0.0 elsewhere;
    [missing = stats - existent] is NaN at a country that is not in
    [countries]. *)
Definition addition (capacities : list irena_row) (year : Z)
    (tech_map : list (string * list string)) (countries : list string)
    (ppm_technology : string) (techs : list string)
    (generators : list generator) (g : generator) : Q :=
  match dist g with
  | None => 0
  | Some d =>
      if existsb (String.eqb (country g)) countries then
        let missing :=
          stats capacities year tech_map countries ppm_technology (country g)
          - existent techs (country g) generators in
        let v := d / dist_total techs (country g) generators * missing in
        if Qgtb v (1 # 10) then v else 0
      else 0
  end.

(** The body of the loop over [tech_map.items()]; [expansion_limit] is the
    configured number, [False] being 0 and [True] being 1. *)
Definition step (capacities : list irena_row) (year : Z)
    (tech_map : list (string * list string)) (expansion_limit : Q)
    (countries : list string) (generators : list generator)
    (item : string * list string) : list generator :=
  let '(ppm_technology, techs) := item in
  List.map (fun g =>
              if in_techs techs g then
                let p_nom' :=
                  p_nom g + addition capacities year tech_map countries
                                     ppm_technology techs generators g in
                let p_nom_min' := p_nom' in
                let p_nom_max' :=
                  if Qeq_bool expansion_limit 0 then p_nom_max g
                  else expansion_limit * p_nom_min' in
                mkGenerator (name g) (carrier g) (country g)
                            p_nom' p_nom_min' p_nom_max' (p_max_pu_mean g)
              else g)
           generators.

Definition estimate_renewable_capacities (generators : list generator)
    (capacities : list irena_row) (year : Z)
    (tech_map : list (string * list string)) (expansion_limit : Q)
    (countries : list string) : list generator :=
  if (List.length countries =? 0)%nat || (List.length tech_map =? 0)%nat
  then generators
  else List.fold_left (step capacities year tech_map expansion_limit countries)
                      tech_map generators.

(** Whether a carrier is listed under some technology of [tech_map]. *)
Definition mapped (tech_map : list (string * list string)) (g : generator)
  : bool :=
  existsb (fun item => in_techs (snd item) g) tech_map.

End Renewables.

Module RenewablesExamples.

Import Renewables.

(** Three solar generators in ES, a wind one in ES and a solar one in
    PT. *)
Definition fleet : list generator :=
  [ mkGenerator "ES0 0 solar" "solar" "ES" 10 0 400 (Some (2 # 10));
    mkGenerator "ES0 1 solar" "solar" "ES" 20 0 600 (Some (2 # 10));
    mkGenerator "ES0 2 solar" "solar" "ES" 0 0 1000 None;
    mkGenerator "ES0 0 onwind" "onwind" "ES" 50 0 300 (Some (3 # 10));
    mkGenerator "PT0 0 solar" "solar" "PT" 5 0 100 (Some (2 # 10)) ].

Definition irena : list irena_row :=
  [ mkIrena 2020 "Solar" "ES" 100;
    mkIrena 2020 "Solar" "ES" 30;
    mkIrena 2019 "Solar" "ES" 90;
    mkIrena 2020 "Onshore" "ES" 50;
    mkIrena 2020 "Solar" "PT" 40 ].

Definition technologies : list (string * list string) :=
  [ ("Solar", ["solar"]); ("Onshore", ["onwind"]) ].

End RenewablesExamples.

(** ** [update_transmission_costs] *)

Module Transmission.

Record line := mkLine {
  line_length : Q;
  line_capital_cost : Q
}.

Record link := mkLink {
  link_carrier : string;
  link_length : Q;
  underwater_fraction : Q;
  link_capital_cost : Q
}.

(** The function ends with the two tables updated in place, or with the
    [KeyError] of a cost entry or of the column 'underwater_fraction' that
    is not there. *)
Inductive outcome :=
| KeyError
| Updated (lines : list line) (links : list link).

Definition is_dc (k : link) : bool := String.eqb (link_carrier k) "DC".

(** [costs] gives [costs.at[name, "capital_cost"]], [None] for a missing
    row; [underwater_column] tells whether [n.links] has the column
    'underwater_fraction' (it may be missing when there is no DC link). *)
Definition update_transmission_costs (lines : list line) (links : list link)
    (underwater_column : bool) (costs : string -> option Q)
    (length_factor : Q) : outcome :=
  match costs "HVAC overhead" with
  | None => KeyError
  | Some hvac =>
      let lines' :=
        List.map (fun l => mkLine (line_length l)
                                  (line_length l * length_factor * hvac))
                 lines in
      match links with
      | [] => Updated lines' links
      | _ =>
          match List.filter is_dc links with
          | [] => Updated lines' links
          | _ =>
              match underwater_column, costs "HVDC overhead",
                    costs "HVDC submarine", costs "HVDC inverter pair" with
              | true, Some overhead, Some submarine, Some inverter =>
                  Updated lines'
                    (List.map
                       (fun k =>
                          if is_dc k then
                            mkLink (link_carrier k) (link_length k)
                                   (underwater_fraction k)
                                   (link_length k * length_factor
                                    * ((1 - underwater_fraction k) * overhead
                                       + underwater_fraction k * submarine)
                                    + inverter)
                          else k)
                       links)
              | _, _, _, _ => KeyError
              end
          end
      end
  end.

End Transmission.

Module TransmissionExamples.

Import Transmission.

Definition some_lines : list line := [ mkLine 100 0; mkLine 40 7 ].

Definition some_links : list link :=
  [ mkLink "DC" 200 (1 # 4) 0;
    mkLink "H2 pipeline" 50 0 11;
    mkLink "DC" 80 1 0 ].

Definition cost_table (name : string) : option Q :=
  if String.eqb name "HVAC overhead" then Some 30
  else if String.eqb name "HVDC overhead" then Some 40
  else if String.eqb name "HVDC submarine" then Some 90
  else if String.eqb name "HVDC inverter pair" then Some 5000
  else None.

End TransmissionExamples.

(** ** [calculate_annuity] *)

Module Annuity.

(** [r / (1.0 - 1.0 / (1.0 + r) ** n)], for a lifetime [n] of whole
    years. *)
Definition formula (n : positive) (r : Q) : Q :=
  r / (1 - 1 / Qpower_positive (1 + r) n).

(** The branches for a number [r]. *)
Definition calculate_annuity (n : positive) (r : Q) : Q :=
  if Qgtb r 0 then formula n r else 1 / inject_Z (Zpos n).

(** The branch for a series [r], with the series [n] of lifetimes on the
    same index: [pd.Series(1 / n, index=r.index).where(r == 0, ...)]. *)
Definition calculate_annuity_series (n : list positive) (r : list Q)
  : list Q :=
  List.map (fun '(n_i, r_i) =>
              if Qeq_bool r_i 0 then 1 / inject_Z (Zpos n_i)
              else formula n_i r_i)
           (List.combine n r).

End Annuity.

(** ** Carriers: [add_missing_carriers] and [add_co2_emissions] *)

Module Carriers.

(** A row of [n.carriers]. *)
Record attrs := mkAttrs {
  co2_emissions : Q;
  nice_name : string;
  color : string
}.

(** The part of a carrier name before its first "-": [split("-")[0]]. *)
Fixpoint first_component (s : string) : string :=
  match s with
  | EmptyString => EmptyString
  | String c s' =>
      if Ascii.eqb c "-"%char then EmptyString
      else String c (first_component s')
  end.

Section Tables.

(** The row [n.madd("Carrier", ...)] gives a new carrier. *)
Variable default : attrs.

(** [add_missing_carriers(n, carriers)], on [n.carriers]. *)
Definition add_missing_carriers (n_carriers : gmap string attrs)
    (carriers : list string) : gmap string attrs :=
  let missing_carriers : gset string :=
    list_to_set carriers ∖ dom n_carriers in
  if decide (0 < size missing_carriers)%nat
  then n_carriers ∪ gset_to_gmap default missing_carriers
  else n_carriers.

(** [costs.co2_emissions[suptechs].values]: the emissions of the first
    components, [None] for the [KeyError] of a missing one. *)
Fixpoint emissions (costs_co2 : gmap string Q) (carriers : list string)
  : option (list Q) :=
  match carriers with
  | [] => Some []
  | c :: rest =>
      match costs_co2 !! first_component c, emissions costs_co2 rest with
      | Some v, Some vs => Some (v :: vs)
      | _, _ => None
      end
  end.

Definition set_co2 (v : Q) (a : attrs) : attrs :=
  mkAttrs v (nice_name a) (color a).

(** [n.carriers.loc[carriers, "co2_emissions"] = values], entry by
    entry. *)
Fixpoint assign (n_carriers : gmap string attrs)
    (carriers : list string) (values : list Q) : gmap string attrs :=
  match carriers, values with
  | c :: carriers', v :: values' =>
      assign (alter (set_co2 v) c n_carriers) carriers' values'
  | _, _ => n_carriers
  end.

(** [add_co2_emissions(n, costs, carriers)]; [None] is the [KeyError] of a
    carrier that is not in [n.carriers] or of a first component without
    emissions in [costs]. *)
Definition add_co2_emissions (n_carriers : gmap string attrs)
    (costs_co2 : gmap string Q) (carriers : list string)
  : option (gmap string attrs) :=
  if forallb (fun c => bool_decide (is_Some (n_carriers !! c))) carriers then
    match emissions costs_co2 carriers with
    | Some values => Some (assign n_carriers carriers values)
    | None => None
    end
  else None.

End Tables.

End Carriers.

Module CarriersExamples.

Import Carriers.

(** The defaults PyPSA gives a new carrier. *)
Definition new_carrier : attrs := mkAttrs 0 "" "".

Definition n_carriers : gmap string attrs :=
  {[ "solar" := mkAttrs 0 "Solar" "#f9d002" ]}.

Definition costs_co2 : gmap string Q :=
  {[ "CCGT" := 198 # 1000; "coal" := 336 # 1000; "solar" := 0 ]}.

Definition carriers : list string := ["CCGT"; "solar-hsat"; "coal"].

End CarriersExamples.

(** * Transmission projects *)

Module Projects.

(** A frame by label, a row by column; a cell is [None] where the value
    is missing. *)
Abbreviation row value := (gmap string (option value)) (only parsing).
Abbreviation frame value := (gmap string (gmap string (option value)))
  (only parsing).

Section Frames.

Variable value : Type.

(** [DataFrame.update(other)] on one row: a column of the row takes the
    other row's value where that one is not missing. *)
Definition update_row (self other : row value) : row value :=
  merge (fun cell new =>
           match cell with
           | Some c => Some (match new with
                             | Some (Some v) => Some v
                             | _ => c
                             end)
           | None => None
           end) self other.

(** [DataFrame.update(other)]: in place, on the labels [self] has. *)
Definition update (self other : frame value) : frame value :=
  merge (fun r r' =>
           match r with
           | Some r => Some (match r' with
                             | Some r' => update_row r r'
                             | None => r
                             end)
           | None => None
           end) self other.

(** [df.empty]: no label or no column. *)
Definition empty (df : frame value) : bool :=
  bool_decide (map_Forall (fun _ (r : row value) => r = ∅) df).

Record network := mkNetwork {
  buses : frame value;
  lines : frame value;
  links : frame value
}.

(** [n.madd(cls, df.index, **df)] on the table of the class. *)
Variable madd : string -> frame value -> frame value -> frame value.

(** The truth value of a string. *)
Definition truthy (s : string) : bool := negb (String.eqb s "").

(** One turn of the loop of [add_transmission_projects], for the file of
    name [name] read as [df]. *)
Definition add_project (n : network) (file : string * frame value)
  : network :=
  let '(name, df) := file in
  if empty df then n
  else if Load.str_contains "new_buses" name then
    mkNetwork (madd "Bus" (buses n) df) (lines n) (links n)
  else if Load.str_contains "new_lines" name then
    mkNetwork (buses n) (madd "Line" (lines n) df) (links n)
  else if Load.str_contains "new_links" name then
    mkNetwork (buses n) (lines n) (madd "Link" (links n) df)
  else if truthy "adjust_lines" then
    mkNetwork (buses n) (update (lines n) df) (links n)
  else if truthy "adjust_links" then
    mkNetwork (buses n) (lines n) (update (links n) df)
  else n.

Definition add_transmission_projects (n : network)
    (transmission_projects : list (string * frame value)) : network :=
  fold_left add_project transmission_projects n.

End Frames.

Arguments mkNetwork {value}.
Arguments buses {value}.
Arguments lines {value}.
Arguments links {value}.
Arguments update_row {value}.
Arguments update {value}.
Arguments empty {value}.
Arguments add_project {value}.
Arguments add_transmission_projects {value}.

End Projects.

Module ProjectsExamples.

Import Projects.

Definition network0 : network Q :=
  mkNetwork ∅
            {[ "L1" := {[ "s_nom" := Some 1000 ]} ]}
            {[ "K1" := {[ "p_nom" := Some 1000 ]} ]}.

(** A file that asks for a larger link. *)
Definition adjust_links : string * frame Q :=
  ("transmission_projects/tyndp/adjust_links.csv",
   {[ "K1" := {[ "p_nom" := Some 2000 ]} ]}).

(** New components are appended: names the table has keep their row. *)
Definition append (cls : string) (table df : frame Q) : frame Q :=
  table ∪ df.

End ProjectsExamples.

(** * Wind and solar generators *)

Module WindSolar.

Import Carriers.

(** The columns of [costs] the function reads. *)
Record cost_row := mkCost {
  capital_cost : Q;
  marginal_cost : Q;
  efficiency : Q;
  lifetime : Q
}.

(** The variables of a profile dataset at one bus. *)
Record site := mkSite {
  bus : string;
  p_nom_max : Q;
  weight : Q;
  average_distance : Q;
  underwater_fraction : Q;
  profile : list Q
}.

Record generator := mkGenerator {
  name : string;
  gen_bus : string;
  carrier : string;
  p_nom_extendable : bool;
  gen_p_nom_max : Q;
  gen_weight : Q;
  gen_marginal_cost : Q;
  gen_capital_cost : Q;
  gen_efficiency : Q;
  p_max_pu : list Q;
  gen_lifetime : Q
}.

Section Attach.

Variable costs : gmap string cost_row.
Variable extendable_carriers : list string.
Variable line_length_factor : Q.

(** [costs.at[label, "capital_cost"]]; [None] is the [KeyError]. *)
Definition at_capital_cost (label : string) : option Q :=
  match costs !! label with
  | Some r => Some (capital_cost r)
  | None => None
  end.

(** [connection_cost] at one bus. *)
Definition connection_cost (submarine underground : Q) (s : site) : Q :=
  line_length_factor * average_distance s
  * (underwater_fraction s * submarine
     + (1 - underwater_fraction s) * underground).

(** [capital_cost] at one bus. *)
Definition site_capital_cost (car : string) (s : site) : option Q :=
  let supcar := first_component car in
  if String.eqb supcar "offwind" then
    match at_capital_cost (String.append car "-connection-submarine"),
          at_capital_cost (String.append car "-connection-underground"),
          at_capital_cost "offwind",
          at_capital_cost (String.append car "-station") with
    | Some submarine, Some underground, Some offwind, Some station =>
        Some (offwind + station + connection_cost submarine underground s)
    | _, _, _, _ => None
    end
  else at_capital_cost car.

(** The generators [n.madd("Generator", ...)] adds for the buses of one
    profile. *)
Fixpoint new_generators (car : string) (sup : cost_row) (sites : list site)
  : option (list generator) :=
  match sites with
  | [] => Some []
  | s :: rest =>
      match site_capital_cost car s, new_generators car sup rest with
      | Some c, Some gens =>
          Some (mkGenerator (String.append (bus s) (String.append " " car))
                            (bus s) car
                            (existsb (String.eqb car) extendable_carriers)
                            (p_nom_max s) (weight s)
                            (marginal_cost sup) c (efficiency sup)
                            (profile s) (lifetime sup)
                :: gens)
      | _, _ => None
      end
  end.

(** One turn of the loop over [carriers]. *)
Definition attach_carrier (car : string) (sites : list site)
  : option (list generator) :=
  if String.eqb car "hydro" then Some []
  else match sites with
       | [] => Some []
       | _ :: _ =>
           match costs !! first_component car with
           | Some sup => new_generators car sup sites
           | None => None
           end
       end.

(** The loop of [attach_wind_and_solar] over the carriers with their
    profiles, on [n.generators]. *)
Fixpoint attach_profiles (profiles : list (string * list site))
    (generators : list generator) : option (list generator) :=
  match profiles with
  | [] => Some generators
  | (car, sites) :: rest =>
      match attach_carrier car sites with
      | Some gens => attach_profiles rest (generators ++ gens)
      | None => None
      end
  end.

End Attach.

End WindSolar.

Module WindSolarExamples.

Import WindSolar.

Definition costs : gmap string cost_row :=
  {[ "offwind" := mkCost 100000 (2 # 100) 1 30;
     "offwind-ac-station" := mkCost 25000 0 1 30;
     "offwind-ac-connection-submarine" := mkCost 300 0 1 30;
     "offwind-ac-connection-underground" := mkCost 100 0 1 30 ]}.

Definition sites : list site :=
  [ mkSite "ES0 1" 500 1 40 (3 # 4) [1 # 2; 1 # 4];
    mkSite "ES0 2" 200 1 10 0 [1 # 3; 0] ].

End WindSolarExamples.

(** * Properties *)

(** ** Facts about the numerics *)

Section NumericFacts.

Lemma Qgtb_true (a b : Q) : Qgtb a b = true <-> b < a.
Proof.
  unfold Qgtb. rewrite negb_true_iff.
  split; intro H.
  - apply Qnot_le_lt. intro Hle. apply Qle_bool_iff in Hle. congruence.
  - destruct (Qle_bool a b) eqn:E; [|reflexivity].
    apply Qle_bool_iff in E. apply Qle_not_lt in E. contradiction.
Qed.

Lemma Qgtb_false (a b : Q) : Qgtb a b = false <-> a <= b.
Proof.
  unfold Qgtb. rewrite negb_false_iff. apply Qle_bool_iff.
Qed.

(** Truncation is monotone. *)
Lemma py_int_mono (a b : Q) : a <= b -> (py_int a <= py_int b)%Z.
Proof.
  destruct a as [n1 d1], b as [n2 d2]. unfold Qle, py_int. simpl. intro H.
  rewrite <- (Z.quot_mul_cancel_r n1 (Zpos d1) (Zpos d2)) by lia.
  rewrite <- (Z.quot_mul_cancel_r n2 (Zpos d2) (Zpos d1)) by lia.
  rewrite (Z.mul_comm (Zpos d2) (Zpos d1)).
  apply Z.quot_le_mono; lia.
Qed.

(** A float is less than one away from its truncation. *)
Lemma py_int_close (x : Q) :
  inject_Z (py_int x) - 1 < x /\ x < inject_Z (py_int x) + 1.
Proof.
  destruct x as [n d]. unfold py_int, Qlt, Qminus, Qplus, Qopp, inject_Z.
  simpl.
  pose proof (Z.quot_rem' n (Zpos d)) as E.
  assert (Hr : (Z.abs (Z.rem n (Zpos d)) < Zpos d)%Z).
  { pose proof (Z.rem_bound_abs n (Zpos d)). lia. }
  split; nia.
Qed.

Lemma Qsum_app (l1 l2 : list Q) : Qsum (l1 ++ l2) == Qsum l1 + Qsum l2.
Proof.
  induction l1 as [|x l1 IH]; simpl.
  - ring.
  - rewrite IH. ring.
Qed.

Lemma Qsum_map_scale {A} (f : A -> Q) (c : Q) (l : list A) :
  Qsum (List.map (fun a => f a * c) l) == Qsum (List.map f l) * c.
Proof.
  induction l as [|x l IH]; simpl.
  - ring.
  - rewrite IH. ring.
Qed.

Lemma Qsum_map_div {A} (f : A -> Q) (c : Q) (l : list A) :
  Qsum (List.map (fun a => f a / c) l) == Qsum (List.map f l) / c.
Proof.
  unfold Qdiv. apply Qsum_map_scale.
Qed.

Lemma Qsum_map_add {A} (f : A -> Q) (c : Q) (l : list A) :
  Qsum (List.map (fun a => f a + c) l)
  == Qsum (List.map f l) + inject_Z (Z.of_nat (List.length l)) * c.
Proof.
  induction l as [|x l IH].
  - simpl. ring.
  - cbn [List.map Qsum fold_right List.length]. fold (Qsum (List.map (fun a => f a + c) l)).
    fold (Qsum (List.map f l)).
    rewrite IH, Nat2Z.inj_succ. unfold Z.succ. rewrite inject_Z_plus. ring.
Qed.

Lemma Qsum_nonneg (l : list Q) : Forall (fun x => 0 <= x) l -> 0 <= Qsum l.
Proof.
  induction 1 as [|x l Hx _ IH]; simpl.
  - apply Qle_refl.
  - lra.
Qed.

(** The entries of a normalised series sum to one. *)
Lemma Qsum_normed (s : list Q) : ~ Qsum s == 0 -> Qsum (normed s) == 1.
Proof.
  intro H. unfold normed.
  rewrite (Qsum_map_div (fun x => x) (Qsum s) s), map_id.
  field. exact H.
Qed.

End NumericFacts.

(** ** Facts about the capacity-update rule *)

Section UpdateRuleFacts.

Import Reconciler.

Lemma total_add_each (c : Q) (df : frame) :
  total_p_nom (add_each c df) == total_p_nom df + nrows df * c.
Proof.
  unfold total_p_nom, add_each, nrows. rewrite List.map_map. simpl.
  apply (Qsum_map_add p_nom).
Qed.

Lemma total_scale_each (f : Q) (df : frame) :
  total_p_nom (scale_each f df) == total_p_nom df * f.
Proof.
  unfold total_p_nom, scale_each. rewrite List.map_map. simpl.
  apply (Qsum_map_scale p_nom).
Qed.

(** The rule, branch by branch.  [cur] is the current total. *)

Lemma update_additional (df : frame) (r : Q) :
  (py_int (total_p_nom df) < py_int r)%Z ->
  _update_in_network df r "additional"
  = (add_each ((r - total_p_nom df) / nrows df) df, []).
Proof.
  intro H. unfold _update_in_network.
  apply Z.ltb_lt in H as H1. rewrite H1.
  assert (H2 : (py_int r <? py_int (total_p_nom df))%Z = false)
    by (apply Z.ltb_ge; lia).
  rewrite H2. reflexivity.
Qed.

Lemma update_proportional (df : frame) (r : Q) :
  (py_int (total_p_nom df) < py_int r)%Z ->
  0 < total_p_nom df ->
  _update_in_network df r "proportional"
  = (scale_each (r / total_p_nom df) df, []).
Proof.
  intros H Hpos. unfold _update_in_network.
  apply Z.ltb_lt in H as H1. rewrite H1.
  assert (H2 : (py_int r <? py_int (total_p_nom df))%Z = false)
    by (apply Z.ltb_ge; lia).
  rewrite H2.
  assert (H3 : Qgtb (total_p_nom df) 0 = true) by (apply Qgtb_true; exact Hpos).
  assert (H4 : Qeq_bool (total_p_nom df) 0 = false).
  { destruct (Qeq_bool (total_p_nom df) 0) eqn:E; [|reflexivity].
    apply Qeq_bool_eq in E. rewrite E in Hpos. inversion Hpos. }
  rewrite H3, H4. reflexivity.
Qed.

Lemma update_fallback (df : frame) (r : Q) :
  (py_int (total_p_nom df) < py_int r)%Z ->
  total_p_nom df == 0 ->
  _update_in_network df r "proportional"
  = (add_each ((r - total_p_nom df) / nrows df) df, [WarnNoInitialCapacity]).
Proof.
  intros H Hz. unfold _update_in_network.
  apply Z.ltb_lt in H as H1. rewrite H1.
  assert (H2 : (py_int r <? py_int (total_p_nom df))%Z = false)
    by (apply Z.ltb_ge; lia).
  rewrite H2.
  assert (H3 : Qgtb (total_p_nom df) 0 = false).
  { apply Qgtb_false. rewrite Hz. apply Qle_refl. }
  assert (H4 : Qeq_bool (total_p_nom df) 0 = true)
    by (apply Qeq_bool_iff; exact Hz).
  rewrite H3, H4. reflexivity.
Qed.

Lemma update_reduce (df : frame) (r : Q) (m : string) :
  (py_int r < py_int (total_p_nom df))%Z ->
  _update_in_network df r m = (scale_each (r / total_p_nom df) df, []).
Proof.
  intro H. unfold _update_in_network.
  assert (H1 : (py_int (total_p_nom df) <? py_int r)%Z = false)
    by (apply Z.ltb_ge; lia).
  apply Z.ltb_lt in H as H2. rewrite H1, H2. reflexivity.
Qed.

Lemma update_noop (df : frame) (r : Q) (m : string) :
  py_int r = py_int (total_p_nom df) ->
  _update_in_network df r m = (df, []).
Proof.
  intro H. unfold _update_in_network. rewrite H, Z.ltb_irrefl. reflexivity.
Qed.

(** Under "proportional", a negative current total leaves the frame as it
    is: neither of the two guarded branches applies. *)
Lemma update_proportional_negative (df : frame) (r : Q) :
  (py_int (total_p_nom df) < py_int r)%Z ->
  total_p_nom df < 0 ->
  _update_in_network df r "proportional" = (df, []).
Proof.
  intros H Hneg. unfold _update_in_network.
  apply Z.ltb_lt in H as H1. rewrite H1.
  assert (H2 : (py_int r <? py_int (total_p_nom df))%Z = false)
    by (apply Z.ltb_ge; lia).
  rewrite H2.
  assert (H3 : Qgtb (total_p_nom df) 0 = false).
  { apply Qgtb_false. apply Qlt_le_weak. exact Hneg. }
  assert (H4 : Qeq_bool (total_p_nom df) 0 = false).
  { destruct (Qeq_bool (total_p_nom df) 0) eqn:E; [|reflexivity].
    apply Qeq_bool_eq in E. rewrite E in Hneg. inversion Hneg. }
  rewrite H3, H4. reflexivity.
Qed.

(** Whatever the branch, the rule keeps the rows, their labels and their
    upper bounds. *)
Lemma add_each_labels c df :
  List.map name (add_each c df) = List.map name df
  /\ List.map p_nom_max (add_each c df) = List.map p_nom_max df.
Proof. unfold add_each. rewrite !List.map_map. split; reflexivity. Qed.

Lemma scale_each_labels f df :
  List.map name (scale_each f df) = List.map name df
  /\ List.map p_nom_max (scale_each f df) = List.map p_nom_max df.
Proof. unfold scale_each. rewrite !List.map_map. split; reflexivity. Qed.

Lemma update_labels (df : frame) (r : Q) (m : string) :
  List.map name (fst (_update_in_network df r m)) = List.map name df
  /\ List.map p_nom_max (fst (_update_in_network df r m))
     = List.map p_nom_max df.
Proof.
  unfold _update_in_network.
  destruct (py_int (total_p_nom df) <? py_int r)%Z;
    destruct (py_int r <? py_int (total_p_nom df))%Z;
    destruct (String.eqb m "additional");
    destruct (String.eqb m "proportional");
    destruct (Qgtb (total_p_nom df) 0);
    destruct (Qeq_bool (total_p_nom df) 0); cbn -[add_each scale_each];
    repeat first [ rewrite (proj1 (add_each_labels _ _))
                 | rewrite (proj2 (add_each_labels _ _))
                 | rewrite (proj1 (scale_each_labels _ _))
                 | rewrite (proj2 (scale_each_labels _ _)) ];
    split; reflexivity.
Qed.

Lemma update_length (df : frame) (r : Q) (m : string) :
  List.length (fst (_update_in_network df r m)) = List.length df.
Proof.
  rewrite <- (List.length_map name), (proj1 (update_labels df r m)).
  apply List.length_map.
Qed.

End UpdateRuleFacts.

(** ** Facts about the overflow-repair loop *)

Section RepairLoopFacts.

Import Reconciler.

Lemma drop_shrinks (label : string) (df df' : frame) :
  drop label df = Some df' -> (List.length df' < List.length df)%nat.
Proof.
  unfold drop, at_label.
  destruct (List.find _ df) as [g|] eqn:E; [|discriminate].
  intro H. injection H as <-.
  apply List.find_some in E as [Hin Hg].
  induction df as [|x df IH]; [destruct Hin|].
  simpl. destruct Hin as [->|Hin].
  - rewrite Hg. simpl.
    pose proof (List.filter_length_le
                  (fun g0 => negb (String.eqb (name g0) label)) df). lia.
  - specialize (IH Hin).
    destruct (negb (String.eqb (name x) label)); simpl; lia.
Qed.

(** The adjustable frame loses a row at every iteration, so the loop cannot
    make more iterations than there are rows in it. *)
Lemma repair_loop_terminates (fuel : nat) (orig : frame) (m : string) :
  forall (df_updated df_to_sanitise : frame) (log : list event),
    (List.length df_to_sanitise < fuel)%nat ->
    repair_loop fuel orig m df_updated df_to_sanitise log <> OutOfFuel.
Proof.
  induction fuel as [|fuel IH]; intros U T log Hlen; [lia|].
  simpl. destruct (any_over U); [|discriminate].
  destruct (index_conflictive orig U) as [label|]; [|discriminate].
  destruct (at_label U label) as [g|]; [|discriminate].
  destruct (drop label T) as [T1|] eqn:ED; [|discriminate].
  destruct (_update_in_network T1 _ m) as [T2 w] eqn:EU.
  apply IH.
  apply drop_shrinks in ED.
  pose proof (update_length T1 (total_p_nom T1 + (p_nom g - p_nom_max g)) m) as L.
  rewrite EU in L. simpl in L. lia.
Qed.

(** When no candidate starts above its upper bound, the selection of the
    conflictive row is empty. *)
Lemma index_conflictive_none (orig df_updated : frame) :
  Forall (fun g => p_nom g <= p_nom_max g) orig ->
  List.map p_nom_max df_updated = List.map p_nom_max orig ->
  index_conflictive orig df_updated = None.
Proof.
  intro H. revert df_updated.
  induction H as [|g0 orig Hg0 _ IH]; intros [|g U] HU; try reflexivity.
  simpl in HU. injection HU as Hg HU.
  simpl. rewrite Hg.
  assert (E : Qgtb (p_nom g0) (p_nom_max g0) = false)
    by (apply Qgtb_false; exact Hg0).
  rewrite E. apply IH. exact HU.
Qed.

(** So, for candidates that start within their bounds, a reconciliation
    ends in one of three ways: the up-front check aborts the run, the first
    update is kept as it is, or the first pass of the loop raises. *)
Lemma reconcile_within_bounds (df : frame) (r : Q) (m : string) :
  Forall (fun g => p_nom g <= p_nom_max g) df ->
  reconcile df r m
  = let '(df_updated, log) := _update_in_network df r m in
    if Qgtb (total_p_nom df_updated) (total_p_nom_max df_updated) then SysExit
    else if any_over df_updated then IndexError
    else Done df_updated log.
Proof.
  intro H. unfold reconcile, reconcile_fuel.
  pose proof (update_labels df r m) as [_ Hmax].
  destruct (_update_in_network df r m) as [U log]. simpl in Hmax.
  destruct (Qgtb (total_p_nom U) (total_p_nom_max U)); [reflexivity|].
  simpl. destruct (any_over U); [|reflexivity].
  rewrite (index_conflictive_none df U H Hmax). reflexivity.
Qed.


(** The fuel of [reconcile] is enough. *)
Lemma reconcile_terminates (df : frame) (r : Q) (m : string) :
  reconcile df r m <> OutOfFuel.
Proof.
  unfold reconcile, reconcile_fuel.
  pose proof (update_length df r m) as L.
  destruct (_update_in_network df r m) as [U log]. simpl in L.
  destruct (Qgtb (total_p_nom U) (total_p_nom_max U)); [discriminate|].
  apply repair_loop_terminates. lia.
Qed.

End RepairLoopFacts.

(** ** The reconciler and the reported target *)

Section ReconcilerFacts.

Import Reconciler.

Lemma Forall2_map_same {A} (R : A -> A -> Prop) (f : A -> A) (l : list A) :
  Forall (fun a => R a (f a)) l -> Forall2 R l (List.map f l).
Proof.
  induction 1; simpl; constructor; assumption.
Qed.

Lemma Forall2_same {A} (R : A -> A -> Prop) (l : list A) :
  Forall (fun a => R a a) l -> Forall2 R l l.
Proof.
  induction 1; constructor; assumption.
Qed.

Lemma py_int_0 : py_int 0 = 0%Z.
Proof. reflexivity. Qed.

(** A total that truncates to at least one is positive. *)
Lemma py_int_pos (x : Q) : (0 < py_int x)%Z -> 0 < x.
Proof.
  intro H. destruct (py_int_close x) as [Hl _].
  assert (1 <= inject_Z (py_int x)).
  { change 1 with (inject_Z 1). rewrite <- Zle_Qle. lia. }
  lra.
Qed.

Lemma nrows_pos (df : frame) : df <> [] -> 0 < nrows df.
Proof.
  intro H. unfold nrows. change 0 with (inject_Z 0). rewrite <- Zlt_Qlt.
  destruct df; [contradiction|]. simpl List.length. lia.
Qed.

Lemma total_nonneg (df : frame) :
  Forall (fun g => 0 <= p_nom g) df -> 0 <= total_p_nom df.
Proof.
  intro H. unfold total_p_nom. apply Qsum_nonneg.
  induction H; simpl; constructor; assumption.
Qed.

(** Whenever the rule takes one of its branches, the new total is the
    target. *)
Lemma update_total_hits_target (df : frame) (r : Q) (m : string) :
  df <> [] ->
  Forall (fun g => 0 <= p_nom g) df ->
  0 <= r ->
  m = "additional" \/ m = "proportional" ->
  py_int r <> py_int (total_p_nom df) ->
  total_p_nom (fst (_update_in_network df r m)) == r.
Proof.
  intros Hne Hnn Hr Hm Hint.
  pose proof (nrows_pos df Hne) as HN.
  pose proof (total_nonneg df Hnn) as Hcur.
  destruct (Z.lt_total (py_int r) (py_int (total_p_nom df))) as [Hlt|[He|Hgt]];
    [|contradiction|].
  - rewrite (update_reduce df r m Hlt). simpl.
    rewrite total_scale_each.
    assert (0 < total_p_nom df).
    { apply py_int_pos. pose proof (py_int_mono 0 r Hr) as H0.
      rewrite py_int_0 in H0. lia. }
    field. lra.
  - destruct Hm as [-> | ->].
    + rewrite (update_additional df r Hgt). simpl.
      rewrite total_add_each. field. lra.
    + destruct (Qlt_le_dec 0 (total_p_nom df)) as [Hpos|Hle].
      * rewrite (update_proportional df r Hgt Hpos). simpl.
        rewrite total_scale_each. field. lra.
      * assert (Hz : total_p_nom df == 0) by lra.
        rewrite (update_fallback df r Hgt Hz). simpl.
        rewrite total_add_each. field. lra.
Qed.

Lemma update_unknown_method (df : frame) (r : Q) (m : string) :
  m <> "additional" -> m <> "proportional" ->
  _update_in_network df r m
  = if (py_int r <? py_int (total_p_nom df))%Z
    then (scale_each (r / total_p_nom df) df, []) else (df, []).
Proof.
  intros H1 H2. unfold _update_in_network.
  apply String.eqb_neq in H1, H2. rewrite H1, H2. simpl.
  destruct (py_int (total_p_nom df) <? py_int r)%Z;
    destruct (py_int r <? py_int (total_p_nom df))%Z; reflexivity.
Qed.

(** A target above the current total never lowers a nonnegative
    capacity. *)
Lemma update_increase (df : frame) (r : Q) (m : string) :
  Forall (fun g => 0 <= p_nom g) df ->
  total_p_nom df < r ->
  Forall2 (fun g g' => p_nom g <= p_nom g') df
          (fst (_update_in_network df r m)).
Proof.
  intros Hnn Hlt.
  pose proof (total_nonneg df Hnn) as Hcur.
  assert (Hrefl : Forall2 (fun g g' => p_nom g <= p_nom g') df df).
  { apply Forall2_same. apply List.Forall_forall. intros. apply Qle_refl. }
  assert (Hadd : Forall2 (fun g g' => p_nom g <= p_nom g') df
                   (add_each ((r - total_p_nom df) / nrows df) df)).
  { destruct df as [|g0 df0]; [constructor|].
    pose proof (nrows_pos (g0 :: df0) ltac:(discriminate)) as HN.
    apply Forall2_map_same. apply List.Forall_forall. intros g _. simpl.
    assert (0 <= (r - total_p_nom (g0 :: df0)) / nrows (g0 :: df0)).
    { apply Qle_shift_div_l; lra. }
    lra. }
  destruct (Z.lt_total (py_int r) (py_int (total_p_nom df))) as [Hl|[He|Hg]].
  - pose proof (py_int_mono _ _ (Qlt_le_weak _ _ Hlt)). lia.
  - rewrite (update_noop df r m He). exact Hrefl.
  - destruct (String.eqb_spec m "additional") as [->|Ha].
    + rewrite (update_additional df r Hg). exact Hadd.
    + destruct (String.eqb_spec m "proportional") as [->|Hp].
      * destruct (Qlt_le_dec 0 (total_p_nom df)) as [Hpos|Hle].
        -- rewrite (update_proportional df r Hg Hpos). simpl.
           apply Forall2_map_same. rewrite List.Forall_forall in Hnn.
           apply List.Forall_forall. intros g Hin. simpl.
           specialize (Hnn g Hin). simpl in Hnn.
           assert (1 <= r / total_p_nom df).
           { apply Qle_shift_div_l; lra. }
           nra.
        -- assert (Hz : total_p_nom df == 0) by lra.
           rewrite (update_fallback df r Hg Hz). exact Hadd.
      * rewrite (update_unknown_method df r m Ha Hp).
        assert (E : (py_int r <? py_int (total_p_nom df))%Z = false)
          by (apply Z.ltb_ge; lia).
        rewrite E. exact Hrefl.
Qed.

(** A nonnegative target below the current total never raises a
    nonnegative capacity. *)
Lemma update_decrease (df : frame) (r : Q) (m : string) :
  Forall (fun g => 0 <= p_nom g) df ->
  0 <= r ->
  r < total_p_nom df ->
  Forall2 (fun g g' => p_nom g' <= p_nom g) df
          (fst (_update_in_network df r m)).
Proof.
  intros Hnn Hr Hlt.
  destruct (Z.lt_total (py_int r) (py_int (total_p_nom df))) as [Hl|[He|Hg]].
  - rewrite (update_reduce df r m Hl). simpl.
    apply Forall2_map_same. rewrite List.Forall_forall in Hnn.
    apply List.Forall_forall. intros g Hin. simpl.
    specialize (Hnn g Hin). simpl in Hnn.
    assert (r / total_p_nom df <= 1).
    { apply Qle_shift_div_r; lra. }
    assert (0 <= r / total_p_nom df).
    { apply Qle_shift_div_l; lra. }
    nra.
  - rewrite (update_noop df r m He).
    apply Forall2_same. apply List.Forall_forall. intros. apply Qle_refl.
  - pose proof (py_int_mono _ _ (Qlt_le_weak _ _ Hlt)). lia.
Qed.

End ReconcilerFacts.

(** ** Properties of the regional capacity reconciler *)

Section ReconcilerClaims.

Import Reconciler Examples.

(** C1.  The spec's own scenario: three solar generators with bounds 50, 20
    and 15 and a target of 61 under "proportional".  The target is below
    the combined bound of 85 and every generator starts within its bound,
    yet the reconciliation does not reach a repaired frame: the first update
    puts 61/3 on each bus, the loop is entered, and the selection of the
    conflictive row (which reads [p_nom] from the frame as selected, not
    from [df_updated]) is empty, so [.index[0]] raises [IndexError]. *)
Theorem repair_raises_on_spec_scenario :
  61 < total_p_nom_max spec_solar
  /\ Forall (fun g => p_nom g <= p_nom_max g) spec_solar
  /\ any_over (fst (_update_in_network spec_solar 61 "proportional")) = true
  /\ reconcile spec_solar 61 "proportional" = IndexError.
Proof.
  split; [reflexivity|]. split.
  - repeat constructor; discriminate.
  - split; vm_compute; reflexivity.
Qed.

(** C2 as stated fails: with 10 MW installed and a target of 10.5 MW under
    "additional", the target exceeds the current total, and the generator
    keeps its 10 MW instead of gaining 0.5 MW. *)
Lemma update_rule_ignores_fractional_gap :
  total_p_nom one_bus < 21 # 2
  /\ List.map p_nom (fst (_update_in_network one_bus (21 # 2) "additional"))
     = [10]
  /\ ~ 10 == 10 + ((21 # 2) - total_p_nom one_bus) / nrows one_bus.
Proof.
  split; [reflexivity|]. split; [reflexivity|].
  vm_compute. discriminate.
Qed.

(** C2, amended.  The rule compares the truncations [int(required)] and
    [int(current)]: when the first is larger, "additional" adds
    [(required - current)/N] to each of the N candidates, "proportional"
    scales every candidate by [required/current] if the current total is
    positive and acts as "additional", with a warning, if it is zero; when
    the first is smaller every candidate is scaled by [required/current]
    (the current total not being zero); when the two truncations are equal
    nothing changes. *)
Theorem update_rule (df : frame) (r : Q) :
  ((py_int (total_p_nom df) < py_int r)%Z ->
     _update_in_network df r "additional"
     = (add_each ((r - total_p_nom df) / nrows df) df, []))
  /\ ((py_int (total_p_nom df) < py_int r)%Z -> 0 < total_p_nom df ->
     _update_in_network df r "proportional"
     = (scale_each (r / total_p_nom df) df, []))
  /\ ((py_int (total_p_nom df) < py_int r)%Z -> total_p_nom df == 0 ->
     _update_in_network df r "proportional"
     = (add_each ((r - total_p_nom df) / nrows df) df,
        [WarnNoInitialCapacity]))
  /\ (forall m, (py_int r < py_int (total_p_nom df))%Z ->
     ~ total_p_nom df == 0 ->
     _update_in_network df r m = (scale_each (r / total_p_nom df) df, []))
  /\ (forall m, py_int r = py_int (total_p_nom df) ->
     _update_in_network df r m = (df, [])).
Proof.
  repeat split.
  - apply update_additional.
  - apply update_proportional.
  - apply update_fallback.
  - intros m H _. apply update_reduce. exact H.
  - intro m. apply update_noop.
Qed.

Lemma update_rule_witness :
  _update_in_network spec_solar 60 "additional"
  = (add_each ((60 - total_p_nom spec_solar) / nrows spec_solar) spec_solar, [])
  /\ _update_in_network spec_solar 60 "proportional"
     = (scale_each (60 / total_p_nom spec_solar) spec_solar, [])
  /\ _update_in_network [mkGenerator "bus1 solar" 0 50] 7 "proportional"
     = (add_each ((7 - 0) / 1) [mkGenerator "bus1 solar" 0 50],
        [WarnNoInitialCapacity])
  /\ _update_in_network spec_solar 15 "additional"
     = (scale_each (15 / total_p_nom spec_solar) spec_solar, [])
  /\ _update_in_network spec_solar (61 # 2) "proportional" = (spec_solar, []).
Proof.
  split; [|split; [|split; [|split]]].
  - apply (proj1 (update_rule spec_solar 60)). vm_compute. reflexivity.
  - apply (proj1 (proj2 (update_rule spec_solar 60))); reflexivity.
  - apply (proj1 (proj2 (proj2
             (update_rule [mkGenerator "bus1 solar" 0 50] 7)))); reflexivity.
  - apply (proj1 (proj2 (proj2 (proj2 (update_rule spec_solar 15))))).
    + reflexivity.
    + discriminate.
  - apply (proj2 (proj2 (proj2 (proj2 (update_rule spec_solar (61 # 2)))))).
    reflexivity.
Defined.




(** C6 as stated fails: a generator that starts above its upper bound is
    clamped to the bound although the target (30) exceeds the initial total
    (20): it goes from 10 down to 5. *)
Lemma clamp_lowers_capacity_despite_higher_target :
  total_p_nom over_bound_start < 30
  /\ exists df' log,
       reconcile over_bound_start 30 "additional" = Done df' log
       /\ Forall2 Qeq (List.map p_nom df') [5; 25]
       /\ ~ Forall2 (fun g g' => p_nom g <= p_nom g') over_bound_start df'.
Proof.
  split; [reflexivity|].
  eexists. eexists. split; [vm_compute; reflexivity|].
  split; [repeat constructor; reflexivity|].
  intro H. inversion H as [|g g' l l' Hle _]; subst.
  vm_compute in Hle. apply Hle. reflexivity.
Qed.

(** C6, amended.  For candidates whose capacities start nonnegative and
    within their upper bounds, a reconciliation aborts the run, raises in
    the loop, or completes; when it completes, a target above the initial
    total leaves no capacity below its initial value, and a nonnegative
    target below the initial total leaves none above it. *)
Theorem reconcile_monotone (df : frame) (r : Q) (m : string) :
  Forall (fun g => 0 <= p_nom g /\ p_nom g <= p_nom_max g) df ->
  reconcile df r m = SysExit
  \/ reconcile df r m = IndexError
  \/ exists df' log,
       reconcile df r m = Done df' log
       /\ (total_p_nom df < r ->
           Forall2 (fun g g' => p_nom g <= p_nom g') df df')
       /\ (0 <= r -> r < total_p_nom df ->
           Forall2 (fun g g' => p_nom g' <= p_nom g) df df').
Proof.
  intro H.
  assert (Hnn : Forall (fun g => 0 <= p_nom g) df).
  { eapply List.Forall_impl; [|exact H]. intros g [Hg _]. exact Hg. }
  assert (Hin : Forall (fun g => p_nom g <= p_nom_max g) df).
  { eapply List.Forall_impl; [|exact H]. intros g [_ Hg]. exact Hg. }
  rewrite (reconcile_within_bounds df r m Hin).
  pose proof (update_increase df r m Hnn) as Hup.
  pose proof (update_decrease df r m Hnn) as Hdown.
  destruct (_update_in_network df r m) as [U log]. simpl in Hup, Hdown.
  destruct (Qgtb (total_p_nom U) (total_p_nom_max U)); [left; reflexivity|].
  destruct (any_over U); [right; left; reflexivity|].
  right; right. exists U, log. repeat split; assumption.
Qed.

Lemma reconcile_monotone_witness :
  exists df' log,
    reconcile spec_solar 45 "proportional" = Done df' log
    /\ Forall2 (fun g g' => p_nom g <= p_nom g') spec_solar df'.
Proof.
  destruct (reconcile_monotone spec_solar 45 "proportional")
    as [H|[H|(df' & log & H & Hup & _)]].
  - repeat constructor; discriminate.
  - vm_compute in H. discriminate.
  - vm_compute in H. discriminate.
  - exists df', log. split; [exact H|]. apply Hup. reflexivity.
Defined.

(** C10.  The rule compares the target and the current total after
    truncation to integers: when [int(required)] equals [int(current)] the
    real values are less than 2 apart and the returned frame is the input,
    every [p_nom] unchanged. *)
Theorem update_skipped_on_equal_truncations
    (df : frame) (r : Q) (m : string) :
  py_int r = py_int (total_p_nom df) ->
  Qabs (r - total_p_nom df) < 2
  /\ fst (_update_in_network df r m) = df
  /\ List.map p_nom (fst (_update_in_network df r m)) = List.map p_nom df.
Proof.
  intro H. rewrite (update_noop df r m H).
  split; [|split; reflexivity].
  destruct (py_int_close r) as [Hr1 Hr2].
  destruct (py_int_close (total_p_nom df)) as [Hc1 Hc2].
  rewrite H in Hr1, Hr2.
  apply Qabs_Qlt_condition. split; lra.
Qed.

Lemma update_skipped_on_equal_truncations_witness :
  Qabs ((109 # 10) - total_p_nom one_bus) < 2
  /\ fst (_update_in_network one_bus (109 # 10) "proportional") = one_bus
  /\ List.map p_nom (fst (_update_in_network one_bus (109 # 10) "proportional"))
     = List.map p_nom one_bus.
Proof.
  apply (update_skipped_on_equal_truncations one_bus (109 # 10) "proportional").
  reflexivity.
Defined.

End ReconcilerClaims.

(** ** Facts about the transfer builder *)

Section TransferFacts.

Import Transfer.

Context {G : Geometry} (L : GeometryLaws G).

Lemma area_intersection_le_l (a b : Shape G) :
  area (intersection a b) <= area a.
Proof.
  rewrite (inter_comm G L a b). apply (area_intersection_le G L).
Qed.

Lemma area_union_le (a b : Shape G) :
  area (shape_union a b) <= area a + area b.
Proof.
  pose proof (area_modular G L a b).
  pose proof (area_nonneg G L (intersection a b)). lra.
Qed.

(** What two shapes share inside a third is no more than what they
    share. *)
Lemma area_common_part_le (s u d : Shape G) :
  area (intersection (intersection s d) (intersection u d))
  <= area (intersection s u).
Proof.
  rewrite (inter_assoc G L (intersection s d) u d).
  eapply Qle_trans; [apply area_intersection_le_l|].
  rewrite (inter_comm G L s d).
  rewrite <- (inter_assoc G L d s u).
  apply (area_intersection_le G L).
Qed.

(** Shapes that do not overlap are covered, inside [d], by a shape whose
    part inside [d] is at least as large as theirs together, and which
    overlaps nothing that overlaps none of them. *)
Lemma overlap_cover (d : Shape G) (l : list (Shape G)) :
  forall s : Shape G,
    non_overlapping (s :: l) ->
    exists u : Shape G,
      Qsum (List.map (fun x => area (intersection x d)) (s :: l))
      <= area (intersection u d)
      /\ forall t : Shape G,
           area (intersection t s) == 0 ->
           Forall (fun x => area (intersection t x) == 0) l ->
           area (intersection t u) == 0.
Proof.
  induction l as [|s' l IH]; intros s [Hs Hl].
  - exists s. split.
    + simpl. lra.
    + intros t Ht _. exact Ht.
  - destruct (IH s' Hl) as (u' & Hsum & Hfree).
    exists (shape_union s u'). split.
    + change (area (intersection s d)
              + Qsum (List.map (fun x => area (intersection x d)) (s' :: l))
              <= area (intersection (shape_union s u') d)).
      rewrite (inter_union_distr G L s u' d).
      pose proof (area_modular G L (intersection s d) (intersection u' d)) as M.
      pose proof (area_common_part_le s u' d) as C.
      pose proof (area_nonneg G L
                    (intersection (intersection s d) (intersection u' d))) as N.
      assert (Z0 : area (intersection s u') == 0).
      { inversion Hs as [|? ? Hs' Hrest]; subst. apply Hfree; assumption. }
      lra.
    + intros t Ht Hall.
      inversion Hall as [|? ? Ht' Hrest]; subst.
      rewrite (inter_comm G L t (shape_union s u')).
      rewrite (inter_union_distr G L s u' t).
      pose proof (area_union_le (intersection s t) (intersection u' t)) as U.
      pose proof (area_nonneg G L
                    (shape_union (intersection s t) (intersection u' t))) as N.
      rewrite (inter_comm G L s t) in U.
      rewrite (inter_comm G L u' t) in U.
      rewrite (inter_comm G L s t), (inter_comm G L u' t) in N.
      rewrite (inter_comm G L s t), (inter_comm G L u' t).
      specialize (Hfree t Ht' Hrest).
      lra.
Qed.

Lemma overlap_sum_le (d : Shape G) (l : list (Shape G)) :
  non_overlapping l ->
  Qsum (List.map (fun x => area (intersection x d)) l) <= area d.
Proof.
  destruct l as [|s l]; intro H.
  - simpl. apply (area_nonneg G L).
  - destruct (overlap_cover d l s H) as (u & Hsum & _).
    eapply Qle_trans; [exact Hsum|]. apply (area_intersection_le G L).
Qed.

(** What a returned entry is: the share of the target that the source
    covers, or the zero of a pair that does not intersect; and a returned
    entry of a pair that intersects has a target of positive area. *)
Lemma entry_returns (s d : Shape G) (x : Q) :
  entry s d = Some x ->
  x = (if intersects s d then area (intersection s d) / area d else 0)
  /\ (intersects s d = true -> 0 < area d).
Proof.
  unfold entry. destruct (intersects s d).
  - destruct (Qeq_bool (area d) 0) eqn:E; [discriminate|].
    intro H. injection H as <-. split; [reflexivity|]. intros _.
    apply Qeq_bool_neq in E. pose proof (area_nonneg G L d) as Hnn.
    destruct (Qlt_le_dec 0 (area d)) as [Hlt|Hle]; [exact Hlt|].
    exfalso. apply E. lra.
  - intro H. injection H as <-. split; [reflexivity|discriminate].
Qed.

(** The division raises exactly for a target without area that the source
    intersects. *)
Lemma entry_raises (s d : Shape G) :
  entry s d = None <-> intersects s d = true /\ area d == 0.
Proof.
  unfold entry. destruct (intersects s d).
  - destruct (Qeq_bool (area d) 0) eqn:E.
    + apply Qeq_bool_iff in E.
      split; [intros _; split; [reflexivity|exact E]|reflexivity].
    + apply Qeq_bool_neq in E.
      split; [discriminate|]. intros [_ H]. contradiction.
  - split; [discriminate|]. intros [H _]. discriminate.
Qed.

Lemma entry_bounds (s d : Shape G) (x : Q) :
  entry s d = Some x -> 0 <= x /\ x <= 1.
Proof.
  intro H. destruct (entry_returns s d x H) as [-> Hpos].
  destruct (intersects s d).
  - specialize (Hpos eq_refl).
    pose proof (area_nonneg G L (intersection s d)).
    pose proof (area_intersection_le G L s d).
    split.
    + apply Qle_shift_div_l; lra.
    + apply Qle_shift_div_r; lra.
  - split; lra.
Qed.

Lemma entry_le_share (s d : Shape G) (x : Q) :
  entry s d = Some x -> x * area d <= area (intersection s d).
Proof.
  intro H. destruct (entry_returns s d x H) as [-> Hpos].
  destruct (intersects s d).
  - specialize (Hpos eq_refl).
    assert (E : area (intersection s d) / area d * area d
                == area (intersection s d)) by (field; lra).
    rewrite E. apply Qle_refl.
  - pose proof (area_nonneg G L (intersection s d)). lra.
Qed.

Lemma Qsum_le_pointwise {A} (f g : A -> Q) (l : list A) :
  (forall a, In a l -> f a <= g a) ->
  Qsum (List.map f l) <= Qsum (List.map g l).
Proof.
  induction l as [|x l IH]; intro H; simpl.
  - apply Qle_refl.
  - assert (f x <= g x) by (apply H; left; reflexivity).
    assert (Qsum (List.map f l) <= Qsum (List.map g l)).
    { apply IH. intros a Ha. apply H. right. exact Ha. }
    lra.
Qed.

(** The entries of a returned row, weighted by the area of the target,
    are no more than what the sources cover of it. *)
Lemma row_covers (orig : list (Shape G)) (d : Shape G) (row : list Q) :
  Forall2 (fun s x => entry s d = Some x) orig row ->
  Qsum row * area d
  <= Qsum (List.map (fun s => area (intersection s d)) orig).
Proof.
  induction 1 as [|s x orig row Hx _ IH]; simpl.
  - lra.
  - pose proof (entry_le_share s d x Hx). lra.
Qed.

(** With a target without area a returned row holds zeros only. *)
Lemma row_without_area (orig : list (Shape G)) (d : Shape G)
    (row : list Q) :
  area d == 0 ->
  Forall2 (fun s x => entry s d = Some x) orig row ->
  Qsum row == 0.
Proof.
  intro Hd. induction 1 as [|s x orig row Hx _ IH]; simpl.
  - reflexivity.
  - destruct (entry_returns s d x Hx) as [-> Hpos].
    destruct (intersects s d).
    + specialize (Hpos eq_refl). lra.
    + rewrite IH. lra.
Qed.

Lemma row_sum_le_1 (orig : list (Shape G)) (d : Shape G) (row : list Q) :
  non_overlapping orig ->
  Forall2 (fun s x => entry s d = Some x) orig row ->
  Qsum row <= 1.
Proof.
  intros Hno Hrow.
  pose proof (area_nonneg G L d) as Hnn.
  destruct (Qlt_le_dec 0 (area d)) as [Hd|Hd].
  - apply (Qmult_le_r _ _ (area d) Hd).
    pose proof (row_covers orig d row Hrow).
    pose proof (overlap_sum_le d orig Hno). lra.
  - rewrite (row_without_area orig d row); [lra| |exact Hrow]. lra.
Qed.

End TransferFacts.

Section TransferShape.

Import Transfer.

Context {G : Geometry}.

Lemma Forall2_nth_error {A B} (R : A -> B -> Prop) (l : list A)
    (k : list B) :
  Forall2 R l k ->
  forall i a, List.nth_error l i = Some a ->
              exists b, List.nth_error k i = Some b /\ R a b.
Proof.
  induction 1 as [|x y l k Hxy _ IH]; intros [|i] a Ha; simpl in *;
    try discriminate.
  - injection Ha as <-. exists y. split; [reflexivity|exact Hxy].
  - apply IH. exact Ha.
Qed.

Lemma Forall2_in_r {A B} (R : A -> B -> Prop) (l : list A) (k : list B) :
  Forall2 R l k -> forall b, In b k -> exists a, In a l /\ R a b.
Proof.
  induction 1 as [|x y l k Hxy _ IH]; intros b Hb; [destruct Hb|].
  destruct Hb as [<-|Hb].
  - exists x. split; [left; reflexivity|exact Hxy].
  - destruct (IH b Hb) as (a & Ha & Hab).
    exists a. split; [right; exact Ha|exact Hab].
Qed.

(** A returned matrix has one row for every target, with one returned
    entry for every source. *)
Lemma shapes_to_shapes_returns (orig dest : list (Shape G))
    (transfer : list (list Q)) :
  shapes_to_shapes orig dest = Some transfer
  <-> Forall2 (fun d row => Forall2 (fun s x => entry s d = Some x) orig row)
              dest transfer.
Proof.
  unfold shapes_to_shapes. rewrite mapM_Some.
  split; intro H; (eapply List.Forall2_impl; [|exact H]);
    intros d row; apply mapM_Some.
Qed.

Lemma shapes_to_shapes_raises (orig dest : list (Shape G)) :
  shapes_to_shapes orig dest = None
  <-> exists s d, In s orig /\ In d dest /\ entry s d = None.
Proof.
  unfold shapes_to_shapes. rewrite mapM_None, List.Exists_exists.
  split.
  - intros (d & Hd & Hrow).
    apply mapM_None, List.Exists_exists in Hrow as (s & Hs & Hsd).
    exists s, d. repeat split; assumption.
  - intros (s & d & Hs & Hd & Hsd).
    exists d. split; [exact Hd|].
    apply mapM_None, List.Exists_exists. exists s. split; assumption.
Qed.

Lemma shapes_to_shapes_at (orig dest : list (Shape G))
    (transfer : list (list Q)) (i j : nat) (s d : Shape G) :
  shapes_to_shapes orig dest = Some transfer ->
  List.nth_error dest i = Some d ->
  List.nth_error orig j = Some s ->
  entry s d = Some (at_ij transfer i j).
Proof.
  intros H Hd Hs. apply shapes_to_shapes_returns in H.
  destruct (Forall2_nth_error _ _ _ H i d Hd) as (row & Hrow & Hall).
  destruct (Forall2_nth_error _ _ _ Hall j s Hs) as (x & Hx & Hsd).
  unfold at_ij.
  rewrite (List.nth_error_nth _ _ _ Hrow), (List.nth_error_nth _ _ _ Hx).
  exact Hsd.
Qed.

End TransferShape.

(** The raster geometry satisfies the laws of area. *)
Lemma raster_laws : GeometryLaws raster.
Proof.
  constructor; simpl.
  - intro a. change 0 with (inject_Z 0). rewrite <- Zle_Qle. lia.
  - intros a b. rewrite <- !inject_Z_plus. apply inject_Z_injective.
    pose proof (size_union_alt a b) as U.
    pose proof (size_difference_alt b a) as D.
    pose proof (subseteq_size _ _ (intersection_subseteq_l b a)) as S.
    assert (I : a ∩ b = b ∩ a) by apply intersection_comm_L.
    rewrite I. lia.
  - intros a b. rewrite <- Zle_Qle.
    pose proof (subseteq_size _ _ (intersection_subseteq_r a b)) as S.
    lia.
  - intros a b. apply intersection_comm_L.
  - intros a b c. apply intersection_assoc_L.
  - intros a b c. apply intersection_union_r_L.
Qed.

(** So does the geometry with points. *)
Lemma raster_points_laws : GeometryLaws raster_points.
Proof.
  constructor.
  - intros [a pa]. exact (area_nonneg raster raster_laws a).
  - intros [a pa] [b pb]. exact (area_modular raster raster_laws a b).
  - intros [a pa] [b pb]. exact (area_intersection_le raster raster_laws a b).
  - intros [a pa] [b pb]. simpl. f_equal; apply intersection_comm_L.
  - intros [a pa] [b pb] [c pc]. simpl. f_equal; apply intersection_assoc_L.
  - intros [a pa] [b pb] [c pc]. simpl.
    f_equal; apply intersection_union_r_L.
Qed.

(** ** Properties of the transfer builder *)

Section TransferClaims.

Import Transfer Examples.

(** C4 as stated fails twice.  A target without area that a source
    intersects, here a region against a point of its border, makes the
    division raise, so that no matrix is returned.  And when the source
    polygons overlap one another, the shares of a target polygon add up to
    more than 1: twice the same source square against that square as
    target gives the row (1, 1). *)
Lemma zero_area_target_and_overlapping_sources :
  (intersects square_with_corner corner = true
   /\ area corner == 0
   /\ shapes_to_shapes [square_with_corner] [corner] = None)
  /\ ((forall d, In d [unit_square] -> 0 < area d)
      /\ shapes_to_shapes [unit_square; unit_square] [unit_square]
         = Some [[1; 1]]
      /\ 1 < Qsum [1; 1]).
Proof.
  split; [split; [|split]|split; [|split]].
  - vm_compute. reflexivity.
  - vm_compute. reflexivity.
  - vm_compute. reflexivity.
  - intros d [<-|[]]. reflexivity.
  - vm_compute. reflexivity.
  - reflexivity.
Qed.

(** C4, amended.  For source polygons S (length n) and target polygons D
    (length m), [shapes_to_shapes] raises [ZeroDivisionError] exactly when
    a target polygon without area intersects a source polygon, so that it
    returns whenever every target polygon has a positive area.  When it
    returns, the result has m rows of n entries; entry (i,j) is nonzero
    only if S[j] intersects D[i], and then equals
    intersection-area(S[j], D[i]) / area(D[i]); every entry lies in [0,1];
    and if no two source polygons overlap on a positive area, every row
    sums to at most 1. *)
Theorem transfer_matrix_contract {G : Geometry} (L : GeometryLaws G)
    (orig dest : list (Shape G)) :
  (shapes_to_shapes orig dest = None
   <-> exists s d, In s orig /\ In d dest
                   /\ intersects s d = true /\ area d == 0)
  /\ ((forall d, In d dest -> 0 < area d) ->
      exists transfer, shapes_to_shapes orig dest = Some transfer)
  /\ (forall transfer,
        shapes_to_shapes orig dest = Some transfer ->
        List.length transfer = List.length dest
        /\ Forall (fun row => List.length row = List.length orig) transfer
        /\ (forall i j s d,
              List.nth_error dest i = Some d ->
              List.nth_error orig j = Some s ->
              (~ at_ij transfer i j == 0 -> intersects s d = true)
              /\ (intersects s d = true ->
                  at_ij transfer i j = area (intersection s d) / area d))
        /\ (forall row x, In row transfer -> In x row -> 0 <= x /\ x <= 1)
        /\ (non_overlapping orig ->
            forall row, In row transfer -> Qsum row <= 1)).
Proof.
  assert (Hnone : shapes_to_shapes orig dest = None
                  <-> exists s d, In s orig /\ In d dest
                                  /\ intersects s d = true /\ area d == 0).
  { rewrite shapes_to_shapes_raises. split.
    - intros (s & d & Hs & Hd & Hsd). apply entry_raises in Hsd.
      exists s, d. repeat split; tauto.
    - intros (s & d & Hs & Hd & Hi & Ha).
      exists s, d. repeat split; try assumption.
      apply entry_raises. split; assumption. }
  split; [exact Hnone|]. split.
  - intro Hpos.
    destruct (shapes_to_shapes orig dest) as [transfer|] eqn:E;
      [exists transfer; reflexivity|].
    exfalso. destruct (proj1 Hnone eq_refl) as (s & d & _ & Hd & _ & Ha).
    specialize (Hpos d Hd). lra.
  - intros transfer E.
    pose proof (proj1 (shapes_to_shapes_returns orig dest transfer) E) as H.
    split; [symmetry; apply (List.Forall2_length H)|].
    split; [|split; [|split]].
    + apply List.Forall_forall. intros row Hrow.
      destruct (Forall2_in_r _ _ _ H row Hrow) as (d & _ & Hd).
      symmetry. apply (List.Forall2_length Hd).
    + intros i j s d Hd Hs.
      pose proof (shapes_to_shapes_at orig dest transfer i j s d E Hd Hs)
        as Hx.
      destruct (entry_returns L s d _ Hx) as [Hval _].
      split.
      * destruct (intersects s d); [reflexivity|].
        intro Hnz. exfalso. apply Hnz. rewrite Hval. reflexivity.
      * intro Hi. rewrite Hi in Hval. exact Hval.
    + intros row x Hrow Hx.
      destruct (Forall2_in_r _ _ _ H row Hrow) as (d & _ & Hd).
      destruct (Forall2_in_r _ _ _ Hd x Hx) as (s & _ & Hsd).
      apply (entry_bounds L s d x Hsd).
    + intros Hno row Hrow.
      destruct (Forall2_in_r _ _ _ H row Hrow) as (d & _ & Hd).
      apply (row_sum_le_1 L orig d row Hno Hd).
Qed.

Lemma transfer_matrix_contract_witness :
  exists transfer,
    shapes_to_shapes [west; east] [inland; coast] = Some transfer
    /\ (forall row x, In row transfer -> In x row -> 0 <= x /\ x <= 1)
    /\ (forall row, In row transfer -> Qsum row <= 1)
    /\ at_ij transfer 1 1 = area (intersection east coast) / area coast.
Proof.
  pose proof (transfer_matrix_contract raster_laws [west; east] [inland; coast])
    as (_ & Hreturns & Hmatrix).
  assert (Hpos : forall d : Shape raster, In d [inland; coast] -> 0 < area d).
  { intros d [<-|[<-|[]]]; reflexivity. }
  destruct (Hreturns Hpos) as [transfer E].
  destruct (Hmatrix transfer E) as (_ & _ & Hentry & Hunit & Hrows).
  exists transfer. split; [exact E|]. split; [exact Hunit|]. split.
  - apply Hrows. simpl. split; [|split; [constructor|exact I]].
    constructor; [vm_compute; reflexivity|constructor].
  - apply (Hentry 1%nat 1%nat east coast); reflexivity.
Defined.

End TransferClaims.

(** ** Facts about the load disaggregator *)

Section LoadFacts.

Import Load.

Lemma Qmult_1_r_eq (x : Q) : x * 1 = x.
Proof.
  destruct x as [n d]. unfold Qmult. simpl.
  rewrite Z.mul_1_r, Pos.mul_1_r. reflexivity.
Qed.

Lemma length_normed (s : list Q) : List.length (normed s) = List.length s.
Proof. unfold normed. apply List.length_map. Qed.

Lemma length_transposed_dot (n : nat) (M : list (list Q)) (v : list Q) :
  List.length (Transfer.transposed_dot n M v) = n.
Proof.
  unfold Transfer.transposed_dot. rewrite List.length_map. apply List.length_seq.
Qed.

Lemma Qsum_weighted_sum (a b : Q) (x : list Q) :
  forall y : list Q,
    List.length x = List.length y ->
    Qsum (weighted_sum a x b y) == a * Qsum x + b * Qsum y.
Proof.
  induction x as [|u x IH]; intros [|v y] H; try discriminate.
  - simpl. ring.
  - injection H as H. unfold weighted_sum in *. simpl.
    rewrite (IH y H). ring.
Qed.

(** The factors sum to one as soon as neither the GDP nor the population
    figures sum to zero and the two weights sum to one. *)
Lemma combine_factors_sum (w_gdp w_pop : Q) (g p : list Q) :
  List.length g = List.length p ->
  ~ Qsum g == 0 -> ~ Qsum p == 0 ->
  w_gdp + w_pop == 1 ->
  Qsum (combine_factors w_gdp w_pop g p) == 1.
Proof.
  intros Hlen Hg Hp Hw. unfold combine_factors.
  assert (E : Qsum (weighted_sum w_gdp (normed g) w_pop (normed p)) == 1).
  { rewrite Qsum_weighted_sum by (rewrite !length_normed; exact Hlen).
    rewrite (Qsum_normed g Hg), (Qsum_normed p Hp). lra. }
  apply Qsum_normed. rewrite E. discriminate.
Qed.

(** A row of [factors * load] sums to the load when the factors sum to
    one. *)
Lemma outer_row (load factors : list Q) (t : nat) (l : Q) :
  List.nth_error load t = Some l ->
  List.nth_error (outer load factors) t
  = Some (List.map (fun f => f * l) factors).
Proof.
  intro H. unfold outer. rewrite List.nth_error_map, H. reflexivity.
Qed.

Lemma outer_row_sum (factors : list Q) (l : Q) :
  Qsum factors == 1 ->
  Qsum (List.map (fun f => f * l) factors) == l.
Proof.
  intro H. rewrite (Qsum_map_scale (fun f => f) l factors), List.map_id, H.
  ring.
Qed.

Lemma column_scale_table (scaling : Q) (name : string)
    (cols : list (string * list Q)) :
  column name (List.map (fun '(c, s) =>
                           (c, List.map (fun x => x * scaling) s)) cols)
  = option_map (List.map (fun x => x * scaling)) (column name cols).
Proof.
  induction cols as [|[c s] cols IH]; simpl.
  - reflexivity.
  - destruct (String.eqb c name); [reflexivity|exact IH].
Qed.

Section Closure.

Context {G : Geometry}.
Variable update_gdp_pop : bool.
Variable substation_lv_i : list string.
Variable opsd_load : load_table.
Variable nuts3 : list (nuts3_row (G := G)).

Lemma gdp_pop_return_together (group : bus_group (G := G))
    (rows : list (nuts3_row (G := G))) :
  gdp_n group rows = None <-> pop_n group rows = None.
Proof.
  unfold gdp_n, pop_n.
  destruct (Transfer.shapes_to_shapes _ _); split; intro H;
    try discriminate; reflexivity.
Qed.

(** With targets of positive area the figures of the group are
    computed. *)
Lemma gdp_pop_return (group : bus_group (G := G))
    (rows : list (nuts3_row (G := G))) :
  (forall r, In r rows -> 0 < area (nuts3_geometry r)) ->
  exists g p, gdp_n group rows = Some g /\ pop_n group rows = Some p.
Proof.
  intro Hpos. unfold gdp_n, pop_n.
  destruct (Transfer.shapes_to_shapes (List.map snd group)
              (List.map nuts3_geometry rows)) as [transfer|] eqn:E.
  - eexists. eexists. split; reflexivity.
  - exfalso. apply shapes_to_shapes_raises in E as (s & d & _ & Hd & Hsd).
    apply entry_raises in Hsd as [_ Ha].
    apply List.in_map_iff in Hd as (r & <- & Hr).
    specialize (Hpos r Hr). lra.
Qed.

Lemma length_gdp_n (group : bus_group (G := G))
    (rows : list (nuts3_row (G := G))) (g : list Q) :
  gdp_n group rows = Some g -> List.length g = List.length group.
Proof.
  unfold gdp_n. destruct (Transfer.shapes_to_shapes _ _); [|discriminate].
  intro H. injection H as <-. apply length_transposed_dot.
Qed.

Lemma length_pop_n (group : bus_group (G := G))
    (rows : list (nuts3_row (G := G))) (p : list Q) :
  pop_n group rows = Some p -> List.length p = List.length group.
Proof.
  unfold pop_n. destruct (Transfer.shapes_to_shapes _ _); [|discriminate].
  intro H. injection H as <-. apply length_transposed_dot.
Qed.

Lemma length_gdp_pop (group : bus_group (G := G))
    (rows : list (nuts3_row (G := G))) (g p : list Q) :
  gdp_n group rows = Some g -> pop_n group rows = Some p ->
  List.length g = List.length p.
Proof.
  intros Hg Hp.
  rewrite (length_gdp_n group rows g Hg), (length_pop_n group rows p Hp).
  reflexivity.
Qed.

(** The factors of a group outside UA and MD. *)
Lemma national_factors_nuts3 (cntry : string) (group : bus_group (G := G))
    (tbl : list bus_stats) (g p : list Q) :
  cntry <> "UA" -> cntry <> "MD" ->
  let rows :=
    List.filter (fun r => String.eqb (nuts3_country r) cntry) nuts3 in
  gdp_n group rows = Some g -> pop_n group rows = Some p ->
  national_factors update_gdp_pop substation_lv_i nuts3 cntry group tbl
  = Some (List.map fst group,
          if update_gdp_pop && String.eqb cntry "ES"
          then combine_factors (18 # 100) (82 # 100) g p
          else combine_factors (6 # 10) (4 # 10) g p).
Proof.
  intros H1 H2 rows Hg Hp. unfold national_factors. fold rows.
  rewrite Hg, Hp.
  apply String.eqb_neq in H1, H2. rewrite H1, H2. reflexivity.
Qed.

(** The factors of a group of UA or MD. *)
Lemma national_factors_table (cntry : string) (group : bus_group (G := G))
    (tbl : list bus_stats) (g p : list Q) :
  cntry = "UA" \/ cntry = "MD" ->
  let nuts3_cntry :=
    List.filter (fun r => String.eqb (nuts3_country r) cntry) nuts3 in
  gdp_n group nuts3_cntry = Some g -> pop_n group nuts3_cntry = Some p ->
  national_factors update_gdp_pop substation_lv_i nuts3 cntry group tbl
  = let rows :=
      List.filter (fun r => String.eqb (stats_country r) cntry
                            && existsb (String.eqb (stats_bus r))
                                       substation_lv_i) tbl in
    Some (List.map stats_bus rows,
          combine_factors (6 # 10) (4 # 10)
                          (List.map stats_gdp rows) (List.map stats_pop rows)).
Proof.
  intros Hua nuts3_cntry Hg Hp. unfold national_factors. fold nuts3_cntry.
  rewrite Hg, Hp. destruct Hua as [-> | ->]; reflexivity.
Qed.

(** [upsample] on a group that is not a single bus. *)
Lemma upsample_multi (cntry : string) (group : bus_group (G := G))
    (tbl : list bus_stats) (load : list Q) :
  column cntry (series opsd_load) = Some load ->
  List.length group <> 1%nat ->
  upsample update_gdp_pop substation_lv_i opsd_load nuts3 cntry group tbl
  = match national_factors update_gdp_pop substation_lv_i nuts3
                           cntry group tbl with
    | Some (buses, factors) =>
        Some (mkDataFrame (snapshots opsd_load) buses (outer load factors))
    | None => None
    end.
Proof.
  intros Hc Hlen. unfold upsample. rewrite Hc.
  destruct group as [|[b s] [|x rest]]; try reflexivity.
  exfalso. apply Hlen. reflexivity.
Qed.

End Closure.

End LoadFacts.

(** ** Properties of the load disaggregator *)

Section LoadClaims.

Import Load Examples.

Lemma single_column_conserves (load : list Q) :
  Forall2 (fun l row => Qsum row == l) load (List.map (fun l => [l]) load).
Proof.
  induction load as [|l load IH]; simpl; constructor.
  - simpl. ring.
  - exact IH.
Qed.

Lemma outer_conserves (load factors : list Q) :
  Qsum factors == 1 ->
  Forall2 (fun l row => Qsum row == l) load (outer load factors).
Proof.
  intro H. induction load as [|l load IH]; simpl; constructor.
  - apply outer_row_sum. exact H.
  - exact IH.
Qed.

(** C3.  Whenever the GDP and population figures of a group are computed
    (no statistical region without area makes [shapes_to_shapes] raise)
    and do not sum to zero, its factors sum to 1 and every row of the
    disaggregated load (one row per snapshot, one entry per bus) sums to
    the value of the input series at that snapshot: in national mode for a
    single bus, for a group with NUTS3 statistics and for a group of UA or
    MD (whose figures come from the per-bus table), and in regional mode
    for every region code. *)
Theorem load_conservation {G : Geometry} (update_gdp_pop : bool)
    (substation_lv_i : list string) (opsd_load : load_table)
    (nuts3 : list (nuts3_row (G := G))) (cntry : string)
    (group : bus_group (G := G)) (tbl : list bus_stats) (load : list Q) :
  (forall bus shape,
     group = [(bus, shape)] ->
     column cntry (series opsd_load) = Some load ->
     exists df,
       upsample update_gdp_pop substation_lv_i opsd_load nuts3 cntry group tbl
       = Some df
       /\ columns df = [bus]
       /\ Forall2 (fun l row => Qsum row == l) load (values df))
  /\ (List.length group <> 1%nat ->
      cntry <> "UA" -> cntry <> "MD" ->
      column cntry (series opsd_load) = Some load ->
      let rows :=
        List.filter (fun r => String.eqb (nuts3_country r) cntry) nuts3 in
      forall g p,
        gdp_n group rows = Some g ->
        pop_n group rows = Some p ->
        ~ Qsum g == 0 ->
        ~ Qsum p == 0 ->
        exists factors,
          national_factors update_gdp_pop substation_lv_i nuts3
                           cntry group tbl
          = Some (List.map fst group, factors)
          /\ Qsum factors == 1
          /\ exists df,
               upsample update_gdp_pop substation_lv_i opsd_load nuts3
                        cntry group tbl = Some df
               /\ columns df = List.map fst group
               /\ Forall2 (fun l row => Qsum row == l) load (values df))
  /\ (List.length group <> 1%nat ->
      cntry = "UA" \/ cntry = "MD" ->
      column cntry (series opsd_load) = Some load ->
      let nuts3_cntry :=
        List.filter (fun r => String.eqb (nuts3_country r) cntry) nuts3 in
      let rows :=
        List.filter (fun r => String.eqb (stats_country r) cntry
                              && existsb (String.eqb (stats_bus r))
                                         substation_lv_i) tbl in
      forall g p,
        gdp_n group nuts3_cntry = Some g ->
        pop_n group nuts3_cntry = Some p ->
        ~ Qsum (List.map stats_gdp rows) == 0 ->
        ~ Qsum (List.map stats_pop rows) == 0 ->
        exists factors,
          national_factors update_gdp_pop substation_lv_i nuts3
                           cntry group tbl
          = Some (List.map stats_bus rows, factors)
          /\ Qsum factors == 1
          /\ exists df,
               upsample update_gdp_pop substation_lv_i opsd_load nuts3
                        cntry group tbl = Some df
               /\ columns df = List.map stats_bus rows
               /\ Forall2 (fun l row => Qsum row == l) load (values df))
  /\ (forall rr_ID,
      let rows :=
        List.filter (fun r => str_contains rr_ID (nuts3_index r)) nuts3 in
      forall g p,
        gdp_n group rows = Some g ->
        pop_n group rows = Some p ->
        ~ Qsum g == 0 ->
        ~ Qsum p == 0 ->
        exists factors,
          regional_factors update_gdp_pop nuts3 rr_ID group = Some factors
          /\ Qsum factors == 1
          /\ exists rr,
               return_rr update_gdp_pop nuts3 rr_ID load group = Some rr
               /\ Forall2 (fun l row => Qsum row == l) load rr).
Proof.
  split; [|split; [|split]].
  - intros bus shape -> Hc. unfold upsample. rewrite Hc.
    eexists. split; [reflexivity|]. split; [reflexivity|].
    apply single_column_conserves.
  - intros Hlen H1 H2 Hc rows g p Eg Ep Hg Hp.
    pose proof (national_factors_nuts3 update_gdp_pop substation_lv_i nuts3
                  cntry group tbl g p H1 H2 Eg Ep) as Hnf.
    eexists. split; [exact Hnf|].
    assert (S : Qsum (if update_gdp_pop && String.eqb cntry "ES"
                      then combine_factors (18 # 100) (82 # 100) g p
                      else combine_factors (6 # 10) (4 # 10) g p) == 1).
    { destruct (update_gdp_pop && String.eqb cntry "ES");
        (apply combine_factors_sum;
         [apply (length_gdp_pop group rows g p Eg Ep)
         | exact Hg | exact Hp | reflexivity]). }
    split; [exact S|].
    rewrite (upsample_multi _ _ _ _ _ _ _ _ Hc Hlen), Hnf.
    eexists. split; [reflexivity|]. split; [reflexivity|].
    simpl. apply outer_conserves. exact S.
  - intros Hlen Hua Hc nuts3_cntry rows g p Eg Ep Hg Hp.
    pose proof (national_factors_table update_gdp_pop substation_lv_i nuts3
                  cntry group tbl g p Hua Eg Ep) as Hnf.
    cbv zeta in Hnf. fold rows in Hnf.
    eexists. split; [exact Hnf|].
    assert (S : Qsum (combine_factors (6 # 10) (4 # 10)
                        (List.map stats_gdp rows) (List.map stats_pop rows))
                == 1).
    { apply combine_factors_sum;
        [rewrite !List.length_map; reflexivity
        | exact Hg | exact Hp | reflexivity]. }
    split; [exact S|].
    rewrite (upsample_multi _ _ _ _ _ _ _ _ Hc Hlen), Hnf.
    eexists. split; [reflexivity|]. split; [reflexivity|].
    simpl. apply outer_conserves. exact S.
  - intros rr_ID rows g p Eg Ep Hg Hp.
    assert (Hrf : regional_factors update_gdp_pop nuts3 rr_ID group
                  = Some (if update_gdp_pop
                          then combine_factors (18 # 100) (82 # 100) g p
                          else combine_factors (6 # 10) (4 # 10) g p)).
    { unfold regional_factors. fold rows. rewrite Eg, Ep. reflexivity. }
    eexists. split; [exact Hrf|].
    assert (S : Qsum (if update_gdp_pop
                      then combine_factors (18 # 100) (82 # 100) g p
                      else combine_factors (6 # 10) (4 # 10) g p) == 1).
    { destruct update_gdp_pop;
        (apply combine_factors_sum;
         [apply (length_gdp_pop group rows g p Eg Ep)
         | exact Hg | exact Hp | reflexivity]). }
    split; [exact S|].
    unfold return_rr. rewrite Hrf.
    eexists. split; [reflexivity|]. apply outer_conserves. exact S.
Qed.

Lemma load_conservation_witness :
  (exists factors,
     national_factors true ["ES0 0"; "ES0 1"] (two_regions "ES")
                      "ES" (two_buses "ES") ua_table
     = Some (["ES0 0"; "ES0 1"], factors)
     /\ Qsum factors == 1)
  /\ (exists factors,
        national_factors true ["UA0 0"; "UA0 1"] (two_regions "UA")
                         "UA" (two_buses "UA") ua_table
        = Some (["UA0 0"; "UA0 1"], factors)
        /\ Qsum factors == 1)
  /\ (exists factors rr,
        regional_factors true (two_regions "ES") "ES11" (two_buses "ES")
        = Some factors
        /\ Qsum factors == 1
        /\ return_rr true (two_regions "ES") "ES11" [60; 50] (two_buses "ES")
           = Some rr
        /\ Forall2 (fun l row => Qsum row == l) [60; 50] rr).
Proof.
  split; [|split].
  - pose (g := default [] (gdp_n (two_buses "ES") (two_regions "ES"))).
    pose (p := default [] (pop_n (two_buses "ES") (two_regions "ES"))).
    destruct (proj1 (proj2 (load_conservation true ["ES0 0"; "ES0 1"]
                              national_load (two_regions "ES") "ES"
                              (two_buses "ES") ua_table [100; 80]))
                    ltac:(discriminate) ltac:(discriminate)
                    ltac:(discriminate) eq_refl g p)
      as (factors & Hnf & Hsum & _);
      try (vm_compute; reflexivity); try (vm_compute; discriminate).
    exists factors. split; [exact Hnf|exact Hsum].
  - pose (g := default [] (gdp_n (two_buses "UA") (two_regions "UA"))).
    pose (p := default [] (pop_n (two_buses "UA") (two_regions "UA"))).
    destruct (proj1 (proj2 (proj2 (load_conservation true ["UA0 0"; "UA0 1"]
                              national_load (two_regions "UA") "UA"
                              (two_buses "UA") ua_table [50; 40])))
                    ltac:(discriminate) (or_introl eq_refl) eq_refl g p)
      as (factors & Hnf & Hsum & _);
      try (vm_compute; reflexivity); try (vm_compute; discriminate).
    exists factors. split; [exact Hnf|exact Hsum].
  - pose (g := default [] (gdp_n (two_buses "ES")
                             [Load.mkNuts3 "ES111" "ES" (Some 30) (Some 10)
                                           inland])).
    pose (p := default [] (pop_n (two_buses "ES")
                             [Load.mkNuts3 "ES111" "ES" (Some 30) (Some 10)
                                           inland])).
    destruct (proj2 (proj2 (proj2 (load_conservation true []
                              regional_load (two_regions "ES") "ES"
                              (two_buses "ES") [] [60; 50]))) "ES11" g p)
      as (factors & Hrf & Hsum & rr & Hrr & Hrows);
      try (vm_compute; reflexivity); try (vm_compute; discriminate).
    exists factors, rr. repeat split; assumption.
Defined.

(** C7 as stated fails: for a group of UA (or MD) the factors are not
    computed from [gdp_n] and [pop_n] but from the per-bus table; here the
    table gives (0.4, 0.6) where the formula on [gdp_n] and [pop_n] gives
    other values. *)
Lemma ua_factors_come_from_table :
  exists g p factors,
    gdp_n (two_buses "UA") (two_regions "UA") = Some g
    /\ pop_n (two_buses "UA") (two_regions "UA") = Some p
    /\ ~ Qsum g == 0
    /\ ~ Qsum p == 0
    /\ option_map snd (national_factors false ["UA0 0"; "UA0 1"]
                          (two_regions "UA") "UA" (two_buses "UA") ua_table)
       = Some factors
    /\ Forall2 Qeq factors [4 # 10; 6 # 10]
    /\ ~ Forall2 Qeq factors
          (normed (weighted_sum (6 # 10) (normed g) (4 # 10) (normed p))).
Proof.
  exists (default [] (gdp_n (two_buses "UA") (two_regions "UA"))),
         (default [] (pop_n (two_buses "UA") (two_regions "UA"))),
         (default [] (option_map snd
                        (national_factors false ["UA0 0"; "UA0 1"]
                           (two_regions "UA") "UA" (two_buses "UA")
                           ua_table))).
  split; [|split; [|split; [|split; [|split; [|split]]]]].
  - vm_compute. reflexivity.
  - vm_compute. reflexivity.
  - vm_compute. discriminate.
  - vm_compute. discriminate.
  - vm_compute. reflexivity.
  - vm_compute. repeat constructor.
  - vm_compute. intro H. inversion H as [|? ? ? ? E _]; subst.
    discriminate E.
Qed.

(** C7, amended.  The factors of a group are
    [normed(w_gdp * normed(gdp_n) + w_pop * normed(pop_n))] with weights
    (0.6, 0.4), and with (0.18, 0.82) exactly when [update_gdp_pop] is set
    and, in national mode, the country is ES (regional mode does not test
    the country); in national mode a group of UA or MD takes
    [normed(0.6 * normed(gdp) + 0.4 * normed(pop))] of the per-bus
    table instead.  There are no factors where [gdp_n] and [pop_n] are not
    computed, [shapes_to_shapes] having raised. *)
Theorem factor_formula {G : Geometry} (update_gdp_pop : bool)
    (substation_lv_i : list string) (nuts3 : list (nuts3_row (G := G)))
    (cntry rr_ID : string) (group : bus_group (G := G))
    (tbl : list bus_stats) :
  (cntry <> "UA" -> cntry <> "MD" ->
   let rows :=
     List.filter (fun r => String.eqb (nuts3_country r) cntry) nuts3 in
   option_map snd (national_factors update_gdp_pop substation_lv_i nuts3
                                    cntry group tbl)
   = match gdp_n group rows, pop_n group rows with
     | Some g, Some p =>
         Some (if update_gdp_pop && String.eqb cntry "ES"
               then normed (weighted_sum (18 # 100) (normed g)
                                         (82 # 100) (normed p))
               else normed (weighted_sum (6 # 10) (normed g)
                                         (4 # 10) (normed p)))
     | _, _ => None
     end)
  /\ (cntry = "UA" \/ cntry = "MD" ->
      let nuts3_cntry :=
        List.filter (fun r => String.eqb (nuts3_country r) cntry) nuts3 in
      let rows :=
        List.filter (fun r => String.eqb (stats_country r) cntry
                              && existsb (String.eqb (stats_bus r))
                                         substation_lv_i) tbl in
      option_map snd (national_factors update_gdp_pop substation_lv_i nuts3
                                       cntry group tbl)
      = match gdp_n group nuts3_cntry, pop_n group nuts3_cntry with
        | Some _, Some _ =>
            Some (normed (weighted_sum
                            (6 # 10) (normed (List.map stats_gdp rows))
                            (4 # 10) (normed (List.map stats_pop rows))))
        | _, _ => None
        end)
  /\ (let rows :=
        List.filter (fun r => str_contains rr_ID (nuts3_index r)) nuts3 in
      regional_factors update_gdp_pop nuts3 rr_ID group
      = match gdp_n group rows, pop_n group rows with
        | Some g, Some p =>
            Some (if update_gdp_pop
                  then normed (weighted_sum (18 # 100) (normed g)
                                            (82 # 100) (normed p))
                  else normed (weighted_sum (6 # 10) (normed g)
                                            (4 # 10) (normed p)))
        | _, _ => None
        end).
Proof.
  split; [|split].
  - intros H1 H2 rows. unfold national_factors. fold rows.
    destruct (gdp_n group rows) as [g|]; [|reflexivity].
    destruct (pop_n group rows) as [p|]; [|reflexivity].
    apply String.eqb_neq in H1, H2. rewrite H1, H2. simpl.
    destruct (update_gdp_pop && String.eqb cntry "ES"); reflexivity.
  - intros Hua nuts3_cntry rows. unfold national_factors.
    fold nuts3_cntry.
    destruct (gdp_n group nuts3_cntry) as [g|]; [|reflexivity].
    destruct (pop_n group nuts3_cntry) as [p|]; [|reflexivity].
    destruct Hua as [-> | ->]; reflexivity.
  - cbv zeta. unfold regional_factors.
    destruct (gdp_n group _) as [g|]; [|reflexivity].
    destruct (pop_n group _) as [p|]; [|reflexivity].
    destruct update_gdp_pop; reflexivity.
Qed.

Lemma factor_formula_witness :
  (exists g p,
     gdp_n (two_buses "ES") (two_regions "ES") = Some g
     /\ pop_n (two_buses "ES") (two_regions "ES") = Some p
     /\ option_map snd (national_factors true ["ES0 0"; "ES0 1"]
                           (two_regions "ES") "ES" (two_buses "ES") ua_table)
        = Some (normed (weighted_sum (18 # 100) (normed g)
                                     (82 # 100) (normed p))))
  /\ option_map snd (national_factors true ["UA0 0"; "UA0 1"]
                        (two_regions "UA") "UA" (two_buses "UA") ua_table)
     = Some (normed (weighted_sum (6 # 10) (normed [1; 1])
                                  (4 # 10) (normed [1; 3]))).
Proof.
  split.
  - pose proof (proj1 (factor_formula true ["ES0 0"; "ES0 1"]
                         (two_regions "ES") "ES" "ES11" (two_buses "ES")
                         ua_table) ltac:(discriminate) ltac:(discriminate))
      as H.
    cbv zeta in H.
    change (List.filter (fun r => String.eqb (nuts3_country r) "ES")
                        (two_regions "ES"))
      with (two_regions "ES") in H.
    destruct (gdp_n (two_buses "ES") (two_regions "ES")) as [g|] eqn:Eg;
      [|vm_compute in Eg; discriminate].
    destruct (pop_n (two_buses "ES") (two_regions "ES")) as [p|] eqn:Ep;
      [|vm_compute in Ep; discriminate].
    exists g, p. split; [reflexivity|]. split; [reflexivity|]. exact H.
  - apply (proj1 (proj2 (factor_formula true ["UA0 0"; "UA0 1"]
                           (two_regions "UA") "UA" "ES11"
                           (two_buses "UA") ua_table))).
    left. reflexivity.
Defined.

(** C9.  In national mode a country with exactly one bus gets the whole
    national series on that bus: a single column, equal to the input series
    times the scaling factor, hence to the input series itself when the
    factor is 1. *)
Theorem single_bus_takes_national_series {G : Geometry}
    (update_gdp_pop : bool) (substation_lv_i : list string)
    (groups : list (string * bus_group (G := G)))
    (load : load_table) (nuts3 : list (nuts3_row (G := G)))
    (tbl : list bus_stats) (countries : list string) (scaling : Q)
    (cntry bus : string) (shape : Shape G) (s : list Q) :
  column cntry (series (filter_items countries load)) = Some s ->
  upsample update_gdp_pop substation_lv_i
           (scale_table scaling (filter_items countries load)) nuts3
           cntry [(bus, shape)] tbl
  = Some (mkDataFrame (snapshots load) [bus]
                      (List.map (fun l => [l * scaling]) s))
  /\ (In (cntry, [(bus, shape)]) groups ->
      In (Some (mkDataFrame (snapshots load) [bus]
                            (List.map (fun l => [l]) s)))
         (attach_load update_gdp_pop substation_lv_i groups load nuts3 tbl
                      countries 1)).
Proof.
  intro Hc.
  assert (E : forall k,
    upsample update_gdp_pop substation_lv_i
             (scale_table k (filter_items countries load)) nuts3
             cntry [(bus, shape)] tbl
    = Some (mkDataFrame (snapshots load) [bus]
                        (List.map (fun l => [l * k]) s))).
  { intro k. unfold upsample.
    change (series (scale_table k (filter_items countries load)))
      with (List.map (fun '(c, s0) =>
                        (c, List.map (fun x => x * k) s0))
                     (series (filter_items countries load))).
    rewrite column_scale_table, Hc. simpl.
    rewrite List.map_map. reflexivity. }
  split; [apply E|].
  intro Hin. unfold attach_load.
  apply List.in_map_iff. exists (cntry, [(bus, shape)]).
  split; [|exact Hin].
  rewrite E. do 2 f_equal.
  apply List.map_ext. intro l. rewrite Qmult_1_r_eq. reflexivity.
Qed.

Lemma single_bus_takes_national_series_witness :
  In (Some (mkDataFrame ["2019-01-01 00:00"; "2019-01-01 01:00"]
                        ["ES0 0"] [[100]; [80]]))
     (attach_load (G := raster) true ["ES0 0"] [("ES", [("ES0 0", west)])]
                  national_load (two_regions "ES") ua_table ["ES"] 1).
Proof.
  apply (proj2 (single_bus_takes_national_series (G := raster) true ["ES0 0"]
                  [("ES", [("ES0 0", west)])] national_load
                  (two_regions "ES") ua_table ["ES"] 1
                  "ES" "ES0 0" west [100; 80] eq_refl)).
  left. reflexivity.
Defined.

Lemma Qsum_zip_add (a : list Q) :
  forall b : list Q,
    List.length a = List.length b ->
    Qsum (List.map (fun '(x, y) => x + y) (List.combine a b))
    == Qsum a + Qsum b.
Proof.
  induction a as [|x a IH]; intros [|y b] H; try discriminate.
  - simpl. ring.
  - injection H as H. simpl. rewrite (IH b H). ring.
Qed.

(** In regional mode the contributions of the region codes add up: every
    row of [return_total] sums to the sum of the regional series at that
    snapshot, as long as the figures of every region code are computed and
    do not sum to zero. *)
Lemma accumulate_conserves {G : Geometry} (update_gdp_pop : bool)
    (nuts3 : list (nuts3_row (G := G))) (group : bus_group (G := G))
    (cols : list (string * list Q)) :
  Forall (fun '(rr_ID, _) =>
            let rows :=
              List.filter (fun r => str_contains rr_ID (nuts3_index r)) nuts3 in
            exists g p,
              gdp_n group rows = Some g /\ pop_n group rows = Some p
              /\ ~ Qsum g == 0 /\ ~ Qsum p == 0)
         cols ->
  forall (totals : list Q) (return_total : list (list Q)),
    Forall2 (fun tot row => Qsum row == tot
                            /\ List.length row = List.length group)
            totals return_total ->
    exists total,
      accumulate update_gdp_pop nuts3 cols group return_total = Some total
      /\ Forall2 (fun tot row => Qsum row == tot
                                 /\ List.length row = List.length group)
                 (sum_series cols totals) total.
Proof.
  induction 1 as [|[rr_ID load] cols Hrr _ IH]; intros totals rt Hinv.
  - exists rt. split; [reflexivity|exact Hinv].
  - destruct Hrr as (g & p & Eg & Ep & Hg & Hp).
    assert (Hrf : regional_factors update_gdp_pop nuts3 rr_ID group
                  = Some (if update_gdp_pop
                          then combine_factors (18 # 100) (82 # 100) g p
                          else combine_factors (6 # 10) (4 # 10) g p)).
    { unfold regional_factors. rewrite Eg, Ep. reflexivity. }
    set (factors := if update_gdp_pop
                    then combine_factors (18 # 100) (82 # 100) g p
                    else combine_factors (6 # 10) (4 # 10) g p) in Hrf.
    assert (Hone : Qsum factors == 1).
    { unfold factors.
      destruct update_gdp_pop;
        (apply combine_factors_sum;
         [apply (length_gdp_pop group _ g p Eg Ep)
         | exact Hg | exact Hp | reflexivity]). }
    assert (Hlen : List.length factors = List.length group).
    { unfold factors, combine_factors, weighted_sum.
      destruct update_gdp_pop;
        rewrite length_normed, List.length_map, List.length_combine,
                !length_normed,
                (length_gdp_n group _ g Eg), (length_pop_n group _ p Ep);
        lia. }
    simpl. unfold return_rr. rewrite Hrf.
    apply IH. clear IH.
    unfold outer, add_values.
    revert load. induction Hinv as [|tot row totals rt [Hs Hl] _ IHinv];
      intros [|l load]; simpl; try constructor.
    + split.
      * rewrite Qsum_zip_add
          by (rewrite List.length_map, Hl, Hlen; reflexivity).
        rewrite Hs, (outer_row_sum _ l Hone). reflexivity.
      * rewrite List.length_map, List.length_combine, List.length_map,
                Hl, Hlen. lia.
    + apply IHinv.
Qed.

Lemma zero_frame_rows (n k : nat) :
  Forall2 (fun tot row => Qsum row == tot /\ List.length row = k)
          (List.repeat 0 n) (List.repeat (List.repeat 0 k) n).
Proof.
  induction n as [|n IH]; simpl; constructor; [|exact IH].
  split; [|apply List.repeat_length].
  clear IH. induction k as [|k IHk]; simpl; [reflexivity|]. rewrite IHk. ring.
Qed.

Lemma regional_total_conserved {G : Geometry} (update_gdp_pop : bool)
    (opsd_load : load_table) (nuts3 : list (nuts3_row (G := G)))
    (cntry : string) (group : bus_group (G := G)) :
  Forall (fun '(rr_ID, _) =>
            let rows :=
              List.filter (fun r => str_contains rr_ID (nuts3_index r)) nuts3 in
            exists g p,
              gdp_n group rows = Some g /\ pop_n group rows = Some p
              /\ ~ Qsum g == 0 /\ ~ Qsum p == 0)
         (series opsd_load) ->
  exists df,
    upsample_regional update_gdp_pop opsd_load nuts3 cntry group = Some df
    /\ Forall2 (fun tot row => Qsum row == tot)
               (sum_series (series opsd_load)
                           (List.repeat 0 (List.length (snapshots opsd_load))))
               (values df).
Proof.
  intro H. unfold upsample_regional. cbv zeta.
  destruct (accumulate_conserves update_gdp_pop nuts3 group _ H _ _
              (zero_frame_rows (List.length (snapshots opsd_load))
                               (List.length group)))
    as (total & -> & Hrows).
  eexists. split; [reflexivity|]. simpl values.
  eapply List.Forall2_impl; [|exact Hrows].
  intros tot row [Hs _]. exact Hs.
Qed.

End LoadClaims.

(** ** Properties of the reservoir storage duration *)

Section HydroClaims.

Import Hydro Examples.

Lemma clip0_not_negative (a : cell) :
  match clip0 a with
  | Fin q => 0 <= q
  | NegInf => False
  | NaN | PosInf => True
  end.
Proof.
  destruct a as [| | |x]; simpl; try exact I.
  - apply Qle_refl.
  - apply Q.le_max_l.
Qed.

(** Without a reported storage energy, a country has no estimate, with
    either estimator. *)
Lemma no_statistics_no_estimate (m : string) (hydro_stats : list stats_row)
    (hydro : list plant) (mhc : country_series) (c : string) :
  max_hours_country m hydro_stats hydro = Some mhc ->
  match lookup_stats c hydro_stats with
  | None => True
  | Some r => E_store r = None
  end ->
  mhc c = NaN.
Proof.
  unfold max_hours_country, max_hours_country_raw. intros Hm Hc.
  destruct (String.eqb m "energy_capacity_totals_by_country").
  - injection Hm as <-. unfold e_target.
    destruct (lookup_stats c hydro_stats) as [r|]; [rewrite Hc|]; reflexivity.
  - destruct (String.eqb m "estimate_by_large_installations");
      [|discriminate].
    injection Hm as <-.
    destruct (lookup_stats c hydro_stats) as [r|]; [rewrite Hc|]; reflexivity.
Qed.

Lemma missing_countries_spec (mhc : country_series) (hydro : list plant)
    (p : plant) :
  In p hydro -> mhc (country p) = NaN ->
  In (country p) (missing_countries mhc hydro).
Proof.
  intros Hin Hnan. unfold missing_countries.
  apply List.filter_In. split.
  - apply List.nodup_In. apply List.in_map. exact Hin.
  - rewrite Hnan. reflexivity.
Qed.

(** C8.  With either estimator, the country-level estimates are clipped
    below at zero before they are applied; a reservoir plant whose
    [max_hours] is missing or not positive takes the clipped estimate of
    its country, and 6 when there is none; when its country has no reported
    storage statistics there is none, so the plant gets 6 hours and the
    warning, naming the country, is emitted. *)
Theorem six_hours_without_statistics (m : string)
    (hydro_stats : list stats_row) (hydro : list plant) :
  m = "energy_capacity_totals_by_country"
  \/ m = "estimate_by_large_installations" ->
  exists raw mhs log,
    max_hours_country_raw m hydro_stats hydro = Some raw
    /\ reservoir_max_hours m hydro_stats hydro = Some (mhs, log)
    /\ mhs = List.map (plant_max_hours (fun c => clip0 (raw c))) hydro
    /\ (forall c, match clip0 (raw c) with
                  | Fin q => 0 <= q
                  | NegInf => False
                  | NaN | PosInf => True
                  end)
    /\ (forall p,
          In p hydro ->
          match max_hours p with None => True | Some h => h <= 0 end ->
          plant_max_hours (fun c => clip0 (raw c)) p
          = fillna 6 (clip0 (raw (country p))))
    /\ (forall p,
          In p hydro ->
          match max_hours p with None => True | Some h => h <= 0 end ->
          match lookup_stats (country p) hydro_stats with
          | None => True
          | Some r => E_store r = None
          end ->
          plant_max_hours (fun c => clip0 (raw c)) p = Fin 6
          /\ exists missing,
               log = [WarnAssumingSixHours missing]
               /\ In (country p) missing).
Proof.
  intro Hm.
  assert (Hraw : exists raw,
            max_hours_country_raw m hydro_stats hydro = Some raw).
  { destruct Hm as [-> | ->]; eexists; reflexivity. }
  destruct Hraw as [raw Hraw].
  assert (Hmhc : max_hours_country m hydro_stats hydro
                 = Some (fun c => clip0 (raw c))).
  { unfold max_hours_country. rewrite Hraw. reflexivity. }
  assert (Happlied : forall p,
            match max_hours p with None => True | Some h => h <= 0 end ->
            plant_max_hours (fun c => clip0 (raw c)) p
            = fillna 6 (clip0 (raw (country p)))).
  { intros p Hp. unfold plant_max_hours.
    destruct (max_hours p) as [h|]; [|reflexivity].
    assert (E : Qgtb h 0 = false) by (apply Qgtb_false; exact Hp).
    rewrite E. reflexivity. }
  exists raw. eexists. eexists.
  split; [exact Hraw|].
  split; [unfold reservoir_max_hours; rewrite Hmhc; reflexivity|].
  split; [reflexivity|].
  split; [intro c; apply clip0_not_negative|].
  split; [intros p _ Hp; apply Happlied; exact Hp|].
  intros p Hin Hp Hstats.
  pose proof (no_statistics_no_estimate m hydro_stats hydro _ (country p)
                Hmhc Hstats) as Hnan.
  cbv beta in Hnan.
  split.
  - rewrite (Happlied p Hp), Hnan. reflexivity.
  - pose proof (missing_countries_spec (fun c => clip0 (raw c)) hydro p
                  Hin Hnan) as Hmiss.
    destruct (missing_countries (fun c => clip0 (raw c)) hydro)
      as [|c0 rest] eqn:E; [destruct Hmiss|].
    exists (c0 :: rest). split; [reflexivity|exact Hmiss].
Qed.

Lemma six_hours_without_statistics_witness :
  reservoir_max_hours "energy_capacity_totals_by_country" reported reservoirs
  = Some ([Fin 10; Fin (17999000 # 200); Fin 6; Fin 6],
          [WarnAssumingSixHours ["AL"]]).
Proof.
  destruct (six_hours_without_statistics
              "energy_capacity_totals_by_country" reported reservoirs)
    as (raw & mhs & log & _ & Hres & _).
  - left. reflexivity.
  - rewrite Hres. vm_compute in Hres. injection Hres as <- <-. reflexivity.
Defined.

End HydroClaims.

(** ** The repair loop keeps labels and bounds *)

Section RepairInvariants.

Import Reconciler Invariant.

Lemma key_of_labels (A B : frame) :
  List.map name A = List.map name B ->
  List.map p_nom_max A = List.map p_nom_max B ->
  List.map key A = List.map key B.
Proof.
  revert B. induction A as [|a A IH]; intros [|b B] Hn Hm;
    try discriminate; [reflexivity|].
  simpl in *. injection Hn as Hn1 Hn2. injection Hm as Hm1 Hm2.
  unfold key at 1 3. rewrite Hn1, Hm1, (IH B Hn2 Hm2). reflexivity.
Qed.

Lemma labels_of_key (A B : frame) :
  List.map key A = List.map key B ->
  List.map name A = List.map name B
  /\ List.map p_nom_max A = List.map p_nom_max B.
Proof.
  intro H.
  assert (Hn : List.map fst (List.map key A) = List.map fst (List.map key B))
    by (rewrite H; reflexivity).
  assert (Hm : List.map snd (List.map key A) = List.map snd (List.map key B))
    by (rewrite H; reflexivity).
  rewrite !List.map_map in Hn, Hm. split; assumption.
Qed.

Lemma key_sub_at (label : string) (o : Q) (U : frame) :
  List.map key (sub_at label o U) = List.map key U.
Proof.
  unfold sub_at. rewrite List.map_map. apply List.map_ext.
  intro g. destruct (String.eqb (name g) label); reflexivity.
Qed.

Lemma key_update_in_network (T : frame) (r : Q) (m : string) :
  List.map key (fst (_update_in_network T r m)) = List.map key T.
Proof.
  destruct (update_labels T r m) as [Hn Hm]. apply key_of_labels; assumption.
Qed.

Lemma at_label_some (T : frame) (label : string) (g : generator) :
  at_label T label = Some g -> In g T /\ name g = label.
Proof.
  unfold at_label. intro H. apply List.find_some in H as [Hin He].
  split; [exact Hin|]. apply String.eqb_eq. exact He.
Qed.

Lemma at_label_none (T : frame) (label : string) :
  at_label T label = None <-> ~ In label (List.map name T).
Proof.
  unfold at_label. split.
  - intros H Hin. apply List.in_map_iff in Hin as (g & Hg & Hin).
    pose proof (List.find_none _ _ H g Hin) as E. simpl in E.
    rewrite Hg, String.eqb_refl in E. discriminate.
  - intro H. destruct (List.find _ T) as [g|] eqn:E; [|reflexivity].
    apply List.find_some in E as [Hin He]. apply String.eqb_eq in He.
    exfalso. apply H. apply List.in_map_iff. exists g. split; assumption.
Qed.

Lemma key_update (U T : frame) :
  agree T U -> List.map key (update U T) = List.map key U.
Proof.
  intro H. unfold update. rewrite List.map_map. apply List.map_ext_in.
  intros g Hg. destruct (at_label T (name g)) as [g'|] eqn:E; [|reflexivity].
  apply at_label_some in E as [Hin Hn].
  unfold key. rewrite Hn, (H g' g Hin Hg Hn). reflexivity.
Qed.

Lemma agree_keys (T U T' U' : frame) :
  agree T U ->
  incl (List.map key T') (List.map key T) ->
  List.map key U' = List.map key U ->
  agree T' U'.
Proof.
  intros H HT HU g' g Hg' Hg Hn.
  assert (K' : In (key g') (List.map key T)) by (apply HT, List.in_map, Hg').
  assert (K : In (key g) (List.map key U))
    by (rewrite <- HU; apply List.in_map, Hg).
  apply List.in_map_iff in K' as (x' & Hx' & Hin').
  apply List.in_map_iff in K as (x & Hx & Hin).
  unfold key in Hx', Hx. injection Hx' as N' M'. injection Hx as N M.
  rewrite <- M', <- M. apply (H x' x Hin' Hin). congruence.
Qed.

Lemma key_drop (label : string) (T T1 : frame) :
  drop label T = Some T1 ->
  incl (List.map key T1) (List.map key T)
  /\ ~ In label (List.map name T1).
Proof.
  unfold drop. destruct (at_label T label) as [g0|]; [|discriminate].
  intro H. injection H as <-. split.
  - apply List.incl_map. apply List.incl_filter.
  - intro Hin. apply List.in_map_iff in Hin as (g & Hg & Hin).
    apply List.filter_In in Hin as [_ Hne].
    rewrite Hg, String.eqb_refl in Hne. discriminate.
Qed.

(** The row picked as conflictive depends on [df_updated] through its labels
    and upper bounds only. *)
Lemma index_conflictive_keys (orig : frame) :
  forall U U' : frame,
    List.map key U = List.map key U' ->
    index_conflictive orig U = index_conflictive orig U'.
Proof.
  induction orig as [|g0 orig IH]; intros [|g U] [|g' U'] H;
    try discriminate; try reflexivity.
  simpl in H. injection H as Hn Hm H.
  simpl. rewrite Hn, Hm, (IH U U' H). reflexivity.
Qed.

Lemma index_conflictive_in (orig : frame) :
  forall (U : frame) (label : string),
    index_conflictive orig U = Some label -> In label (List.map name U).
Proof.
  induction orig as [|g0 orig IH]; intros [|g U] label H; try discriminate.
  simpl in H. destruct (Qgtb (p_nom g0) (p_nom_max g)).
  - injection H as <-. left. reflexivity.
  - right. apply (IH U label H).
Qed.

(** One pass of the loop, as far as labels and bounds go. *)
Lemma pass_keeps_keys (m : string) (U T T1 : frame) (label : string) (o r : Q) :
  agree T U ->
  drop label T = Some T1 ->
  let T2 := fst (_update_in_network T1 r m) in
  let U' := update (sub_at label o U) T2 in
  List.map key U' = List.map key U
  /\ agree T2 U'
  /\ ~ In label (List.map name T2).
Proof.
  intros Hag Hd T2 U'.
  destruct (key_drop label T T1 Hd) as [Hincl Hnot].
  assert (K2 : List.map key T2 = List.map key T1)
    by apply key_update_in_network.
  assert (A2 : agree T2 (sub_at label o U)).
  { apply (agree_keys T U); [exact Hag| |apply key_sub_at].
    rewrite K2. exact Hincl. }
  assert (KU : List.map key U' = List.map key U).
  { unfold U'. rewrite (key_update _ _ A2). apply key_sub_at. }
  split; [exact KU|]. split.
  - apply (agree_keys T U); [exact Hag| |exact KU].
    rewrite K2. exact Hincl.
  - destruct (labels_of_key _ _ K2) as [N2 _]. rewrite N2. exact Hnot.
Qed.

(** A second pass selects the row of the first pass again, and that row is
    no longer in [df_to_sanitise]. *)
Lemma second_pass_raises (fuel : nat) (orig : frame) (m : string)
    (U T : frame) (log : list event) :
  agree T U ->
  repair_loop (S (S fuel)) orig m U T log
  = match repair_loop 1 orig m U T log with
    | OutOfFuel => KeyError
    | o => o
    end.
Proof.
  intro Hag.
  change (repair_loop (S (S fuel)) orig m U T log)
    with (if any_over U then
            match index_conflictive orig U with
            | None => IndexError
            | Some label =>
                match at_label U label with
                | None => KeyError
                | Some g =>
                    match drop label T with
                    | None => KeyError
                    | Some T1 =>
                        let '(T2, w) :=
                          _update_in_network T1
                            (total_p_nom T1 + (p_nom g - p_nom_max g)) m in
                        repair_loop (S fuel) orig m
                          (update (sub_at label (p_nom g - p_nom_max g) U) T2)
                          T2 (log ++ w)
                    end
                end
            end
          else Done U log).
  change (repair_loop 1 orig m U T log)
    with (if any_over U then
            match index_conflictive orig U with
            | None => IndexError
            | Some label =>
                match at_label U label with
                | None => KeyError
                | Some g =>
                    match drop label T with
                    | None => KeyError
                    | Some T1 =>
                        let '(T2, w) :=
                          _update_in_network T1
                            (total_p_nom T1 + (p_nom g - p_nom_max g)) m in
                        repair_loop 0 orig m
                          (update (sub_at label (p_nom g - p_nom_max g) U) T2)
                          T2 (log ++ w)
                    end
                end
            end
          else Done U log).
  destruct (any_over U); [|reflexivity].
  destruct (index_conflictive orig U) as [label|] eqn:EI; [|reflexivity].
  destruct (at_label U label) as [g|]; [|reflexivity].
  destruct (drop label T) as [T1|] eqn:ED; [|reflexivity].
  pose proof (pass_keeps_keys m U T T1 label (p_nom g - p_nom_max g)
                (total_p_nom T1 + (p_nom g - p_nom_max g)) Hag ED)
    as (KU & _ & Hnot).
  destruct (_update_in_network T1 _ m) as [T2 w]. simpl fst in *.
  set (U' := update (sub_at label (p_nom g - p_nom_max g) U) T2) in *.
  simpl. destruct (any_over U'); [|reflexivity].
  rewrite (index_conflictive_keys orig U' U KU), EI.
  destruct (at_label U' label) as [g'|] eqn:EA.
  - unfold drop.
    assert (EN : at_label T2 label = None) by (apply at_label_none; exact Hnot).
    rewrite EN. reflexivity.
  - reflexivity.
Qed.

(** A completed loop returns the labels and the bounds it was given. *)
Lemma repair_loop_keeps_keys (fuel : nat) (orig : frame) (m : string) :
  forall (U T : frame) (log : list event) (df' : frame) (log' : list event),
    agree T U ->
    repair_loop fuel orig m U T log = Done df' log' ->
    List.map key df' = List.map key U /\ any_over df' = false.
Proof.
  induction fuel as [|fuel IH]; intros U T log df' log' Hag H; simpl in H.
  - destruct (any_over U) eqn:E; [discriminate|].
    injection H as <- _. split; [reflexivity|exact E].
  - destruct (any_over U) eqn:E.
    + destruct (index_conflictive orig U) as [label|]; [|discriminate].
      destruct (at_label U label) as [g|]; [|discriminate].
      destruct (drop label T) as [T1|] eqn:ED; [|discriminate].
      pose proof (pass_keeps_keys m U T T1 label (p_nom g - p_nom_max g)
                    (total_p_nom T1 + (p_nom g - p_nom_max g)) Hag ED)
        as (KU & A2 & _).
      destruct (_update_in_network T1 _ m) as [T2 w]. simpl fst in *.
      destruct (IH _ _ _ _ _ A2 H) as [K Hover].
      split; [rewrite K; exact KU|exact Hover].
    + injection H as <- _. split; [reflexivity|exact E].
Qed.

Lemma NoDup_map_eq {A B} (f : A -> B) (l : list A) (x y : A) :
  List.NoDup (List.map f l) -> In x l -> In y l -> f x = f y -> x = y.
Proof.
  induction l as [|a l IH]; intros Hnd Hx Hy E; [destruct Hx|].
  simpl in Hnd. apply List.NoDup_cons_iff in Hnd as [Hna Hnd].
  destruct Hx as [<-|Hx], Hy as [<-|Hy].
  - reflexivity.
  - exfalso. apply Hna. rewrite E. apply List.in_map. exact Hy.
  - exfalso. apply Hna. rewrite <- E. apply List.in_map. exact Hx.
  - apply IH; assumption.
Qed.

Lemma agree_refl (U : frame) : List.NoDup (List.map name U) -> agree U U.
Proof.
  intros Hnd g' g Hg' Hg E.
  rewrite (NoDup_map_eq name U g' g Hnd Hg' Hg E). reflexivity.
Qed.

End RepairInvariants.

(** ** Further properties of the reconciler *)

Section ReconcilerExtras.

Import Reconciler Invariant Examples.

Lemma repair_loop_more_fuel (k : nat) (orig : frame) (m : string) :
  forall (fuel : nat) (U T : frame) (log : list event),
    repair_loop fuel orig m U T log <> OutOfFuel ->
    repair_loop (fuel + k) orig m U T log = repair_loop fuel orig m U T log.
Proof.
  induction fuel as [|fuel IH]; intros U T log H; simpl in *.
  - destruct (any_over U) eqn:E.
    + exfalso. apply H. reflexivity.
    + destruct k; simpl; rewrite E; reflexivity.
  - destruct (any_over U); [|reflexivity].
    destruct (index_conflictive orig U) as [label|]; [|reflexivity].
    destruct (at_label U label) as [g|]; [|reflexivity].
    destruct (drop label T) as [T1|]; [|reflexivity].
    destruct (_update_in_network T1 _ m) as [T2 w].
    apply IH. exact H.
Qed.

(** X1.  The overflow-repair loop ends after at most as many passes as
    there are candidates: with more fuel than candidates the model never
    runs out of it, and the outcome no longer depends on the fuel. *)
Theorem overflow_repair_terminates (fuel : nat) (df : frame) (r : Q)
    (m : string) :
  (List.length df < fuel)%nat ->
  reconcile_fuel fuel df r m <> OutOfFuel
  /\ reconcile_fuel fuel df r m = reconcile_fuel (S (List.length df)) df r m.
Proof.
  intro Hlen.
  assert (G : forall f, (List.length df < f)%nat ->
                        reconcile_fuel f df r m <> OutOfFuel).
  { intros f Hf. unfold reconcile_fuel.
    pose proof (update_length df r m) as L.
    destruct (_update_in_network df r m) as [U log]. simpl in L.
    destruct (Qgtb (total_p_nom U) (total_p_nom_max U)); [discriminate|].
    apply repair_loop_terminates. lia. }
  split; [apply G; exact Hlen|].
  assert (E : fuel = (S (List.length df) + (fuel - S (List.length df)))%nat)
    by lia.
  rewrite E at 1. clear E.
  specialize (G (S (List.length df)) ltac:(lia)).
  unfold reconcile_fuel in *.
  destruct (_update_in_network df r m) as [U log].
  destruct (Qgtb (total_p_nom U) (total_p_nom_max U)); [reflexivity|].
  apply repair_loop_more_fuel. exact G.
Qed.

Lemma overflow_repair_terminates_witness :
  reconcile_fuel 7 over_bound_start 30 "additional" <> OutOfFuel
  /\ reconcile_fuel 7 over_bound_start 30 "additional"
     = reconcile_fuel 3 over_bound_start 30 "additional".
Proof.
  apply (overflow_repair_terminates 7 over_bound_start 30 "additional").
  simpl. lia.
Defined.

(** X2.  With unique generator names the loop never completes a second
    pass: the outcome is that of the loop cut after one pass, except that
    where a second pass would start it raises [KeyError] (the row selected
    is the one already dropped from [df_to_sanitise]). *)
Theorem repair_stops_after_one_pass (df : frame) (r : Q) (m : string) :
  List.NoDup (List.map name df) ->
  reconcile df r m
  = match reconcile_fuel 1 df r m with
    | OutOfFuel => KeyError
    | o => o
    end.
Proof.
  intro Hnd. unfold reconcile, reconcile_fuel.
  destruct (update_labels df r m) as [Hn _].
  destruct (_update_in_network df r m) as [U log]. simpl in Hn.
  destruct (Qgtb (total_p_nom U) (total_p_nom_max U)); [reflexivity|].
  change (2 + List.length df)%nat with (S (S (List.length df))).
  apply second_pass_raises. apply agree_refl. rewrite Hn. exact Hnd.
Qed.

Lemma repair_stops_after_one_pass_witness :
  reconcile
    [mkGenerator "g1" 10 5; mkGenerator "g2" 10 12; mkGenerator "g3" 10 100]
    60 "additional"
  = KeyError.
Proof.
  rewrite (repair_stops_after_one_pass
             [mkGenerator "g1" 10 5; mkGenerator "g2" 10 12;
              mkGenerator "g3" 10 100] 60 "additional").
  - vm_compute. reflexivity.
  - repeat constructor; simpl; intuition discriminate.
Defined.

(** X3.  For candidates that all start within their upper bounds, a first
    update that fits the combined bound and puts some generator above its own
    bound always ends in [IndexError]: the loop is entered and the selection
    of the conflictive row, which reads the capacities as selected, is
    empty. *)
Theorem repair_raises_when_candidates_start_within_bounds
    (df : frame) (r : Q) (m : string) :
  Forall (fun g => p_nom g <= p_nom_max g) df ->
  total_p_nom (fst (_update_in_network df r m)) <= total_p_nom_max df ->
  any_over (fst (_update_in_network df r m)) = true ->
  reconcile df r m = IndexError.
Proof.
  intros Hin Hfit Hover.
  rewrite (reconcile_within_bounds df r m Hin).
  destruct (update_labels df r m) as [_ Hmax].
  destruct (_update_in_network df r m) as [U log]. simpl in *.
  assert (E : Qgtb (total_p_nom U) (total_p_nom_max U) = false).
  { apply Qgtb_false. unfold total_p_nom_max at 1. rewrite Hmax. exact Hfit. }
  rewrite E, Hover. reflexivity.
Qed.

Lemma repair_raises_when_candidates_start_within_bounds_witness :
  reconcile spec_solar 70 "additional" = IndexError.
Proof.
  apply (repair_raises_when_candidates_start_within_bounds
           spec_solar 70 "additional").
  - repeat constructor; discriminate.
  - vm_compute. discriminate.
  - vm_compute. reflexivity.
Defined.

(** X4.  A reconciliation that completes returns the generators it was
    given, in the same order and with the same upper bounds, and none of them
    is above its bound. *)
Theorem completed_reconciliation_keeps_rows
    (df df' : frame) (r : Q) (m : string) (log : list event) :
  List.NoDup (List.map name df) ->
  reconcile df r m = Done df' log ->
  List.map name df' = List.map name df
  /\ List.map p_nom_max df' = List.map p_nom_max df
  /\ Forall (fun g => p_nom g <= p_nom_max g) df'.
Proof.
  intros Hnd H. unfold reconcile, reconcile_fuel in H.
  pose proof (key_update_in_network df r m) as KU.
  destruct (_update_in_network df r m) as [U log0]. simpl in KU.
  destruct (Qgtb (total_p_nom U) (total_p_nom_max U)); [discriminate|].
  assert (Hag : agree U U).
  { apply agree_refl. destruct (labels_of_key _ _ KU) as [N _].
    rewrite N. exact Hnd. }
  destruct (repair_loop_keeps_keys _ _ _ _ _ _ _ _ Hag H) as [K Hover].
  rewrite KU in K. destruct (labels_of_key _ _ K) as [N M].
  split; [exact N|]. split; [exact M|].
  apply List.Forall_forall. intros g Hg.
  unfold any_over in Hover.
  destruct (Qgtb (p_nom g) (p_nom_max g)) eqn:E.
  - assert (X : existsb (fun g => Qgtb (p_nom g) (p_nom_max g)) df' = true).
    { apply List.existsb_exists. exists g. split; assumption. }
    rewrite X in Hover. discriminate.
  - apply Qgtb_false. exact E.
Qed.

Lemma completed_reconciliation_keeps_rows_witness :
  exists df' log,
    reconcile over_bound_start 30 "additional" = Done df' log
    /\ List.map name df' = ["bus1 solar"; "bus2 solar"]
    /\ Forall (fun g => p_nom g <= p_nom_max g) df'.
Proof.
  destruct (reconcile over_bound_start 30 "additional") as [df' log| | | |]
    eqn:E; try (vm_compute in E; discriminate).
  exists df', log. split; [reflexivity|].
  destruct (completed_reconciliation_keeps_rows over_bound_start df' 30
              "additional" log) as (N & _ & B).
  - repeat constructor; simpl; intuition discriminate.
  - exact E.
  - split; [exact N|exact B].
Defined.

(** X5.  The update rule never changes a label, the order of the rows or an
    upper bound, and for a nonempty candidate set with nonnegative
    capacities, a nonnegative target and one of the two methods it brings the
    total exactly to the target whenever the truncated target differs from
    the truncated current total. *)
Theorem update_rule_reaches_target (df : frame) (r : Q) (m : string) :
  df <> [] ->
  Forall (fun g => 0 <= p_nom g) df ->
  0 <= r ->
  m = "additional" \/ m = "proportional" ->
  py_int r <> py_int (total_p_nom df) ->
  total_p_nom (fst (_update_in_network df r m)) == r
  /\ List.map name (fst (_update_in_network df r m)) = List.map name df
  /\ List.map p_nom_max (fst (_update_in_network df r m))
     = List.map p_nom_max df.
Proof.
  intros Hne Hnn Hr Hm Hint. split.
  - apply update_total_hits_target; assumption.
  - apply update_labels.
Qed.

Lemma update_rule_reaches_target_witness :
  total_p_nom (fst (_update_in_network spec_solar 45 "proportional")) == 45.
Proof.
  apply (update_rule_reaches_target spec_solar 45 "proportional").
  - discriminate.
  - repeat constructor; discriminate.
  - discriminate.
  - right. reflexivity.
  - vm_compute. discriminate.
Defined.

End ReconcilerExtras.

(** ** The selection of the candidates and the write-back *)

Section CapacitiesFacts.

Import Reconciler Invariant Capacities.

Lemma NoDup_map_filter {A B} (f : A -> B) (p : A -> bool) (l : list A) :
  List.NoDup (List.map f l) -> List.NoDup (List.map f (List.filter p l)).
Proof.
  induction l as [|a l IH]; intro H; simpl; [constructor|].
  simpl in H. apply List.NoDup_cons_iff in H as [Hna Hnd].
  destruct (p a); simpl.
  - constructor; [|apply IH; exact Hnd].
    intro Hin. apply Hna. apply List.in_map_iff in Hin as (x & Hx & Hin).
    apply List.filter_In in Hin as [Hin _].
    apply List.in_map_iff. exists x. split; assumption.
  - apply IH. exact Hnd.
Qed.

(** Where a candidate comes from. *)
Lemma candidates_spec (generators : list row) (local : list string)
    (cc : string) (x : generator) :
  In x (candidates generators local cc) ->
  exists g,
    In g generators /\ gen g = x /\ in_region local cc g = true
    /\ ((exists h, In h generators /\ in_region local cc h = true
                   /\ 1 # 100 < p_nom (gen h)) ->
        1 # 100 < p_nom (gen g)).
Proof.
  unfold candidates.
  destruct (List.filter _ generators) as [|a above] eqn:E; intro Hx.
  - apply List.in_map_iff in Hx as (g & Hg & Hin).
    apply List.filter_In in Hin as [Hin Hr].
    exists g. repeat split; try assumption.
    intros (h & Hh & Hhr & Hfloor). exfalso.
    assert (Hf : In h (List.filter
                         (fun g => in_region local cc g
                                   && Qgtb (p_nom (gen g)) (1 # 100))
                         generators)).
    { apply List.filter_In. split; [exact Hh|].
      rewrite Hhr. apply Qgtb_true. exact Hfloor. }
    rewrite E in Hf. destruct Hf.
  - rewrite <- E in Hx.
    apply List.in_map_iff in Hx as (g & Hg & Hin).
    apply List.filter_In in Hin as [Hin Hr].
    apply andb_true_iff in Hr as [Hr Hfloor].
    exists g. repeat split; try assumption.
    intros _. apply Qgtb_true. exact Hfloor.
Qed.

Lemma candidates_nodup (generators : list row) (local : list string)
    (cc : string) :
  List.NoDup (List.map (fun g => name (gen g)) generators) ->
  List.NoDup (List.map name (candidates generators local cc)).
Proof.
  intro H. unfold candidates.
  destruct (List.filter _ generators) as [|a above] eqn:E.
  - rewrite List.map_map. apply NoDup_map_filter. exact H.
  - rewrite <- E, List.map_map. apply NoDup_map_filter. exact H.
Qed.

Lemma reconcile_done_keys (df df' : frame) (r : Q) (m : string)
    (log : list event) :
  List.NoDup (List.map name df) ->
  reconcile df r m = Done df' log ->
  List.map key df' = List.map key df.
Proof.
  intros Hnd H. unfold reconcile, reconcile_fuel in H.
  pose proof (key_update_in_network df r m) as KU.
  destruct (_update_in_network df r m) as [U log0]. simpl in KU.
  destruct (Qgtb (total_p_nom U) (total_p_nom_max U)); [discriminate|].
  assert (Hag : agree U U).
  { apply agree_refl. destruct (labels_of_key _ _ KU) as [N _].
    rewrite N. exact Hnd. }
  destruct (repair_loop_keeps_keys _ _ _ _ _ _ _ _ Hag H) as [K _].
  rewrite K. exact KU.
Qed.

(** X6.  With unique generator names, a pair that is written back leaves
    every generator's name, bus, carrier and upper bound as they were, in
    the same order; it leaves alone every generator that is not of the
    carrier on a bus of the region, and, when some generator of the carrier
    in the region has more than 0.01 MW, every generator with at most
    0.01 MW. *)
Theorem update_pair_touches_candidates_only
    (generators generators' : list row) (local : list string) (cc : string)
    (column : list (option Q)) (m : string) (log : list event) :
  List.NoDup (List.map (fun g => name (gen g)) generators) ->
  update_pair generators local cc column m = Written generators' log ->
  Forall2 (fun g g' =>
             bus g' = bus g /\ carrier g' = carrier g
             /\ name (gen g') = name (gen g)
             /\ p_nom_max (gen g') = p_nom_max (gen g)
             /\ (in_region local cc g = false -> g' = g)
             /\ ((exists h, In h generators /\ in_region local cc h = true
                            /\ 1 # 100 < p_nom (gen h)) ->
                 p_nom (gen g) <= 1 # 100 -> g' = g))
          generators generators'.
Proof.
  intros Hnd H. unfold update_pair in H.
  pose proof (candidates_spec generators local cc) as Hspec.
  pose proof (candidates_nodup generators local cc Hnd) as Hcn.
  destruct (candidates generators local cc) as [|c0 cs] eqn:EC;
    [discriminate|].
  destruct (mean column) as [r|]; [|discriminate].
  destruct (reconcile (c0 :: cs) r m) as [df' log'| | | |] eqn:ER;
    try discriminate.
  injection H as <- <-.
  pose proof (reconcile_done_keys _ _ _ _ _ Hcn ER) as K.
  unfold write_back. apply Forall2_map_same.
  apply List.Forall_forall. intros g Hg.
  destruct (at_label df' (name (gen g))) as [x|] eqn:EA.
  - apply at_label_some in EA as [Hx Hn]. simpl.
    assert (Kx : In (key x) (List.map key (c0 :: cs))).
    { rewrite <- K. apply List.in_map. exact Hx. }
    apply List.in_map_iff in Kx as (c & Hc & Hcin).
    unfold key in Hc. injection Hc as Hcn' Hcm.
    destruct (Hspec c Hcin) as (h & Hh & Hgen & Hreg & Hfloor).
    assert (Ehg : h = g).
    { apply (NoDup_map_eq (fun g => name (gen g)) generators h g Hnd Hh Hg).
      simpl. rewrite Hgen. congruence. }
    subst h.
    repeat split; try (rewrite <- Hgen; congruence).
    + exact Hn.
    + rewrite <- Hcm, <- Hgen. reflexivity.
    + intro Hout. rewrite Hreg in Hout. discriminate.
    + intros Hex Hle. specialize (Hfloor Hex). lra.
  - repeat split; reflexivity.
Qed.

End CapacitiesFacts.

Section CapacitiesWitnesses.

Import Reconciler Capacities MoreExamples.

Lemma update_pair_touches_candidates_only_witness :
  exists generators' log,
    update_pair network ["bus1"; "bus2"] "solar" reported_solar "proportional"
    = Written generators' log
    /\ Forall2 (fun g g' =>
                  bus g' = bus g /\ carrier g' = carrier g
                  /\ name (gen g') = name (gen g)
                  /\ p_nom_max (gen g') = p_nom_max (gen g)
                  /\ (in_region ["bus1"; "bus2"] "solar" g = false -> g' = g)
                  /\ ((exists h, In h network
                                 /\ in_region ["bus1"; "bus2"] "solar" h = true
                                 /\ 1 # 100 < p_nom (gen h)) ->
                      p_nom (gen g) <= 1 # 100 -> g' = g))
               network generators'.
Proof.
  destruct (update_pair network ["bus1"; "bus2"] "solar" reported_solar
                        "proportional") as [| |o|generators' log] eqn:E;
    try (vm_compute in E; discriminate).
  exists generators', log. split; [reflexivity|].
  apply (update_pair_touches_candidates_only network generators'
           ["bus1"; "bus2"] "solar" reported_solar "proportional" log).
  - repeat constructor; simpl; intuition discriminate.
  - exact E.
Defined.

End CapacitiesWitnesses.

(** ** Properties of the hydro inflow *)

Section InflowFacts.

Import Inflow InflowExamples.

Lemma Qsum_map_linear {A} (f : A -> Q) (v T : Q) (l : list A) :
  Qsum (List.map (fun a => v * (f a / T)) l)
  == v * (Qsum (List.map f l) / T).
Proof.
  induction l as [|a l IH]; simpl.
  - unfold Qdiv. ring.
  - rewrite IH. unfold Qdiv. ring.
Qed.

Lemma in_country_dist_key (idx : list plant) (c : string) (v : Q) :
  List.map (fun p => v * dist_key idx p)
           (List.filter (fun p => String.eqb (country p) c) idx)
  = List.map (fun p => v * (p_nom p / country_p_nom c idx))
             (List.filter (fun p => String.eqb (country p) c) idx).
Proof.
  apply List.map_ext_in. intros p Hp.
  apply List.filter_In in Hp as [_ Hc]. apply String.eqb_eq in Hc.
  unfold dist_key. rewrite Hc. reflexivity.
Qed.

(** X7.  When no country of an inflow plant is missing from the inflow
    data, [inflow_t] holds one column per run-of-river or reservoir plant,
    and for every country whose inflow plants have a nonzero total capacity
    the columns of its plants add up, at every time step, to the national
    inflow. *)
Theorem inflow_is_conserved (ppl : list plant)
    (inflow : list (string * list Q)) (c : string) (s : list Q) :
  Load.column c inflow = Some s ->
  ~ country_p_nom c (inflow_idx ppl) == 0 ->
  missing_c (inflow_idx ppl) inflow = [] ->
  inflow_t ppl inflow
  = InflowT (List.map (fun p => (label p,
                                 plant_inflow (inflow_idx ppl) inflow p))
                      (inflow_idx ppl))
  /\ forall t v,
       List.nth_error s t = Some v ->
       Forall (fun p => List.nth_error
                          (plant_inflow (inflow_idx ppl) inflow p) t
                        = Some (v * dist_key (inflow_idx ppl) p))
              (List.filter (fun p => String.eqb (country p) c)
                           (inflow_idx ppl))
       /\ Qsum (List.map (fun p => v * dist_key (inflow_idx ppl) p)
                         (List.filter (fun p => String.eqb (country p) c)
                                      (inflow_idx ppl)))
          == v.
Proof.
  intros Hs Htot Hmiss. split.
  - unfold inflow_t.
    destruct (inflow_idx ppl) as [|p0 idx] eqn:E.
    + exfalso. apply Htot. reflexivity.
    + rewrite Hmiss. reflexivity.
  - intros t v Ht. split.
    + apply List.Forall_forall. intros p Hp.
      apply List.filter_In in Hp as [_ Hc]. apply String.eqb_eq in Hc.
      unfold plant_inflow. rewrite Hc, Hs, List.nth_error_map, Ht.
      reflexivity.
    + rewrite in_country_dist_key.
      rewrite (Qsum_map_linear p_nom v (country_p_nom c (inflow_idx ppl))).
      unfold country_p_nom at 1. fold (country_p_nom c (inflow_idx ppl)).
      field. exact Htot.
Qed.

Lemma inflow_is_conserved_witness :
  Qsum (List.map (fun p => 800 * dist_key (inflow_idx plants) p)
                 (List.filter (fun p => String.eqb (country p) "ES")
                              (inflow_idx plants)))
  == 800.
Proof.
  apply (proj2 (inflow_is_conserved plants inflow "ES" [800; 40]
                  eq_refl ltac:(vm_compute; discriminate) eq_refl)
               0%nat 800 eq_refl).
Defined.

End InflowFacts.

Section InflowErrors.

Import Inflow InflowExamples.

(** X8.  The assertion on the inflow data fails exactly for the countries
    of run-of-river or reservoir plants that have no inflow series: such a
    plant makes [attach_hydro] fail with that country among those listed,
    and every country listed is the country of such a plant and absent
    from the inflow data. *)
Theorem missing_inflow_fails (ppl : list plant)
    (inflow : list (string * list Q)) :
  (forall p,
     In p (inflow_idx ppl) ->
     ~ In (country p) (List.map fst inflow) ->
     exists missing,
       inflow_t ppl inflow = AssertionError missing
       /\ In (country p) missing)
  /\ (forall missing c,
        inflow_t ppl inflow = AssertionError missing ->
        In c missing ->
        ~ In c (List.map fst inflow)
        /\ exists p, In p (inflow_idx ppl) /\ country p = c).
Proof.
  assert (Hspec : forall c,
            In c (missing_c (inflow_idx ppl) inflow)
            <-> (exists p, In p (inflow_idx ppl) /\ country p = c)
                /\ ~ In c (List.map fst inflow)).
  { intro c. unfold missing_c. rewrite List.filter_In, List.nodup_In,
      List.in_map_iff, negb_true_iff. split.
    - intros [(p & Hc & Hp) Hno]. split; [exists p; split; assumption|].
      intro Hin.
      assert (E : existsb (String.eqb c) (List.map fst inflow) = true).
      { apply List.existsb_exists. exists c. split; [exact Hin|].
        apply String.eqb_refl. }
      rewrite E in Hno. discriminate.
    - intros [(p & Hp & Hc) Hno]. split; [exists p; split; assumption|].
      destruct (existsb (String.eqb c) (List.map fst inflow)) eqn:E;
        [|reflexivity].
      apply List.existsb_exists in E as (x & Hx & Ex).
      apply String.eqb_eq in Ex. subst x. contradiction. }
  split.
  - intros p Hp Hno.
    assert (Hin : In (country p) (missing_c (inflow_idx ppl) inflow)).
    { apply Hspec. split; [exists p; split; [exact Hp|reflexivity]|exact Hno]. }
    unfold inflow_t.
    destruct (inflow_idx ppl) as [|p0 idx] eqn:E; [destruct Hp|].
    destruct (missing_c (p0 :: idx) inflow) as [|c0 rest] eqn:EM;
      [destruct Hin|].
    exists (c0 :: rest). split; [reflexivity|exact Hin].
  - intros missing c H Hc. unfold inflow_t in H.
    destruct (inflow_idx ppl) as [|p0 idx] eqn:E; [discriminate|].
    destruct (missing_c (p0 :: idx) inflow) as [|c0 rest] eqn:EM;
      [discriminate|].
    injection H as <-.
    apply Hspec in Hc as [Hp Hno]. split; assumption.
Qed.

Lemma missing_inflow_fails_witness :
  exists missing,
    inflow_t plants [("ES", [800; 40])] = AssertionError missing
    /\ In "PT" missing.
Proof.
  apply (proj1 (missing_inflow_fails plants [("ES", [800; 40])])
               (mkPlant "2 hydro" "Run-Of-River" "PT" 50)).
  - vm_compute. right. right. left. reflexivity.
  - simpl. intros [H|[]]. discriminate.
Defined.

(** X9.  Every run-of-river generator's [p_max_pu] is, at each time step,
    the smaller of 1 and the national inflow divided by the total capacity
    of the country's inflow plants: it never exceeds 1 and is the same for
    all run-of-river plants of a country (the plant's own capacity and the
    country total not being zero). *)
Theorem ror_availability (ppl : list plant)
    (inflow : list (string * list Q)) (p : plant) (s : list Q) :
  In p (ror ppl) ->
  Load.column (country p) inflow = Some s ->
  ~ p_nom p == 0 ->
  ~ country_p_nom (country p) (inflow_idx ppl) == 0 ->
  exists profile,
    In (label p, profile) (ror_p_max_pu ppl inflow)
    /\ Forall2 (fun v x =>
                  x == Qmin (v / country_p_nom (country p) (inflow_idx ppl)) 1
                  /\ x <= 1)
               s profile.
Proof.
  intros Hp Hs Hnz Htot.
  eexists. split.
  - unfold ror_p_max_pu. apply List.in_map_iff. exists p.
    split; [reflexivity|exact Hp].
  - unfold plant_inflow. rewrite Hs, List.map_map.
    clear Hs. induction s as [|v s IH]; simpl; constructor; [|exact IH].
    assert (E : v * dist_key (inflow_idx ppl) p / p_nom p
                == v / country_p_nom (country p) (inflow_idx ppl)).
    { unfold dist_key. field. split; assumption. }
    destruct (Qle_bool (v * dist_key (inflow_idx ppl) p / p_nom p) 1) eqn:B.
    + apply Qle_bool_iff in B. split; [|exact B].
      rewrite <- E. symmetry. apply Q.min_l. exact B.
    + split; [|apply Qle_refl].
      symmetry. apply Q.min_r. rewrite <- E.
      apply Qlt_le_weak. apply Qnot_le_lt. intro Hle.
      apply Qle_bool_iff in Hle. congruence.
Qed.

Lemma ror_availability_witness :
  exists profile,
    In ("0 hydro", profile) (ror_p_max_pu plants inflow)
    /\ Forall2 (fun v x => x == Qmin (v / 400) 1 /\ x <= 1) [800; 40] profile.
Proof.
  apply (ror_availability plants inflow
           (mkPlant "0 hydro" "Run-Of-River" "ES" 100) [800; 40]).
  - left. reflexivity.
  - reflexivity.
  - discriminate.
  - vm_compute. discriminate.
Defined.

End InflowErrors.

(** ** The energy-totals estimator fills the gap *)

Section HydroEnergyFacts.

Import Hydro HydroEnergy Examples.

Lemma split_energy (x : Q) (l : list plant) :
  Qsum (List.map (fun p => match max_hours p with
                           | Some h => p_nom p * h
                           | None => p_nom p * x
                           end) l)
  == Qsum (List.map (fun p => match max_hours p with
                              | Some h => p_nom p * h
                              | None => 0
                              end) l)
     + x * Qsum (List.map p_nom
                   (List.filter (fun p => match max_hours p with
                                          | None => true
                                          | Some _ => false
                                          end) l)).
Proof.
  induction l as [|p l IH]; simpl.
  - ring.
  - destruct (max_hours p); simpl; rewrite IH; ring.
Qed.

Lemma Qsum_map_eq_in {A} (f g : A -> Q) (l : list A) :
  (forall a, In a l -> f a == g a) ->
  Qsum (List.map f l) == Qsum (List.map g l).
Proof.
  induction l as [|a l IH]; intro H; simpl.
  - reflexivity.
  - rewrite (H a (or_introl eq_refl)), IH; [reflexivity|].
    intros b Hb. apply H. right. exact Hb.
Qed.

(** X10.  With the estimator "energy_capacity_totals_by_country", in a
    country with a reported storage energy, where every reservoir has a
    positive or missing [max_hours], the plants without it have a positive
    total capacity and the installed energy does not exceed the target, the
    storage energy after filling, the sum of [p_nom * max_hours] over the
    country's reservoirs, equals the target (the reported energy, at least
    0.2 TWh, in MWh). *)
Theorem energy_gap_is_filled (hydro_stats : list stats_row)
    (hydro : list plant) (c : string) (T I D : Q) :
  e_target hydro_stats c = Fin T ->
  e_installed hydro c = Fin I ->
  missing_p_nom hydro c = Fin D ->
  0 < D ->
  I <= T ->
  Forall (fun p => match max_hours p with
                   | Some h => 0 < h
                   | None => True
                   end) (in_country c hydro) ->
  exists mhc,
    max_hours_country "energy_capacity_totals_by_country" hydro_stats hydro
    = Some mhc
    /\ mhc c = Fin (Qmax 0 ((T - I) / D))
    /\ energy mhc c hydro == T.
Proof.
  intros HT HI HD Dpos Hle Hall.
  eexists. split; [reflexivity|].
  assert (Hc : clip0 (div (sub (e_target hydro_stats c) (e_installed hydro c))
                          (missing_p_nom hydro c))
               = Fin (Qmax 0 ((T - I) / D))).
  { rewrite HT, HI, HD. simpl.
    assert (E : Qeq_bool D 0 = false).
    { destruct (Qeq_bool D 0) eqn:B; [|reflexivity].
      apply Qeq_bool_eq in B. rewrite B in Dpos. inversion Dpos. }
    rewrite E. reflexivity. }
  split; [exact Hc|].
  assert (Hx : 0 <= (T - I) / D) by (apply Qle_shift_div_l; lra).
  unfold energy.
  rewrite (Qsum_map_eq_in _
             (fun p => match max_hours p with
                       | Some h => p_nom p * h
                       | None => p_nom p * ((T - I) / D)
                       end)).
  - rewrite split_energy.
    assert (A1 : Qsum (List.map (fun p => match max_hours p with
                                          | Some h => p_nom p * h
                                          | None => 0
                                          end) (in_country c hydro)) = I).
    { unfold e_installed in HI.
      destruct (in_country c hydro) as [|p0 ps]; [discriminate|].
      injection HI as HI. exact HI. }
    assert (A2 : Qsum (List.map p_nom
                         (List.filter (fun p => match max_hours p with
                                                | None => true
                                                | Some _ => false
                                                end) (in_country c hydro)))
                 = D).
    { unfold missing_p_nom in HD.
      destruct (List.filter _ (in_country c hydro)) as [|m0 ms];
        [discriminate|].
      injection HD as HD. exact HD. }
    rewrite A1, A2. field. lra.
  - intros p Hp.
    rewrite List.Forall_forall in Hall. specialize (Hall p Hp).
    assert (Ec : country p = c).
    { apply List.filter_In in Hp as [_ Hp]. apply String.eqb_eq. exact Hp. }
    unfold plant_max_hours. rewrite Ec, Hc.
    destruct (max_hours p) as [h|].
    + assert (B : Qgtb h 0 = true) by (apply Qgtb_true; exact Hall).
      rewrite B. reflexivity.
    + simpl. rewrite (Q.max_r _ _ Hx). reflexivity.
Qed.

Lemma energy_gap_is_filled_witness :
  exists mhc,
    max_hours_country "energy_capacity_totals_by_country" reported reservoirs
    = Some mhc
    /\ mhc "ES" = Fin (Qmax 0 ((18000000 - 1000) / 200))
    /\ energy mhc "ES" reservoirs == 18000000.
Proof.
  apply (energy_gap_is_filled reported reservoirs "ES" 18000000 1000 200).
  - vm_compute. reflexivity.
  - vm_compute. reflexivity.
  - vm_compute. reflexivity.
  - reflexivity.
  - discriminate.
  - repeat constructor.
Defined.

End HydroEnergyFacts.

(** ** Properties of [estimate_renewable_capacities] *)

Section RenewablesFacts.

Import Renewables RenewablesExamples.

Variable capacities : list irena_row.
Variable year : Z.
Variable tech_map : list (string * list string).
Variable expansion_limit : Q.
Variable countries : list string.

Lemma addition_nonneg (ppm : string) (techs : list string)
    (generators : list generator) (g : generator) :
  0 <= addition capacities year tech_map countries ppm techs generators g.
Proof.
  unfold addition. destruct (dist g) as [d|]; [|apply Qle_refl].
  destruct (existsb _ countries); [|apply Qle_refl]. cbv zeta.
  match goal with |- 0 <= (if Qgtb ?v _ then _ else _) =>
    destruct (Qgtb v (1 # 10)) eqn:B end; [|apply Qle_refl].
  apply Qgtb_true in B. lra.
Qed.

Lemma Forall2_trans3 {A} (R1 R2 R3 : A -> A -> Prop) (l1 l2 l3 : list A) :
  (forall a b c, R1 a b -> R2 b c -> R3 a c) ->
  Forall2 R1 l1 l2 -> Forall2 R2 l2 l3 -> Forall2 R3 l1 l3.
Proof.
  intros H H12. revert l3.
  induction H12 as [|a b l1 l2 Hab _ IH]; intros l3 H23;
    inversion H23; subst; constructor; eauto.
Qed.

(** One pass of the loop. *)
Lemma step_monotone (generators : list generator)
    (item : string * list string) :
  Forall2 (fun g g' =>
             name g' = name g /\ carrier g' = carrier g
             /\ country g' = country g
             /\ p_max_pu_mean g' = p_max_pu_mean g
             /\ p_nom g <= p_nom g'
             /\ (in_techs (snd item) g = false -> g' = g))
          generators
          (step capacities year tech_map expansion_limit countries
                generators item).
Proof.
  destruct item as [ppm techs]. unfold step.
  apply Forall2_map_same. apply List.Forall_forall. intros g _. simpl.
  destruct (in_techs techs g).
  - simpl. repeat split; try reflexivity.
    + pose proof (addition_nonneg ppm techs generators g). lra.
    + discriminate.
  - repeat split; try reflexivity. apply Qle_refl.
Qed.

Lemma fold_monotone (items : list (string * list string)) :
  forall generators : list generator,
    Forall2 (fun g g' =>
               name g' = name g /\ carrier g' = carrier g
               /\ country g' = country g
               /\ p_max_pu_mean g' = p_max_pu_mean g
               /\ p_nom g <= p_nom g'
               /\ (mapped items g = false -> g' = g))
            generators
            (List.fold_left
               (step capacities year tech_map expansion_limit countries)
               items generators).
Proof.
  induction items as [|item items IH]; intro generators; simpl.
  - apply Forall2_same. apply List.Forall_forall. intros g _.
    repeat split; try reflexivity. apply Qle_refl.
  - eapply Forall2_trans3; [|apply step_monotone|apply IH].
    intros a b c (N1 & C1 & K1 & M1 & L1 & U1) (N2 & C2 & K2 & M2 & L2 & U2).
    repeat split; try congruence.
    + lra.
    + intro Hm. unfold mapped in Hm. simpl in Hm.
      apply orb_false_iff in Hm as [Ha Hrest].
      specialize (U1 Ha). subst b. apply U2. exact Hrest.
Qed.

(** X11.  [estimate_renewable_capacities] never lowers a capacity: every
    generator keeps its name, carrier and country, its [p_nom] after the
    call is at least its [p_nom] before, and a generator whose carrier is
    listed under no technology of [tech_map] is left exactly as it was. *)
Theorem capacities_never_decrease (generators : list generator) :
  Forall2 (fun g g' =>
             name g' = name g /\ carrier g' = carrier g
             /\ country g' = country g
             /\ p_max_pu_mean g' = p_max_pu_mean g
             /\ p_nom g <= p_nom g'
             /\ (mapped tech_map g = false -> g' = g))
          generators
          (estimate_renewable_capacities generators capacities year tech_map
                                         expansion_limit countries).
Proof.
  unfold estimate_renewable_capacities.
  destruct ((List.length countries =? 0)%nat
            || (List.length tech_map =? 0)%nat).
  - apply Forall2_same. apply List.Forall_forall. intros g _.
    repeat split; try reflexivity. apply Qle_refl.
  - apply fold_monotone.
Qed.

End RenewablesFacts.

Section RenewablesInvariants.

Import Renewables RenewablesExamples.

Variable capacities : list irena_row.
Variable year : Z.
Variable tech_map : list (string * list string).
Variable expansion_limit : Q.
Variable countries : list string.

Lemma fold_sets_minimum (items : list (string * list string)) :
  forall (done : string -> bool) (generators : list generator),
    (forall g, In g generators -> done (carrier g) = true ->
               p_nom_min g = p_nom g
               /\ (Qeq_bool expansion_limit 0 = false ->
                   p_nom_max g = expansion_limit * p_nom g)) ->
    forall g',
      In g' (List.fold_left
               (step capacities year tech_map expansion_limit countries)
               items generators) ->
      done (carrier g') = true \/ mapped items g' = true ->
      p_nom_min g' = p_nom g'
      /\ (Qeq_bool expansion_limit 0 = false ->
          p_nom_max g' = expansion_limit * p_nom g').
Proof.
  induction items as [|[ppm techs] items IH]; intros done generators Hinv g' Hin Hg'.
  - simpl in Hin. destruct Hg' as [Hd|Hm]; [|discriminate].
    apply Hinv; assumption.
  - simpl in Hin.
    apply (IH (fun c => done c || existsb (String.eqb c) techs)
              (step capacities year tech_map expansion_limit countries
                    generators (ppm, techs))); [|exact Hin|].
    + intros g Hg Hd. unfold step in Hg.
      apply List.in_map_iff in Hg as (g0 & Hg0 & Hin0).
      destruct (in_techs techs g0) eqn:Et.
      * subst g. simpl. split; [reflexivity|].
        intros E. rewrite E. reflexivity.
      * subst g. apply Hinv; [exact Hin0|].
        unfold in_techs in Et. rewrite Et, orb_false_r in Hd. exact Hd.
    + destruct Hg' as [Hd|Hm].
      * left. rewrite Hd. reflexivity.
      * unfold mapped in Hm. simpl in Hm.
        apply orb_true_iff in Hm as [Ht|Hrest].
        -- left. unfold in_techs in Ht. rewrite Ht. apply orb_true_r.
        -- right. exact Hrest.
Qed.

(** X12.  After [estimate_renewable_capacities] (with a country to
    estimate), every generator whose carrier is listed under a technology
    of [tech_map] has [p_nom_min] equal to its [p_nom], and, when an
    expansion limit is set, [p_nom_max] equal to the limit times its
    [p_nom]. *)
Theorem minimum_follows_capacity (generators : list generator)
    (g' : generator) :
  countries <> [] ->
  In g' (estimate_renewable_capacities generators capacities year tech_map
                                       expansion_limit countries) ->
  mapped tech_map g' = true ->
  p_nom_min g' = p_nom g'
  /\ (~ expansion_limit == 0 -> p_nom_max g' = expansion_limit * p_nom g').
Proof.
  intros Hc Hin Hm. unfold estimate_renewable_capacities in Hin.
  assert (E1 : (List.length countries =? 0)%nat = false).
  { apply Nat.eqb_neq. intro H0. apply List.length_zero_iff_nil in H0.
    contradiction. }
  assert (E2 : (List.length tech_map =? 0)%nat = false).
  { apply Nat.eqb_neq. intro H0. apply List.length_zero_iff_nil in H0.
    rewrite H0 in Hm. discriminate. }
  rewrite E1, E2 in Hin. simpl in Hin.
  destruct (fold_sets_minimum tech_map (fun _ => false) generators
              ltac:(intros; discriminate) g' Hin) as [Hmin Hmax].
  - right. exact Hm.
  - split; [exact Hmin|]. intro Hnz. apply Hmax.
    destruct (Qeq_bool expansion_limit 0) eqn:E; [|reflexivity].
    apply Qeq_bool_eq in E. contradiction.
Qed.

End RenewablesInvariants.

Section RenewablesAllocation.

Import Renewables RenewablesExamples.

Variable capacities : list irena_row.
Variable year : Z.
Variable tech_map : list (string * list string).
Variable expansion_limit : Q.
Variable countries : list string.

Lemma member_le_Qsum {A} (f : A -> Q) (l : list A) (a : A) :
  (forall x, In x l -> 0 <= f x) -> In a l -> f a <= Qsum (List.map f l).
Proof.
  induction l as [|x l IH]; intros Hnn Ha; [destruct Ha|]. simpl.
  assert (0 <= Qsum (List.map f l)).
  { apply Qsum_nonneg. apply List.Forall_forall. intros y Hy.
    apply List.in_map_iff in Hy as (z & <- & Hz). apply Hnn. right. exact Hz. }
  destruct Ha as [<-|Ha].
  - lra.
  - assert (f a <= Qsum (List.map f l)).
    { apply IH; [|exact Ha]. intros y Hy. apply Hnn. right. exact Hy. }
    assert (0 <= f x) by (apply Hnn; left; reflexivity). lra.
Qed.

(** X13.  In one pass of the loop, when the capacity reported for a country
    exceeds the capacity of the technology's generators there by at most
    0.1 MW (or falls short of it), no generator of that country gets
    anything added, whatever its share (the heuristic weights not being
    negative). *)
Theorem small_shortfall_adds_nothing (generators : list generator)
    (ppm : string) (techs : list string) (c : string) :
  Forall (fun g => match dist g with Some d => 0 <= d | None => True end)
         (tech_in_country techs c generators) ->
  stats capacities year tech_map countries ppm c
  - existent techs c generators <= 1 # 10 ->
  Forall2 (fun g g' => country g = c -> p_nom g' == p_nom g)
          generators
          (step capacities year tech_map expansion_limit countries
                generators (ppm, techs)).
Proof.
  intros Hnn Hm. unfold step. apply Forall2_map_same.
  apply List.Forall_forall. intros g Hg Hc.
  destruct (in_techs techs g) eqn:Et; [|reflexivity].
  simpl. unfold addition.
  destruct (dist g) as [d|] eqn:Ed; [|ring].
  destruct (existsb (String.eqb (country g)) countries); [|ring].
  cbv zeta. rewrite Hc.
  set (m := stats capacities year tech_map countries ppm c
            - existent techs c generators) in *.
  set (total := dist_total techs c generators).
  assert (Hin : In g (tech_in_country techs c generators)).
  { apply List.filter_In. split; [exact Hg|].
    rewrite Et. apply String.eqb_eq. exact Hc. }
  assert (Hall : forall x, In x (tech_in_country techs c generators) ->
                           0 <= match dist x with Some d => d | None => 0 end).
  { intros x Hx. rewrite List.Forall_forall in Hnn. specialize (Hnn x Hx).
    destruct (dist x); [exact Hnn|apply Qle_refl]. }
  assert (Hd : 0 <= d).
  { specialize (Hall g Hin). rewrite Ed in Hall. exact Hall. }
  assert (Hle : d <= total).
  { pose proof (member_le_Qsum
                  (fun g => match dist g with Some d => d | None => 0 end)
                  _ g Hall Hin) as H.
    cbv beta in H. rewrite Ed in H. exact H. }
  assert (Hshare : 0 <= d / total /\ d / total <= 1).
  { destruct (Qeq_dec total 0) as [Z0|NZ].
    - assert (E : d / total == 0).
      { unfold Qdiv. rewrite Z0. unfold Qinv. simpl. ring. }
      rewrite E. split; [apply Qle_refl|discriminate].
    - assert (0 < total) by lra. split.
      + apply Qle_shift_div_l; lra.
      + apply Qle_shift_div_r; lra. }
  assert (B : Qgtb (d / total * m) (1 # 10) = false).
  { apply Qgtb_false. destruct Hshare as [S0 S1].
    destruct (Qlt_le_dec m 0) as [Neg|Pos]; nra. }
  rewrite B. ring.
Qed.

Lemma filter_map_same {A} (p : A -> bool) (f : A -> A) (l : list A) :
  (forall a, p (f a) = p a) ->
  List.filter p (List.map f l) = List.map f (List.filter p l).
Proof.
  intro H. induction l as [|a l IH]; simpl; [reflexivity|].
  rewrite H. destruct (p a); simpl; rewrite IH; reflexivity.
Qed.

Lemma Qsum_map_plus_scaled {A} (f h : A -> Q) (k : Q) (l : list A) :
  Qsum (List.map (fun a => f a + h a * k) l)
  == Qsum (List.map f l) + Qsum (List.map h l) * k.
Proof.
  induction l as [|a l IH]; simpl.
  - ring.
  - rewrite IH. ring.
Qed.

(** X14.  In one pass of the loop, for a country of [countries] where every
    generator of the technology has a heuristic weight and an allocation
    above 0.1 MW, the capacity of the technology's generators in the
    country after the pass equals the reported capacity. *)
Theorem material_allocations_match_statistics
    (generators : list generator) (ppm : string) (techs : list string)
    (c : string) :
  In c countries ->
  ~ dist_total techs c generators == 0 ->
  Forall (fun g =>
            exists d,
              dist g = Some d
              /\ 1 # 10 < d / dist_total techs c generators
                          * (stats capacities year tech_map countries ppm c
                             - existent techs c generators))
         (tech_in_country techs c generators) ->
  existent techs c
           (step capacities year tech_map expansion_limit countries
                 generators (ppm, techs))
  == stats capacities year tech_map countries ppm c.
Proof.
  intros Hc Hnz Hall.
  set (m := stats capacities year tech_map countries ppm c
            - existent techs c generators) in *.
  set (total := dist_total techs c generators) in *.
  unfold existent at 1, tech_in_country at 1, step.
  rewrite filter_map_same.
  2:{ intro g. unfold in_techs.
      destruct (existsb (String.eqb (carrier g)) techs) eqn:E; simpl;
        rewrite E; reflexivity. }
  fold (tech_in_country techs c generators).
  rewrite List.map_map.
  rewrite (Qsum_map_eq_in _
             (fun g => p_nom g
                       + match dist g with Some d => d | None => 0 end
                         * (/ total * m))).
  - rewrite Qsum_map_plus_scaled.
    fold (existent techs c generators). fold (dist_total techs c generators).
    fold total. unfold m. field. exact Hnz.
  - intros g Hg. rewrite List.Forall_forall in Hall.
    destruct (Hall g Hg) as (d & Ed & Hv).
    apply List.filter_In in Hg as [_ Hg].
    apply andb_true_iff in Hg as [Et Ec]. apply String.eqb_eq in Ec.
    rewrite Et. simpl. unfold addition. rewrite Ed, Ec.
    assert (Ex : existsb (String.eqb c) countries = true).
    { apply List.existsb_exists. exists c. split; [exact Hc|].
      apply String.eqb_refl. }
    rewrite Ex. cbv zeta. fold m. fold total.
    assert (B : Qgtb (d / total * m) (1 # 10) = true)
      by (apply Qgtb_true; exact Hv).
    rewrite B. unfold Qdiv. ring.
Qed.

End RenewablesAllocation.

Section RenewablesWitnesses.

Import Renewables RenewablesExamples.

Lemma minimum_follows_capacity_witness :
  Forall (fun g' => p_nom_min g' = p_nom g' /\ p_nom_max g' = 2 * p_nom g')
         (estimate_renewable_capacities fleet irena 2020 technologies 2
                                        ["ES"]).
Proof.
  apply List.Forall_forall. intros g' Hin.
  destruct (minimum_follows_capacity irena 2020 technologies 2 ["ES"]
              fleet g') as [Hmin Hmax].
  - discriminate.
  - exact Hin.
  - vm_compute in Hin.
    repeat (destruct Hin as [<-|Hin]; [reflexivity|]). destruct Hin.
  - split; [exact Hmin|]. apply Hmax. discriminate.
Defined.

Lemma small_shortfall_adds_nothing_witness :
  Forall2 (fun g g' => country g = "ES" -> p_nom g' == p_nom g)
          fleet
          (step irena 2020 technologies 0 ["ES"] fleet
                ("Onshore", ["onwind"])).
Proof.
  apply (small_shortfall_adds_nothing irena 2020 technologies 0 ["ES"]
           fleet "Onshore" ["onwind"] "ES").
  - repeat constructor. discriminate.
  - vm_compute. discriminate.
Defined.

Lemma material_allocations_match_statistics_witness :
  existent ["solar"] "PT"
           (step irena 2020 technologies 0 ["ES"; "PT"] fleet
                 ("Solar", ["solar"]))
  == 40.
Proof.
  apply (material_allocations_match_statistics irena 2020 technologies 0
           ["ES"; "PT"] fleet "Solar" ["solar"] "PT").
  - right. left. reflexivity.
  - vm_compute. discriminate.
  - repeat constructor. eexists. split; [reflexivity|].
    vm_compute. reflexivity.
Defined.

End RenewablesWitnesses.

(** ** Properties of [update_transmission_costs] *)

Section TransmissionFacts.

Import Transmission TransmissionExamples.

(** X15.  When [update_transmission_costs] succeeds, every line gets
    length * length_factor * the HVAC cost; links keep their carrier, length
    and underwater fraction; a link that is not DC keeps its capital cost;
    and a DC link with an underwater fraction in [0,1] and a nonnegative
    scaled length gets a cost between the all-overhead and the all-submarine
    cost of that length, plus the inverter pair. *)
Theorem transmission_costs_bounds (lines lines' : list line)
    (links links' : list link) (underwater_column : bool)
    (costs : string -> option Q) (length_factor : Q) :
  update_transmission_costs lines links underwater_column costs length_factor
  = Updated lines' links' ->
  (exists hvac,
     costs "HVAC overhead" = Some hvac
     /\ lines' = List.map (fun l => mkLine (line_length l)
                                      (line_length l * length_factor * hvac))
                          lines)
  /\ Forall2
       (fun k k' =>
          link_carrier k' = link_carrier k
          /\ link_length k' = link_length k
          /\ underwater_fraction k' = underwater_fraction k
          /\ (link_carrier k <> "DC" -> k' = k)
          /\ (link_carrier k = "DC" ->
              0 <= underwater_fraction k <= 1 ->
              0 <= link_length k * length_factor ->
              exists overhead submarine inverter,
                costs "HVDC overhead" = Some overhead
                /\ costs "HVDC submarine" = Some submarine
                /\ costs "HVDC inverter pair" = Some inverter
                /\ link_length k * length_factor * Qmin overhead submarine
                   + inverter <= link_capital_cost k'
                /\ link_capital_cost k'
                   <= link_length k * length_factor * Qmax overhead submarine
                      + inverter))
       links links'.
Proof.
  unfold update_transmission_costs. intro H.
  destruct (costs "HVAC overhead") as [hvac|]; [|discriminate].
  destruct links as [|k0 ks].
  { injection H as <- <-.
    split; [exists hvac; split; reflexivity|constructor]. }
  cbv beta iota in H.
  remember (k0 :: ks) as all_links eqn:EL. clear EL k0 ks.
  destruct (List.filter is_dc all_links) as [|d0 ds] eqn:ED.
  - injection H as <- <-. split; [exists hvac; split; reflexivity|].
    apply Forall2_same. apply List.Forall_forall.
    intros k Hk. repeat split; try reflexivity.
    intros Hdc. exfalso.
    assert (Hin : In k (List.filter is_dc all_links)).
    { apply List.filter_In. split; [exact Hk|].
      apply String.eqb_eq. exact Hdc. }
    rewrite ED in Hin. destruct Hin.
  - destruct underwater_column; [|discriminate].
    destruct (costs "HVDC overhead") as [o|]; [|discriminate].
    destruct (costs "HVDC submarine") as [s|]; [|discriminate].
    destruct (costs "HVDC inverter pair") as [i|]; [|discriminate].
    injection H as <- <-.
    split; [exists hvac; split; reflexivity|].
    apply Forall2_map_same. apply List.Forall_forall. intros k _.
    unfold is_dc. destruct (String.eqb_spec (link_carrier k) "DC") as [E|E].
    + simpl. repeat split; try reflexivity.
      * intro Hne. contradiction.
      * intros _ [U0 U1] Hlen. exists o, s, i.
        split; [reflexivity|]. split; [reflexivity|].
        split; [reflexivity|].
        assert (P1 : 0 <= link_length k * length_factor
                          * underwater_fraction k)
          by (apply Qmult_le_0_compat; assumption).
        assert (P2 : 0 <= link_length k * length_factor
                          * (1 - underwater_fraction k))
          by (apply Qmult_le_0_compat; [assumption|lra]).
        set (a := link_length k * length_factor) in *.
        set (u := underwater_fraction k) in *.
        split.
        -- destruct (Q.min_spec o s) as [[Hos M]|[Hos M]]; rewrite M.
           ++ assert (0 <= a * u * (s - o))
                by (apply Qmult_le_0_compat; [exact P1|lra]).
              lra.
           ++ assert (0 <= a * (1 - u) * (o - s))
                by (apply Qmult_le_0_compat; [exact P2|lra]).
              lra.
        -- destruct (Q.max_spec o s) as [[Hos M]|[Hos M]]; rewrite M.
           ++ assert (0 <= a * (1 - u) * (s - o))
                by (apply Qmult_le_0_compat; [exact P2|lra]).
              lra.
           ++ assert (0 <= a * u * (o - s))
                by (apply Qmult_le_0_compat; [exact P1|lra]).
              lra.
    + repeat split; try reflexivity. intro Hdc. contradiction.
Qed.

Lemma transmission_costs_bounds_witness :
  exists lines' links',
    update_transmission_costs some_lines some_links true cost_table 1
    = Updated lines' links'
    /\ Forall2 (fun k k' => link_carrier k <> "DC" -> k' = k)
               some_links links'.
Proof.
  destruct (update_transmission_costs some_lines some_links true cost_table 1)
    as [|lines' links'] eqn:E; [vm_compute in E; discriminate|].
  exists lines', links'. split; [reflexivity|].
  destruct (transmission_costs_bounds some_lines lines' some_links links'
              true cost_table 1 E) as [_ H].
  eapply List.Forall2_impl; [|exact H].
  intros k k' (_ & _ & _ & Hk & _). exact Hk.
Defined.

End TransmissionFacts.

(** ** Properties of [calculate_annuity] *)

Section AnnuityFacts.

Import Annuity.

Lemma Qpower_positive_succ (a : Q) (n : positive) :
  Qpower_positive a (Pos.succ n) == a * Qpower_positive a n.
Proof.
  rewrite <- Pos.add_1_l, Qpower_plus_positive. reflexivity.
Qed.

Lemma inject_Z_succ (n : positive) :
  inject_Z (Zpos (Pos.succ n)) == inject_Z (Zpos n) + 1.
Proof.
  rewrite Pos2Z.inj_succ. unfold Z.succ. rewrite inject_Z_plus. reflexivity.
Qed.

Lemma inject_Z_pos (n : positive) : 1 <= inject_Z (Zpos n).
Proof.
  change 1 with (inject_Z 1). rewrite <- Zle_Qle. lia.
Qed.

(** Compounding beats simple interest, and not by too much. *)
Lemma compound_bounds (r : Q) (n : positive) :
  0 <= r ->
  1 + inject_Z (Zpos n) * r <= Qpower_positive (1 + r) n
  /\ Qpower_positive (1 + r) n * (1 - inject_Z (Zpos n) * r) <= 1.
Proof.
  intro Hr. induction n as [|n [IH1 IH2]] using Pos.peano_ind.
  - change (Qpower_positive (1 + r) 1) with (1 + r).
    change (inject_Z 1) with 1.
    assert (0 <= r * r) by (apply Qmult_le_0_compat; lra).
    split; lra.
  - rewrite Qpower_positive_succ, inject_Z_succ.
    pose proof (inject_Z_pos n) as Hn.
    set (N := inject_Z (Zpos n)) in *.
    set (P := Qpower_positive (1 + r) n) in *.
    assert (HP : 1 <= P) by nra.
    split.
    + assert (0 <= r * (P - (1 + N * r))) by (apply Qmult_le_0_compat; lra).
      assert (0 <= N * (r * r)).
      { apply Qmult_le_0_compat; [lra|]. apply Qmult_le_0_compat; lra. }
      lra.
    + assert (E : (1 + r) * P * (1 - (N + 1) * r)
                  == P * (1 - N * r) - P * ((N + 1) * (r * r))) by ring.
      rewrite E.
      assert (0 <= P * ((N + 1) * (r * r))).
      { apply Qmult_le_0_compat; [lra|].
        apply Qmult_le_0_compat; [lra|]. apply Qmult_le_0_compat; lra. }
      lra.
Qed.

(** X16.  For a positive discount rate and a lifetime of whole years, the
    annuity factor exceeds the rate, is at least the straight-line share
    1/n, and is at most the rate plus 1/n. *)
Theorem annuity_bounds (n : positive) (r : Q) :
  0 < r ->
  r < calculate_annuity n r
  /\ 1 / inject_Z (Zpos n) <= calculate_annuity n r
  /\ calculate_annuity n r <= r + 1 / inject_Z (Zpos n).
Proof.
  intro Hr. unfold calculate_annuity.
  assert (B : Qgtb r 0 = true) by (apply Qgtb_true; exact Hr).
  rewrite B. unfold formula.
  destruct (compound_bounds r n (Qlt_le_weak _ _ Hr)) as [C1 C2].
  pose proof (inject_Z_pos n) as Hn.
  set (N := inject_Z (Zpos n)) in *.
  set (P := Qpower_positive (1 + r) n) in *.
  assert (HNr : 0 < N * r) by (apply Qmult_lt_0_compat; lra).
  assert (HP : 1 < P) by lra.
  assert (ED : 1 - 1 / P == (P - 1) / P) by (field; lra).
  assert (HD : 0 < 1 - 1 / P).
  { rewrite ED. apply Qlt_shift_div_l; lra. }
  assert (HD1 : 1 - 1 / P < 1).
  { rewrite ED. apply Qlt_shift_div_r; lra. }
  split; [|split].
  - apply Qlt_shift_div_l; [exact HD|]. nra.
  - apply Qle_shift_div_l; [exact HD|].
    assert (E : 1 / N * (1 - 1 / P) == (P - 1) / (N * P)) by (field; lra).
    rewrite E. apply Qle_shift_div_r; [nra|].
    assert (P - 1 <= N * r * P) by lra. lra.
  - apply Qle_shift_div_r; [exact HD|].
    assert (E : (r + 1 / N) * (1 - 1 / P) - r
                == (P - 1 - N * r) / (N * P)) by (field; lra).
    assert (0 <= (P - 1 - N * r) / (N * P)).
    { apply Qle_shift_div_l; [nra|]. lra. }
    lra.
Qed.

Lemma annuity_bounds_witness :
  (5 # 100) < calculate_annuity 20 (5 # 100)
  /\ 1 / inject_Z 20 <= calculate_annuity 20 (5 # 100)
  /\ calculate_annuity 20 (5 # 100) <= (5 # 100) + 1 / inject_Z 20.
Proof.
  apply (annuity_bounds 20 (5 # 100)). reflexivity.
Defined.

(** X17.  On rates that are not negative the two branches of
    [calculate_annuity] agree: the series branch gives, entry by entry, what
    the scalar branch gives for that lifetime and rate. *)
Theorem annuity_branches_agree (n : list positive) (r : list Q) :
  Forall (fun r_i => 0 <= r_i) r ->
  calculate_annuity_series n r
  = List.map (fun '(n_i, r_i) => calculate_annuity n_i r_i)
             (List.combine n r).
Proof.
  intro H. unfold calculate_annuity_series.
  apply List.map_ext_in. intros [n_i r_i] Hin.
  apply List.in_combine_r in Hin.
  rewrite List.Forall_forall in H. specialize (H r_i Hin).
  unfold calculate_annuity.
  destruct (Qeq_bool r_i 0) eqn:E.
  - apply Qeq_bool_eq in E.
    assert (B : Qgtb r_i 0 = false) by (apply Qgtb_false; lra).
    rewrite B. reflexivity.
  - assert (B : Qgtb r_i 0 = true).
    { apply Qgtb_true. destruct (Qlt_le_dec 0 r_i) as [Hlt|Hle]; [exact Hlt|].
      assert (Z0 : r_i == 0) by lra.
      apply Qeq_bool_iff in Z0. congruence. }
    rewrite B. reflexivity.
Qed.

Lemma annuity_branches_agree_witness :
  calculate_annuity_series [20%positive; 25%positive] [5 # 100; 0]
  = [calculate_annuity 20 (5 # 100); calculate_annuity 25 0].
Proof.
  apply (annuity_branches_agree [20%positive; 25%positive] [5 # 100; 0]).
  repeat constructor; discriminate.
Defined.

End AnnuityFacts.

(** ** The factors are shares *)

Section FactorBounds.

Import Load Examples.

Lemma nth_nonneg (l : list Q) (j : nat) :
  Forall (fun x => 0 <= x) l -> 0 <= List.nth j l 0.
Proof.
  intro H. revert j. induction H as [|x l Hx _ IH]; intros [|j]; simpl;
    try apply Qle_refl; [exact Hx|apply IH].
Qed.

Lemma normed_shares (s : list Q) :
  Forall (fun x => 0 <= x) s ->
  ~ Qsum s == 0 ->
  Forall (fun x => 0 <= x /\ x <= 1) (normed s).
Proof.
  intros Hnn Hnz.
  assert (Hpos : 0 < Qsum s).
  { pose proof (Qsum_nonneg s Hnn). lra. }
  unfold normed. apply List.Forall_forall. intros y Hy.
  apply List.in_map_iff in Hy as (x & <- & Hx).
  rewrite List.Forall_forall in Hnn.
  pose proof (member_le_Qsum (fun x => x) s x Hnn Hx) as Hle.
  rewrite List.map_id in Hle. split.
  - apply Qle_shift_div_l; [exact Hpos|]. specialize (Hnn x Hx). lra.
  - apply Qle_shift_div_r; [exact Hpos|]. lra.
Qed.

Lemma weighted_sum_nonneg (a b : Q) (x : list Q) :
  forall y : list Q,
    0 <= a -> 0 <= b ->
    Forall (fun v => 0 <= v) x -> Forall (fun v => 0 <= v) y ->
    Forall (fun v => 0 <= v) (weighted_sum a x b y).
Proof.
  induction x as [|u x IH]; intros [|v y] Ha Hb Hx Hy;
    try (constructor; fail).
  inversion Hx; subst. inversion Hy; subst.
  unfold weighted_sum. simpl. constructor.
  - assert (0 <= a * u) by (apply Qmult_le_0_compat; assumption).
    assert (0 <= b * v) by (apply Qmult_le_0_compat; assumption). lra.
  - apply IH; assumption.
Qed.

Lemma Forall_weaken_shares (l : list Q) :
  Forall (fun x => 0 <= x /\ x <= 1) l -> Forall (fun x => 0 <= x) l.
Proof.
  intro H. eapply List.Forall_impl; [|exact H]. intros x [Hx _]. exact Hx.
Qed.

Lemma combine_factors_shares (w_gdp w_pop : Q) (g p : list Q) :
  0 <= w_gdp -> 0 <= w_pop -> w_gdp + w_pop == 1 ->
  List.length g = List.length p ->
  Forall (fun x => 0 <= x) g -> Forall (fun x => 0 <= x) p ->
  ~ Qsum g == 0 -> ~ Qsum p == 0 ->
  Forall (fun f => 0 <= f /\ f <= 1) (combine_factors w_gdp w_pop g p).
Proof.
  intros Hg Hp Hw Hlen Gnn Pnn Gnz Pnz. unfold combine_factors.
  apply normed_shares.
  - apply weighted_sum_nonneg; try assumption;
      apply Forall_weaken_shares; apply normed_shares; assumption.
  - rewrite Qsum_weighted_sum by (rewrite !length_normed; exact Hlen).
    rewrite (Qsum_normed g Gnz), (Qsum_normed p Pnz). lra.
Qed.

Section Geometric.

Context {G : Geometry} (L : GeometryLaws G).

Lemma transposed_dot_nonneg (group : bus_group (G := G))
    (rows : list (nuts3_row (G := G))) (value : nuts3_row (G := G) -> Q)
    (transfer : list (list Q)) :
  Transfer.shapes_to_shapes (List.map snd group)
                            (List.map nuts3_geometry rows) = Some transfer ->
  Forall (fun r => 0 <= value r) rows ->
  Forall (fun x => 0 <= x)
         (Transfer.transposed_dot (List.length group) transfer
                                  (List.map value rows)).
Proof.
  intros E H. unfold Transfer.transposed_dot.
  apply shapes_to_shapes_returns in E.
  apply List.Forall_forall. intros y Hy.
  apply List.in_map_iff in Hy as (j & <- & _).
  apply Qsum_nonneg. apply List.Forall_forall. intros z Hz.
  apply List.in_map_iff in Hz as ([row x] & <- & Hin).
  pose proof (List.in_combine_l _ _ _ _ Hin) as Hrow.
  pose proof (List.in_combine_r _ _ _ _ Hin) as Hx.
  apply Qmult_le_0_compat.
  - apply nth_nonneg. apply List.Forall_forall. intros e He.
    destruct (Forall2_in_r _ _ _ E row Hrow) as (d & _ & Hd).
    destruct (Forall2_in_r _ _ _ Hd e He) as (s & _ & Hsd).
    apply (entry_bounds L s d e Hsd).
  - apply List.in_map_iff in Hx as (r & <- & Hr).
    rewrite List.Forall_forall in H. apply H. exact Hr.
Qed.

End Geometric.

Lemma factors_of_rows_are_shares {G : Geometry} (L : GeometryLaws G)
    (group : bus_group (G := G)) (rows : list (nuts3_row (G := G)))
    (a b : Q) (g p : list Q) :
  Forall (fun r => 0 < area (nuts3_geometry r)
                   /\ 0 <= fillna 1 (gdp r) /\ 0 <= fillna 1 (pop r)) rows ->
  gdp_n group rows = Some g ->
  pop_n group rows = Some p ->
  ~ Qsum g == 0 ->
  ~ Qsum p == 0 ->
  0 <= a -> 0 <= b -> a + b == 1 ->
  Forall (fun f => 0 <= f /\ f <= 1) (combine_factors a b g p).
Proof.
  intros Hrows Eg Ep Gnz Pnz Ha Hb Hab.
  apply combine_factors_shares; try assumption.
  - apply (length_gdp_pop group rows g p Eg Ep).
  - unfold gdp_n in Eg.
    destruct (Transfer.shapes_to_shapes _ _) as [transfer|] eqn:E;
      [|discriminate].
    injection Eg as <-. apply (transposed_dot_nonneg L _ _ _ _ E).
    eapply List.Forall_impl; [|exact Hrows]. intros r (_ & Hg & _).
    exact Hg.
  - unfold pop_n in Ep.
    destruct (Transfer.shapes_to_shapes _ _) as [transfer|] eqn:E;
      [|discriminate].
    injection Ep as <-. apply (transposed_dot_nonneg L _ _ _ _ E).
    eapply List.Forall_impl; [|exact Hrows]. intros r (_ & _ & Hp).
    exact Hp.
Qed.

Lemma positive_rows_return {G : Geometry} (group : bus_group (G := G))
    (rows : list (nuts3_row (G := G))) :
  Forall (fun r => 0 < area (nuts3_geometry r)
                   /\ 0 <= fillna 1 (gdp r) /\ 0 <= fillna 1 (pop r)) rows ->
  exists g p, gdp_n group rows = Some g /\ pop_n group rows = Some p.
Proof.
  intro H. apply gdp_pop_return. intros r Hr.
  rewrite List.Forall_forall in H. apply (H r Hr).
Qed.

(** X18.  When every statistical region used has a positive area and GDP
    and population figures that are not negative (a missing figure counts
    as 1), the GDP and population figures of the group are computed, and
    if neither of them sums to zero, every factor of the group lies in
    [0,1]: in regional mode for every region code, in national mode for
    every country other than UA and MD. *)
Theorem factors_are_shares {G : Geometry} (L : GeometryLaws G)
    (update_gdp_pop : bool) (substation_lv_i : list string)
    (nuts3 : list (nuts3_row (G := G))) (group : bus_group (G := G))
    (tbl : list bus_stats) :
  (forall rr_ID,
     let rows :=
       List.filter (fun r => str_contains rr_ID (nuts3_index r)) nuts3 in
     Forall (fun r => 0 < area (nuts3_geometry r)
                      /\ 0 <= fillna 1 (gdp r) /\ 0 <= fillna 1 (pop r))
            rows ->
     exists g p,
       gdp_n group rows = Some g
       /\ pop_n group rows = Some p
       /\ (~ Qsum g == 0 ->
           ~ Qsum p == 0 ->
           exists factors,
             regional_factors update_gdp_pop nuts3 rr_ID group = Some factors
             /\ Forall (fun f => 0 <= f /\ f <= 1) factors))
  /\ (forall cntry,
        cntry <> "UA" -> cntry <> "MD" ->
        let rows :=
          List.filter (fun r => String.eqb (nuts3_country r) cntry) nuts3 in
        Forall (fun r => 0 < area (nuts3_geometry r)
                         /\ 0 <= fillna 1 (gdp r) /\ 0 <= fillna 1 (pop r))
               rows ->
        exists g p,
          gdp_n group rows = Some g
          /\ pop_n group rows = Some p
          /\ (~ Qsum g == 0 ->
              ~ Qsum p == 0 ->
              exists factors,
                national_factors update_gdp_pop substation_lv_i nuts3
                                 cntry group tbl
                = Some (List.map fst group, factors)
                /\ Forall (fun f => 0 <= f /\ f <= 1) factors)).
Proof.
  split.
  - intros rr_ID rows Hrows.
    destruct (positive_rows_return group rows Hrows) as (g & p & Eg & Ep).
    exists g, p. split; [exact Eg|]. split; [exact Ep|].
    intros Gnz Pnz. unfold regional_factors. fold rows. rewrite Eg, Ep.
    eexists. split; [reflexivity|].
    destruct update_gdp_pop;
      apply (factors_of_rows_are_shares L group rows _ _ g p);
      try assumption; try reflexivity; discriminate.
  - intros cntry H1 H2 rows Hrows.
    destruct (positive_rows_return group rows Hrows) as (g & p & Eg & Ep).
    exists g, p. split; [exact Eg|]. split; [exact Ep|].
    intros Gnz Pnz.
    rewrite (national_factors_nuts3 _ _ _ _ _ _ g p H1 H2 Eg Ep).
    eexists. split; [reflexivity|].
    destruct (update_gdp_pop && String.eqb cntry "ES");
      apply (factors_of_rows_are_shares L group rows _ _ g p);
      try assumption; try reflexivity; discriminate.
Qed.

Lemma factors_are_shares_witness :
  exists factors,
    regional_factors true (two_regions "ES") "ES11" (two_buses "ES")
    = Some factors
    /\ Forall (fun f => 0 <= f /\ f <= 1) factors.
Proof.
  destruct (proj1 (factors_are_shares raster_laws true [] (two_regions "ES")
                     (two_buses "ES") []) "ES11")
    as (g & p & Eg & Ep & Hshares).
  { repeat constructor; vm_compute; discriminate. }
  apply Hshares.
  - vm_compute in Eg. injection Eg as <-. vm_compute. discriminate.
  - vm_compute in Ep. injection Ep as <-. vm_compute. discriminate.
Defined.

(** X19.  In regional mode the contributions of the region codes add up:
    when the GDP and population figures of the group are computed for
    every region code and none of them sums to zero, [upsample] returns a
    frame with one column for every bus of the group, every row of which
    sums to the sum of all regional series at that snapshot. *)
Theorem regional_output_conserves_total {G : Geometry}
    (update_gdp_pop : bool) (opsd_load : load_table)
    (nuts3 : list (nuts3_row (G := G))) (cntry : string)
    (group : bus_group (G := G)) :
  Forall (fun '(rr_ID, _) =>
            let rows :=
              List.filter (fun r => str_contains rr_ID (nuts3_index r)) nuts3 in
            exists g p,
              gdp_n group rows = Some g /\ pop_n group rows = Some p
              /\ ~ Qsum g == 0 /\ ~ Qsum p == 0)
         (series opsd_load) ->
  exists df,
    upsample_regional update_gdp_pop opsd_load nuts3 cntry group = Some df
    /\ columns df = List.map fst group
    /\ Forall2 (fun tot row => Qsum row == tot
                               /\ List.length row = List.length group)
               (sum_series (series opsd_load)
                           (List.repeat 0 (List.length (snapshots opsd_load))))
               (values df).
Proof.
  intro H. unfold upsample_regional. cbv zeta.
  destruct (accumulate_conserves update_gdp_pop nuts3 group _ H _ _
              (zero_frame_rows (List.length (snapshots opsd_load))
                               (List.length group)))
    as (total & -> & Hrows).
  eexists. split; [reflexivity|]. split; [reflexivity|]. exact Hrows.
Qed.

Lemma regional_output_conserves_total_witness :
  exists df,
    upsample_regional true regional_load (two_regions "ES") "ES"
                      (two_buses "ES") = Some df
    /\ Forall2 (fun tot row => Qsum row == tot /\ List.length row = 2%nat)
               [100; 80] (values df).
Proof.
  pose proof (regional_output_conserves_total true regional_load
                (two_regions "ES") "ES" (two_buses "ES")) as H.
  assert (Hreg : Forall (fun '(rr_ID, _) =>
            let rows :=
              List.filter (fun r => str_contains rr_ID (nuts3_index r))
                          (two_regions "ES") in
            exists g p,
              gdp_n (two_buses "ES") rows = Some g
              /\ pop_n (two_buses "ES") rows = Some p
              /\ ~ Qsum g == 0 /\ ~ Qsum p == 0)
           (series regional_load)).
  { repeat constructor; cbv zeta;
      (eexists; eexists;
       split; [vm_compute; reflexivity|];
       split; [vm_compute; reflexivity|];
       split; vm_compute; discriminate). }
  destruct (H Hreg) as (df & Hdf & _ & Hrows).
  exists df. split; [exact Hdf|exact Hrows].
Defined.

End FactorBounds.

(** ** Carriers and their emissions *)

Section CarriersFacts.

Import Carriers CarriersExamples.

Variable default : attrs.

Lemma add_missing_carriers_union (t : gmap string attrs) (cs : list string) :
  add_missing_carriers default t cs
  = t ∪ gset_to_gmap default (list_to_set cs ∖ dom t).
Proof.
  unfold add_missing_carriers. cbv zeta.
  destruct (decide (0 < size (list_to_set cs ∖ dom t))%nat) as [H|H];
    [reflexivity|].
  assert (E : (list_to_set cs ∖ dom t : gset string) = ∅).
  { apply leibniz_equiv, size_empty_iff. lia. }
  rewrite E, gset_to_gmap_empty. symmetry. apply (right_id_L ∅ (∪)).
Qed.

Lemma add_missing_carriers_lookup (t : gmap string attrs) (cs : list string)
    (c : string) :
  add_missing_carriers default t cs !! c
  = match t !! c with
    | Some a => Some a
    | None => if decide (c ∈ cs) then Some default else None
    end.
Proof.
  rewrite add_missing_carriers_union.
  destruct (t !! c) as [a|] eqn:E.
  - apply lookup_union_Some_l. exact E.
  - rewrite lookup_union_r by exact E.
    rewrite lookup_gset_to_gmap.
    destruct (decide (c ∈ cs)) as [Hin|Hin].
    + rewrite option_guard_True; [reflexivity|].
      apply elem_of_difference. split.
      * apply elem_of_list_to_set. exact Hin.
      * apply not_elem_of_dom. exact E.
    + rewrite option_guard_False; [reflexivity|].
      intro H. apply elem_of_difference in H as [H _].
      apply elem_of_list_to_set in H. contradiction.
Qed.

Lemma add_missing_carriers_listed (t : gmap string attrs) (cs : list string)
    (c : string) :
  c ∈ cs -> is_Some (add_missing_carriers default t cs !! c).
Proof.
  intro Hin. rewrite add_missing_carriers_lookup.
  destruct (t !! c); [eexists; reflexivity|].
  destruct (decide (c ∈ cs)); [eexists; reflexivity|contradiction].
Qed.

Lemma add_missing_carriers_dom (t : gmap string attrs) (cs : list string) :
  dom (add_missing_carriers default t cs) = dom t ∪ list_to_set cs.
Proof.
  apply set_eq. intro c.
  rewrite elem_of_dom, elem_of_union, elem_of_dom, elem_of_list_to_set.
  rewrite add_missing_carriers_lookup.
  destruct (t !! c) as [a|].
  - split; [intros _; left; eexists; reflexivity|intros _; eexists; reflexivity].
  - destruct (decide (c ∈ cs)) as [Hin|Hin].
    + split; [intros _; right; exact Hin|intros _; eexists; reflexivity].
    + split; [intros [x Hx]; discriminate|].
      intros [[x Hx]|Hc]; [discriminate|contradiction].
Qed.

(** X20. [add_missing_carriers] keeps every carrier the network has with
    its row, gives each listed carrier the network lacks the default row,
    adds nothing else, and changes nothing when it is called again with
    the same list. *)
Theorem missing_carriers_are_added (t : gmap string attrs)
    (cs : list string) :
  (forall c,
     add_missing_carriers default t cs !! c
     = match t !! c with
       | Some a => Some a
       | None => if decide (c ∈ cs) then Some default else None
       end) /\
  dom (add_missing_carriers default t cs) = dom t ∪ list_to_set cs /\
  add_missing_carriers default (add_missing_carriers default t cs) cs
  = add_missing_carriers default t cs.
Proof.
  split; [|split].
  - intro c. apply add_missing_carriers_lookup.
  - apply add_missing_carriers_dom.
  - apply map_eq. intro c.
    rewrite add_missing_carriers_lookup.
    destruct (add_missing_carriers default t cs !! c) as [a|] eqn:E;
      [reflexivity|].
    destruct (decide (c ∈ cs)) as [Hin|Hin]; [|reflexivity].
    destruct (add_missing_carriers_listed t cs c Hin) as [x Hx].
    congruence.
Qed.

Lemma set_co2_twice (v w : Q) (a : attrs) :
  set_co2 v (set_co2 w a) = set_co2 v a.
Proof. reflexivity. Qed.

Lemma emissions_length (costs : gmap string Q) (cs : list string)
    (vs : list Q) :
  emissions costs cs = Some vs -> length vs = length cs.
Proof.
  revert vs. induction cs as [|c cs IH]; intros vs H; simpl in H.
  - injection H as <-. reflexivity.
  - destruct (costs !! first_component c); [|discriminate].
    destruct (emissions costs cs) as [vs'|]; [|discriminate].
    injection H as <-. simpl. f_equal. apply IH. reflexivity.
Qed.

Lemma emissions_fail_iff (costs : gmap string Q) (cs : list string) :
  emissions costs cs = None
  <-> exists c, In c cs /\ costs !! first_component c = None.
Proof.
  induction cs as [|c cs IH]; simpl.
  - split; [discriminate|intros [c [[] _]]].
  - destruct (costs !! first_component c) as [v|] eqn:E.
    + destruct (emissions costs cs) as [vs|].
      * split; [discriminate|].
        intros [c' [[->|Hin] Hc']]; [congruence|].
        assert (Hnone : Some vs = None)
          by (apply IH; exists c'; split; assumption).
        discriminate.
      * split; [|reflexivity].
        intros _. destruct (proj1 IH eq_refl) as [c' [Hin Hc']].
        exists c'. split; [right; exact Hin|exact Hc'].
    + split; [|reflexivity].
      intros _. exists c. split; [left; reflexivity|exact E].
Qed.

Lemma assign_lookup (costs : gmap string Q) (cs : list string) :
  forall (vs : list Q) (t : gmap string attrs) (c : string),
    emissions costs cs = Some vs ->
    assign t cs vs !! c
    = if decide (c ∈ cs)
      then match costs !! first_component c with
           | Some v => set_co2 v <$> t !! c
           | None => None
           end
      else t !! c.
Proof.
  induction cs as [|c0 cs IH]; intros vs t c H; simpl in H.
  - injection H as <-. simpl.
    destruct (decide (c ∈ [])) as [Hin|_]; [|reflexivity].
    apply elem_of_nil in Hin. contradiction.
  - destruct (costs !! first_component c0) as [v0|] eqn:E0; [|discriminate].
    destruct (emissions costs cs) as [vs'|] eqn:E; [|discriminate].
    injection H as <-. simpl assign.
    rewrite (IH vs' _ c eq_refl).
    destruct (decide (c ∈ cs)) as [Hin|Hin].
    + destruct (decide (c ∈ c0 :: cs)) as [_|Hn];
        [|exfalso; apply Hn; apply elem_of_cons; right; exact Hin].
      destruct (costs !! first_component c) as [v|]; [|reflexivity].
      destruct (decide (c0 = c)) as [->|Hne].
      * rewrite lookup_alter_eq. destruct (t !! c); reflexivity.
      * rewrite lookup_alter_ne by exact Hne. reflexivity.
    + destruct (decide (c0 = c)) as [->|Hne].
      * destruct (decide (c ∈ c :: cs)) as [_|Hn];
          [|exfalso; apply Hn; apply elem_of_cons; left; reflexivity].
        rewrite lookup_alter_eq, E0. reflexivity.
      * destruct (decide (c ∈ c0 :: cs)) as [Hin'|_].
        { apply elem_of_cons in Hin' as [Heq|Hin'];
            [symmetry in Heq|]; contradiction. }
        apply lookup_alter_ne. exact Hne.
Qed.

Lemma known_carriers_pass (t : gmap string attrs) (cs : list string) :
  forallb (fun c => bool_decide (is_Some (t !! c))) cs = true
  <-> forall c, In c cs -> is_Some (t !! c).
Proof.
  rewrite forallb_forall. split; intros H c Hin.
  - apply (bool_decide_eq_true_1 _ (H c Hin)).
  - apply bool_decide_eq_true_2. apply H. exact Hin.
Qed.

(** X21. Where [add_co2_emissions] returns, every listed carrier has the
    emissions the cost table gives the part of its name before the first
    "-", with its nice name and colour as before, and every other carrier
    is as before. *)
Theorem listed_carriers_get_emissions (t t2 : gmap string attrs)
    (costs : gmap string Q) (cs : list string)
    (H : add_co2_emissions t costs cs = Some t2) :
  (forall c, In c cs ->
     exists a v,
       t !! c = Some a /\
       costs !! first_component c = Some v /\
       t2 !! c = Some (mkAttrs v (nice_name a) (color a))) /\
  (forall c, ~ In c cs -> t2 !! c = t !! c).
Proof.
  unfold add_co2_emissions in H.
  destruct (forallb _ cs) eqn:EK; [|discriminate].
  destruct (emissions costs cs) as [vs|] eqn:EV; [|discriminate].
  injection H as <-.
  pose proof (proj1 (known_carriers_pass t cs) EK) as Hknown.
  split; intros c Hc.
  - destruct (Hknown c Hc) as [a Ha].
    destruct (costs !! first_component c) as [v|] eqn:Ec.
    + exists a, v. split; [exact Ha|]. split; [reflexivity|].
      rewrite (assign_lookup costs cs vs t c EV).
      destruct (decide (c ∈ cs)) as [_|Hn];
        [|exfalso; apply Hn, list_elem_of_In; exact Hc].
      rewrite Ec, Ha. reflexivity.
    + exfalso.
      assert (Hnone : emissions costs cs = None).
      { apply emissions_fail_iff. exists c. split; assumption. }
      congruence.
  - rewrite (assign_lookup costs cs vs t c EV).
    destruct (decide (c ∈ cs)) as [Hin|_]; [|reflexivity].
    apply list_elem_of_In in Hin. contradiction.
Qed.

Lemma listed_carriers_get_emissions_witness :
  exists t2,
    add_co2_emissions
      (add_missing_carriers new_carrier n_carriers carriers)
      costs_co2 carriers = Some t2 /\
    co2_emissions <$> t2 !! "solar-hsat" = Some 0 /\
    t2 !! "solar" = n_carriers !! "solar".
Proof.
  destruct (add_co2_emissions
              (add_missing_carriers new_carrier n_carriers carriers)
              costs_co2 carriers) as [t2|] eqn:E;
    [|vm_compute in E; discriminate].
  exists t2. split; [reflexivity|].
  destruct (listed_carriers_get_emissions _ t2 costs_co2 carriers E)
    as [Hlisted Hother].
  split.
  - destruct (Hlisted "solar-hsat") as [a [v [_ [Hv Ht2]]]].
    { simpl. right. left. reflexivity. }
    rewrite Ht2. simpl. vm_compute in Hv. injection Hv as <-. reflexivity.
  - rewrite Hother.
    + vm_compute. reflexivity.
    + simpl. intros [H|[H|[H|[]]]]; discriminate.
Defined.

(** X22. Called after [add_missing_carriers] with the same list, as the
    script does, [add_co2_emissions] fails exactly when the cost table has
    no emissions for the part before the first "-" of a listed carrier;
    otherwise it returns a table with the carriers of the network and of
    the list. *)
Theorem emissions_after_missing_carriers (t : gmap string attrs)
    (costs : gmap string Q) (cs : list string) :
  (add_co2_emissions (add_missing_carriers default t cs) costs cs = None
   <-> exists c, In c cs /\ costs !! first_component c = None) /\
  (forall t2,
     add_co2_emissions (add_missing_carriers default t cs) costs cs = Some t2
     -> dom t2 = dom t ∪ list_to_set cs).
Proof.
  assert (EK : forallb (fun c => bool_decide
                          (is_Some (add_missing_carriers default t cs !! c)))
                 cs = true).
  { apply known_carriers_pass. intros c Hin.
    apply add_missing_carriers_listed. apply list_elem_of_In. exact Hin. }
  split.
  - unfold add_co2_emissions. rewrite EK.
    rewrite <- emissions_fail_iff.
    destruct (emissions costs cs); split; intro H;
      try discriminate; reflexivity.
  - intros t2 H.
    rewrite <- add_missing_carriers_dom.
    unfold add_co2_emissions in H. rewrite EK in H.
    destruct (emissions costs cs) as [vs|] eqn:EV; [|discriminate].
    injection H as <-.
    clear EK EV. revert vs. generalize (add_missing_carriers default t cs).
    induction cs as [|c cs IH]; intros m vs; [reflexivity|].
    destruct vs as [|v vs]; [reflexivity|].
    simpl. rewrite IH. apply dom_alter_L.
Qed.

End CarriersFacts.

Section CarriersWitnesses.

Import Carriers CarriersExamples.

Lemma emissions_after_missing_carriers_witness :
  exists t2,
    add_co2_emissions
      (add_missing_carriers new_carrier n_carriers carriers)
      costs_co2 carriers = Some t2 /\
    dom t2 = dom n_carriers ∪ list_to_set carriers.
Proof.
  destruct (emissions_after_missing_carriers new_carrier n_carriers
              costs_co2 carriers) as [Hfail Hdom].
  destruct (add_co2_emissions
              (add_missing_carriers new_carrier n_carriers carriers)
              costs_co2 carriers) as [t2|] eqn:E;
    [|vm_compute in E; discriminate].
  exists t2. split; [reflexivity|]. apply Hdom. reflexivity.
Defined.

End CarriersWitnesses.

(** ** Transmission projects *)

Section ProjectsFacts.

Import Projects ProjectsExamples.

Context {value : Type}.

Variable madd : string -> frame value -> frame value -> frame value.

Lemma update_row_lookup (self other : row value) (col : string) :
  update_row self other !! col
  = match self !! col with
    | Some c => Some (match other !! col with
                      | Some (Some v) => Some v
                      | _ => c
                      end)
    | None => None
    end.
Proof.
  unfold update_row. rewrite lookup_merge.
  destruct (self !! col), (other !! col); reflexivity.
Qed.

Lemma update_lookup (self other : frame value) (label : string) :
  update self other !! label
  = match self !! label with
    | Some r => Some (match other !! label with
                      | Some r' => update_row r r'
                      | None => r
                      end)
    | None => None
    end.
Proof.
  unfold update. rewrite lookup_merge.
  destruct (self !! label), (other !! label); reflexivity.
Qed.

Lemma update_dom (self other : frame value) :
  dom (update self other) = dom self.
Proof.
  apply set_eq. intro label.
  rewrite !elem_of_dom, update_lookup.
  destruct (self !! label); split; intros [x Hx];
    try discriminate; eexists; reflexivity.
Qed.

Lemma add_project_adjusts (n : network value) (name : string)
    (df : frame value) :
  Load.str_contains "new_links" name = false ->
  links (add_project madd n (name, df)) = links n /\
  (Load.str_contains "new_lines" name = false ->
   dom (lines (add_project madd n (name, df))) = dom (lines n)).
Proof.
  intro Hlinks. unfold add_project.
  destruct (empty df); [split; reflexivity|].
  destruct (Load.str_contains "new_buses" name); [split; reflexivity|].
  destruct (Load.str_contains "new_lines" name) eqn:El.
  - split; [reflexivity|discriminate].
  - rewrite Hlinks. simpl. split; [reflexivity|].
    intros _. apply update_dom.
Qed.

(** X24. Files whose name does not contain "new_links" leave the links of
    the network as they are, whatever else their name says: a file named
    "adjust_links" is taken by the branch of "adjust_lines" and updates
    the lines. If no name contains "new_lines" either, the network has the
    same lines afterwards: an adjustment never adds one. *)
Theorem link_adjustments_never_reach_links (n : network value)
    (transmission_projects : list (string * frame value))
    (H : forall name df, In (name, df) transmission_projects ->
           Load.str_contains "new_links" name = false) :
  links (add_transmission_projects madd n transmission_projects) = links n /\
  ((forall name df, In (name, df) transmission_projects ->
      Load.str_contains "new_lines" name = false) ->
   dom (lines (add_transmission_projects madd n transmission_projects))
   = dom (lines n)).
Proof.
  unfold add_transmission_projects.
  revert n. induction transmission_projects as [|[name df] ps IH];
    intro n; cbn [fold_left].
  - split; reflexivity.
  - assert (Hname : Load.str_contains "new_links" name = false)
      by (apply (H name df); left; reflexivity).
    assert (Hps : forall name' df', In (name', df') ps ->
                    Load.str_contains "new_links" name' = false)
      by (intros name' df' Hin; apply (H name' df'); right; exact Hin).
    destruct (IH Hps (add_project madd n (name, df))) as [IHlinks IHlines].
    destruct (add_project_adjusts n name df Hname) as [Hl Hd].
    split.
    + rewrite IHlinks. exact Hl.
    + intro Hnew. rewrite IHlines.
      * apply Hd. apply (Hnew name df). left. reflexivity.
      * intros name' df' Hin. apply (Hnew name' df'). right. exact Hin.
Qed.

End ProjectsFacts.

Section ProjectsWitnesses.

Import Projects ProjectsExamples.

Lemma link_adjustments_never_reach_links_witness :
  links (add_transmission_projects append network0 [adjust_links])
  = links network0 /\
  lines (add_transmission_projects append network0 [adjust_links])
  = lines network0.
Proof.
  assert (H : forall name df, In (name, df) [adjust_links] ->
                Load.str_contains "new_links" name = false).
  { intros name df [Heq|[]]. injection Heq as <- _. vm_compute. reflexivity. }
  split.
  - apply (proj1 (link_adjustments_never_reach_links append network0
                    [adjust_links] H)).
  - vm_compute. reflexivity.
Defined.

End ProjectsWitnesses.

(** ** Names of carriers *)

Section CarrierNames.

Import Carriers.

(** X23. The first component of a carrier name has no "-", and the name
    is this component followed by nothing or by a rest that starts with
    "-": the name is cut at its first "-". *)
Theorem first_component_cuts_at_first_dash (s : string) :
  (forall i, String.get i (first_component s) <> Some "-"%char) /\
  exists rest,
    s = String.append (first_component s) rest /\
    (rest = "" \/ String.get 0 rest = Some "-"%char).
Proof.
  induction s as [|c s [IHdash [rest [IHs IHrest]]]]; simpl.
  - split; [intros i; discriminate|].
    exists "". split; [reflexivity|left; reflexivity].
  - destruct (Ascii.eqb c "-") eqn:E.
    + apply Ascii.eqb_eq in E. subst c.
      split; [intros i; discriminate|].
      exists (String "-" s). split; [reflexivity|right; reflexivity].
    + apply Ascii.eqb_neq in E.
      split.
      * intros [|i]; simpl; [congruence|apply IHdash].
      * exists rest. split; [|exact IHrest].
        change (String c s
                = String c (String.append (first_component s) rest)).
        f_equal. exact IHs.
Qed.

End CarrierNames.

(** ** Wind and solar generators *)

Section WindSolarFacts.

Import Carriers WindSolar WindSolarExamples.

Variable costs : gmap string cost_row.
Variable extendable_carriers : list string.
Variable line_length_factor : Q.

Lemma connection_cost_bounds (submarine underground : Q) (s : site) :
  0 <= line_length_factor * average_distance s ->
  0 <= underwater_fraction s <= 1 ->
  line_length_factor * average_distance s * Qmin submarine underground
  <= connection_cost line_length_factor submarine underground s
  <= line_length_factor * average_distance s * Qmax submarine underground.
Proof.
  intros Hd [Hu0 Hu1]. unfold connection_cost.
  set (d := line_length_factor * average_distance s) in *.
  set (u := underwater_fraction s) in *.
  assert (Hlo : Qmin submarine underground
                <= u * submarine + (1 - u) * underground).
  { destruct (Q.min_spec submarine underground) as [[Hlt ->]|[Hle ->]].
    - assert (0 <= (1 - u) * (underground - submarine))
        by (apply Qmult_le_0_compat; lra).
      lra.
    - assert (0 <= u * (submarine - underground))
        by (apply Qmult_le_0_compat; lra).
      lra. }
  assert (Hhi : u * submarine + (1 - u) * underground
                <= Qmax submarine underground).
  { destruct (Q.max_spec submarine underground) as [[Hlt ->]|[Hle ->]].
    - assert (0 <= u * (underground - submarine))
        by (apply Qmult_le_0_compat; lra).
      lra.
    - assert (0 <= (1 - u) * (submarine - underground))
        by (apply Qmult_le_0_compat; lra).
      lra. }
  split.
  - assert (0 <= d * (u * submarine + (1 - u) * underground
                      - Qmin submarine underground))
      by (apply Qmult_le_0_compat; lra).
    lra.
  - assert (0 <= d * (Qmax submarine underground
                      - (u * submarine + (1 - u) * underground)))
      by (apply Qmult_le_0_compat; lra).
    lra.
Qed.

Lemma new_generators_sites (car : string) (sup : cost_row)
    (sites : list site) (gens : list generator) :
  new_generators costs extendable_carriers line_length_factor car sup sites
  = Some gens ->
  Forall2 (fun s g =>
             name g = String.append (bus s) (String.append " " car) /\
             carrier g = car /\
             site_capital_cost costs line_length_factor car s
             = Some (gen_capital_cost g))
          sites gens.
Proof.
  revert gens. induction sites as [|s rest IH]; intros gens H; simpl in H.
  - injection H as <-. constructor.
  - destruct (site_capital_cost costs line_length_factor car s) as [c|] eqn:Ec;
      [|discriminate].
    destruct (new_generators costs extendable_carriers line_length_factor
                car sup rest) as [gens'|]; [|discriminate].
    injection H as <-. constructor.
    + simpl. repeat split; try reflexivity. exact Ec.
    + apply IH. reflexivity.
Qed.

(** X25. The generators attached for an offshore wind carrier: there is
    one for each bus of the profile, and where the distance term is not
    negative and the underwater fraction lies between 0 and 1, its
    capital cost is the cost of "offwind" plus the cost of the carrier's
    station plus a connection cost between the all-underground and the
    all-submarine cost of the distance. *)
Theorem offwind_capital_cost_bounds (car : string) (sites : list site)
    (gens : list generator)
    (Hcar : first_component car = "offwind")
    (Hsites : Forall (fun s =>
                        0 <= line_length_factor * average_distance s /\
                        0 <= underwater_fraction s <= 1) sites)
    (H : attach_carrier costs extendable_carriers line_length_factor
           car sites = Some gens) :
  exists submarine underground offwind station,
    (sites <> [] ->
     at_capital_cost costs (String.append car "-connection-submarine")
     = Some submarine /\
     at_capital_cost costs (String.append car "-connection-underground")
     = Some underground /\
     at_capital_cost costs "offwind" = Some offwind /\
     at_capital_cost costs (String.append car "-station") = Some station) /\
    Forall2 (fun s g =>
               offwind + station
               + line_length_factor * average_distance s
                 * Qmin submarine underground
               <= gen_capital_cost g
               <= offwind + station
                  + line_length_factor * average_distance s
                    * Qmax submarine underground)
            sites gens.
Proof.
  unfold attach_carrier in H.
  assert (Hhydro : String.eqb car "hydro" = false).
  { apply String.eqb_neq. intros ->. simpl in Hcar. discriminate. }
  rewrite Hhydro in H.
  destruct sites as [|s0 rest] eqn:Es.
  { injection H as <-. exists 0, 0, 0, 0.
    split; [intro Hn; contradiction|constructor]. }
  rewrite <- Es in *.
  destruct (costs !! first_component car) as [sup|]; [|discriminate].
  pose proof (new_generators_sites car sup sites gens H) as Hgens.
  assert (Hs0 : exists c, site_capital_cost costs line_length_factor car s0
                          = Some c).
  { rewrite Es in Hgens. inversion Hgens as [|? g ? ? [_ [_ Hc]] _]; subst.
    eexists. exact Hc. }
  destruct Hs0 as [c0 Hc0]. unfold site_capital_cost in Hc0.
  cbv zeta in Hc0. rewrite Hcar in Hc0. simpl String.eqb in Hc0.
  destruct (at_capital_cost costs (String.append car "-connection-submarine"))
    as [submarine|] eqn:E1; [|discriminate].
  destruct (at_capital_cost costs
              (String.append car "-connection-underground"))
    as [underground|] eqn:E2; [|discriminate].
  destruct (at_capital_cost costs "offwind") as [offwind|] eqn:E3;
    [|discriminate].
  destruct (at_capital_cost costs (String.append car "-station"))
    as [station|] eqn:E4; [|discriminate].
  exists submarine, underground, offwind, station.
  split; [intros _; repeat split; reflexivity|].
  clear Hc0 Es H.
  induction Hgens as [|s g ss gs [_ [_ Hc]] _ IH]; [constructor|].
  inversion Hsites as [|? ? [Hd Hu] Hrest]; subst.
  constructor; [|apply IH; exact Hrest].
  unfold site_capital_cost in Hc. cbv zeta in Hc.
  rewrite Hcar in Hc. simpl String.eqb in Hc.
  rewrite E1, E2, E3, E4 in Hc. injection Hc as Hc. rewrite <- Hc.
  pose proof (connection_cost_bounds submarine underground s Hd Hu)
    as [Hlo Hhi].
  split; lra.
Qed.

End WindSolarFacts.

Section WindSolarWitnesses.

Import Carriers WindSolar WindSolarExamples.

Lemma offwind_capital_cost_bounds_witness :
  exists gens,
    attach_carrier costs ["offwind-ac"] 1 "offwind-ac" sites = Some gens /\
    Forall2 (fun s g =>
               100000 + 25000 + 1 * average_distance s * 100
               <= gen_capital_cost g
               <= 100000 + 25000 + 1 * average_distance s * 300)
            sites gens.
Proof.
  destruct (attach_carrier costs ["offwind-ac"] 1 "offwind-ac" sites)
    as [gens|] eqn:E; [|vm_compute in E; discriminate].
  exists gens. split; [reflexivity|].
  assert (Hsites : Forall (fun s =>
                             0 <= 1 * average_distance s /\
                             0 <= underwater_fraction s <= 1) sites).
  { repeat constructor; vm_compute; discriminate. }
  destruct (offwind_capital_cost_bounds costs ["offwind-ac"] 1 "offwind-ac"
              sites gens eq_refl Hsites E)
    as [submarine [underground [offwind [station [Hcosts Hall]]]]].
  destruct Hcosts as [H1 [H2 [H3 H4]]]; [discriminate|].
  vm_compute in H1, H2, H3, H4.
  injection H1 as <-. injection H2 as <-.
  injection H3 as <-. injection H4 as <-.
  exact Hall.
Defined.

End WindSolarWitnesses.
